(** * Grading and positional-error classification of needle-in-a-haystack runs

    A shallow embedding of the pure core of the repository:

    - [grading_utils.py]: [calculate_edit_distance], [grade_answers] and its
      inner [values_sequence_from_dict];
    - [analyze_position_accuracy.py]:
      [longest_common_subsequence_with_indices], the loop of
      [analyze_table], [insert_position_stats] and the order of
      [get_all_tables];
    - [analyze_errors.py]: [longest_common_subsequence], the loops of
      [analyze_misorder_errors], [analyze_hallucination_errors] and
      [analyze_missing_errors], the three [insert_*_stats] and the totals of
      [analyze_model_errors];
    - [analyze_summary.py]: the statistics of [analyze_table];
    - the names of databases and tables in these scripts and in [app.py].

    Python lists are lists, list-of-list tables are updated by index, [dict]s
    loaded from JSON are association lists in insertion order with string
    keys, frequency dictionaries are finite maps, integers are unbounded
    ([nat] for counts and table cells, [Z] for parsed keys) and the one
    float computation (a percentage) is carried out over the rationals. *)

From Stdlib Require Import ZArith QArith Lia Lqa Ascii String.
From stdpp Require Import base tactics option list numbers strings gmap pretty sorting.

Local Open Scope nat_scope.

(** ** Exceptions *)

Module Exn.

Inductive exn := ValueError | TypeError | KeyError.

Inductive result (A : Type) :=
| Ok (a : A)
| Raise (e : exn).
Arguments Ok {A} a.
Arguments Raise {A} e.

Definition bind {A B} (r : result A) (k : A -> result B) : result B :=
  match r with
  | Ok a => k a
  | Raise e => Raise e
  end.

(** [for x in l: ... f(x) ...] collecting the results, leaving at the first
    exception. *)
Fixpoint traverse {A B} (f : A -> result B) (l : list A) : result (list B) :=
  match l with
  | [] => Ok []
  | x :: l' => bind (f x) (fun y => bind (traverse f l') (fun ys => Ok (y :: ys)))
  end.

(** [try: body / except (ValueError, TypeError): handler / else: els]. *)
Definition try_except_else {A B} (body : result A) (handler : result B)
    (els : A -> result B) : result B :=
  match body with
  | Ok a => els a
  | Raise ValueError | Raise TypeError => handler
  | Raise e => Raise e
  end.

(** [try: body / except (ValueError, TypeError): handler]. *)
Definition try_except_value_type {A} (body handler : result A) : result A :=
  match body with
  | Raise ValueError | Raise TypeError => handler
  | _ => body
  end.

(** [try: body / except Exception: continue]: any exception is swallowed. *)
Definition to_option {A} (r : result A) : option A :=
  match r with
  | Ok a => Some a
  | Raise _ => None
  end.

End Exn.
Import Exn.

#[global] Instance result_ret : MRet result := @Ok.
#[global] Instance result_bind : MBind result := fun _ _ k r => Exn.bind r k.

(** ** Two-dimensional tables: [dp = [[0] * (n + 1) for _ in range(m + 1)]] *)

Abbreviation table := (list (list nat)).

Definition new_table (m n : nat) : table := replicate (m + 1) (replicate (n + 1) 0).

(** [dp[i][j]]; every read below is in range (see [wf_table]), where the
    default is never used. *)
Definition get2 (dp : table) (i j : nat) : nat :=
  default 0 (dp !! i ≫= fun row => row !! j).

(** [dp[i][j] = v]. *)
Definition set2 (dp : table) (i j v : nat) : table :=
  alter (fun row => <[j := v]> row) i dp.

(** The shape every table below keeps: [m + 1] rows of [n + 1] cells, so
    that no read or write with [i <= m] and [j <= n] is out of range. *)
Definition wf_table (dp : table) (m n : nat) : Prop :=
  length dp = S m /\ Forall (fun row => length row = S n) dp.

Definition min3 (a b c : nat) : nat := Nat.min a (Nat.min b c).

(** [a > b] on table cells. *)
Definition gtb (a b : nat) : bool := b <? a.

(** ** [grading_utils.calculate_edit_distance] *)

Section EditDistance.
Context {A : Type} `{EqDecision A}.

(** [cost = 0 if seq1[i - 1] == seq2[j - 1] else 1], written with the
    0-based positions [i - 1] and [j - 1]. *)
Definition subst_cost (seq1 seq2 : list A) (i j : nat) : nat :=
  if bool_decide (seq1 !! i = seq2 !! j) then 0 else 1.

Definition ed_cell (seq1 seq2 : list A) (dp : table) (i j : nat) : table :=
  let cost := subst_cost seq1 seq2 (i - 1) (j - 1) in
  set2 dp i j (min3 (get2 dp (i - 1) j + 1)
                    (get2 dp i (j - 1) + 1)
                    (get2 dp (i - 1) (j - 1) + cost)).

(** The table as [calculate_edit_distance] leaves it: first column, first
    row, then the cells row by row. *)
Definition ed_table (seq1 seq2 : list A) : table :=
  let m := length seq1 in
  let n := length seq2 in
  let dp := new_table m n in
  let dp := foldl (fun dp i => set2 dp i 0 i) dp (seq 0 (m + 1)) in
  let dp := foldl (fun dp j => set2 dp 0 j j) dp (seq 0 (n + 1)) in
  foldl (fun dp i => foldl (fun dp j => ed_cell seq1 seq2 dp i j) dp (seq 1 n))
        dp (seq 1 m).

(** The transposition rule of the source sits inside a string literal, so
    [allow_transposition] is bound and never read. *)
Definition calculate_edit_distance
    (seq1 seq2 : list A) (allow_transposition : bool) : nat :=
  let m := length seq1 in
  let n := length seq2 in
  let dp := ed_table seq1 seq2 in
  get2 dp m n.

(** The classical Levenshtein recurrence on prefix lengths, as the
    specification words it:
    [lev i 0 = i], [lev 0 j = j] and
    [lev i j = min (lev (i-1) j + 1, lev i (j-1) + 1, lev (i-1) (j-1) + cost)]. *)
Fixpoint levenshtein_prefix (seq1 seq2 : list A) (i : nat) : nat -> nat :=
  match i with
  | 0 => fun j => j
  | S i' =>
      fix row (j : nat) : nat :=
        match j with
        | 0 => S i'
        | S j' => min3 (levenshtein_prefix seq1 seq2 i' (S j') + 1)
                       (row j' + 1)
                       (levenshtein_prefix seq1 seq2 i' j' + subst_cost seq1 seq2 i' j')
        end
  end.

Definition levenshtein (seq1 seq2 : list A) : nat :=
  levenshtein_prefix seq1 seq2 (length seq1) (length seq2).

End EditDistance.

(** The rule the source keeps inside a string literal, written out as the
    specification describes it (an adjacent transposition costs 1); it is
    compared with [calculate_edit_distance] below and is not what runs. *)
Section Damerau.
Context {A : Type} `{EqDecision A}.

Definition damerau_cell (seq1 seq2 : list A) (dp : table) (i j : nat) : table :=
  let dp := ed_cell seq1 seq2 dp i j in
  if (1 <? i) && (1 <? j)
     && bool_decide (seq1 !! (i - 1) = seq2 !! (j - 2))
     && bool_decide (seq1 !! (i - 2) = seq2 !! (j - 1))
  then set2 dp i j (Nat.min (get2 dp i j) (get2 dp (i - 2) (j - 2) + 1))
  else dp.

Definition damerau_edit_distance (seq1 seq2 : list A) : nat :=
  let m := length seq1 in
  let n := length seq2 in
  let dp := new_table m n in
  let dp := foldl (fun dp i => set2 dp i 0 i) dp (seq 0 (m + 1)) in
  let dp := foldl (fun dp j => set2 dp 0 j j) dp (seq 0 (n + 1)) in
  let dp := foldl (fun dp i =>
              foldl (fun dp j => damerau_cell seq1 seq2 dp i j) dp (seq 1 n))
              dp (seq 1 m) in
  get2 dp m n.
End Damerau.

(** ** The two longest-common-subsequence functions

    [analyze_position_accuracy.longest_common_subsequence_with_indices] and
    [analyze_errors.longest_common_subsequence] fill the same table and walk
    back through it with the same loop; the first records the index [i-1],
    the second the element [seq1[i-1]]. *)

Section LCS.
Context {A : Type} `{EqDecision A}.

Definition lcs_cell (seq1 seq2 : list A) (dp : table) (i j : nat) : table :=
  if bool_decide (seq1 !! (i - 1) = seq2 !! (j - 1))
  then set2 dp i j (get2 dp (i - 1) (j - 1) + 1)
  else set2 dp i j (Nat.max (get2 dp (i - 1) j) (get2 dp i (j - 1))).

Definition lcs_table (seq1 seq2 : list A) : table :=
  let m := length seq1 in
  let n := length seq2 in
  foldl (fun dp i => foldl (fun dp j => lcs_cell seq1 seq2 dp i j) dp (seq 1 n))
        (new_table m n) (seq 1 m).

(** The length of a longest common subsequence of two lists, by the
    textbook recursion; the table is compared with it below. *)
Fixpoint lcs_length (a : list A) : list A -> nat :=
  match a with
  | [] => fun _ => 0
  | x :: a' =>
      fix inner (b : list A) : nat :=
        match b with
        | [] => 0
        | y :: b' => if decide (x = y) then lcs_length a' b' + 1
                     else Nat.max (lcs_length a' (y :: b')) (inner b')
        end
  end.

(** The state of the [while i > 0 and j > 0] loop: the two indices and the
    list appended to so far. *)
Record bt_state (R : Type) := BtState { bt_i : nat; bt_j : nat; bt_out : list R }.
Global Arguments BtState {R} _ _ _.
Global Arguments bt_i {R} _.
Global Arguments bt_j {R} _.
Global Arguments bt_out {R} _.

Definition bt_cond {R} (st : bt_state R) : bool := (0 <? bt_i st) && (0 <? bt_j st).

(** One iteration of the loop of [longest_common_subsequence_with_indices]. *)
Definition bt_body_indices (seq1 seq2 : list A) (dp : table)
    (st : bt_state nat) : bt_state nat :=
  let i := bt_i st in
  let j := bt_j st in
  if bool_decide (seq1 !! (i - 1) = seq2 !! (j - 1))
  then BtState (i - 1) (j - 1) (bt_out st ++ [i - 1])
  else if gtb (get2 dp (i - 1) j) (get2 dp i (j - 1))
  then BtState (i - 1) j (bt_out st)
  else BtState i (j - 1) (bt_out st).

(** One iteration of the loop of [longest_common_subsequence]. *)
Definition bt_body_values (seq1 seq2 : list A) (dp : table)
    (st : bt_state A) : bt_state A :=
  let i := bt_i st in
  let j := bt_j st in
  if bool_decide (seq1 !! (i - 1) = seq2 !! (j - 1))
  then BtState (i - 1) (j - 1) (bt_out st ++ option_list (seq1 !! (i - 1)))
  else if gtb (get2 dp (i - 1) j) (get2 dp i (j - 1))
  then BtState (i - 1) j (bt_out st)
  else BtState i (j - 1) (bt_out st).

(** [while cond: body], run for at most [fuel] iterations; [bt_loop_exits]
    shows that [i + j] iterations always reach the exit. *)
Fixpoint bt_loop {R} (body : bt_state R -> bt_state R) (fuel : nat)
    (st : bt_state R) : bt_state R :=
  match fuel with
  | 0 => st
  | S fuel' => if bt_cond st then bt_loop body fuel' (body st) else st
  end.

Definition longest_common_subsequence_with_indices (seq1 seq2 : list A) : list nat :=
  let m := length seq1 in
  let n := length seq2 in
  let dp := lcs_table seq1 seq2 in
  let st := bt_loop (bt_body_indices seq1 seq2 dp) (m + n) (BtState m n []) in
  reverse (bt_out st).

Definition longest_common_subsequence (seq1 seq2 : list A) : list A :=
  let m := length seq1 in
  let n := length seq2 in
  let dp := lcs_table seq1 seq2 in
  let st := bt_loop (bt_body_values seq1 seq2 dp) (m + n) (BtState m n []) in
  reverse (bt_out st).

End LCS.

(** ** Python built-ins on keys: [int(str)], [str(int)], [str.isdigit]

    Strings are sequences of 8-bit characters here, so the non-ASCII digits
    and spaces that Python also accepts are outside the model. *)

Module Py.

Definition is_space (c : ascii) : bool :=
  match N_of_ascii c with
  | 9%N | 10%N | 11%N | 12%N | 13%N | 32%N => true
  | _ => false
  end.

Definition digit_of (c : ascii) : option Z :=
  let n := Z.of_N (N_of_ascii c) in
  if ((48 <=? n) && (n <=? 57))%Z then Some (n - 48)%Z else None.

Fixpoint lstrip (l : list ascii) : list ascii :=
  match l with
  | c :: l' => if is_space c then lstrip l' else l
  | [] => []
  end.

Definition strip (l : list ascii) : list ascii := rev (lstrip (rev (lstrip l))).

(** Decimal digits, single underscores allowed between two digits. *)
Fixpoint parse_digits (acc : Z) (after_digit : bool) (l : list ascii) : option Z :=
  match l with
  | [] => if after_digit then Some acc else None
  | c :: l' =>
      match digit_of c with
      | Some d => parse_digits (10 * acc + d)%Z true l'
      | None =>
          if Ascii.eqb c "_" && after_digit then parse_digits acc false l' else None
      end
  end.

(** An optional sign, then the digits, between optional white space. *)
Definition parse_int (s : string) : option Z :=
  match strip (list_ascii_of_string s) with
  | [] => None
  | c :: l =>
      if Ascii.eqb c "+" then parse_digits 0 false l
      else if Ascii.eqb c "-" then Z.opp <$> parse_digits 0 false l
      else parse_digits 0 false (c :: l)
  end.

(** [int(s)]: raises [ValueError] on anything that is not a decimal literal. *)
Definition int (s : string) : result Z :=
  match parse_int s with
  | Some z => Ok z
  | None => Raise ValueError
  end.

(** [str(k)] for an integer [k]. *)
Definition str (k : Z) : string := pretty k.

(** [s.isdigit()]. *)
Definition isdigit (s : string) : bool :=
  match list_ascii_of_string s with
  | [] => false
  | l => forallb (fun c => bool_decide (is_Some (digit_of c))) l
  end.

(** [sorted] on integers and on strings. The orders are total and
    antisymmetric, so the sorted list does not depend on the algorithm. *)
Definition sorted_int (l : list Z) : list Z := merge_sort Z.le l.
Definition sorted_str (l : list string) : list string := merge_sort String.le l.

(** [l.index(x)]: first position of [x], [ValueError] when absent. *)
Fixpoint index_from {A} `{EqDecision A} (l : list A) (x : A) (pos : nat) : result nat :=
  match l with
  | [] => Raise ValueError
  | y :: l' => if decide (y = x) then Ok pos else index_from l' x (S pos)
  end.
Definition index {A} `{EqDecision A} (l : list A) (x : A) : result nat :=
  index_from l x 0.

End Py.

(** ** Answer sets: the [dict]s produced by [json.loads] *)

(** Insertion-ordered, string-keyed. A Python [dict] has no repeated key
    ([dict_wf]). *)
Abbreviation dict V := (list (string * V)).

Section Dict.
Context {V : Type}.

Definition dict_wf (d : dict V) : Prop := NoDup d.*1.

Definition keys (d : dict V) : list string := d.*1.
Definition values (d : dict V) : list V := d.*2.
Definition contains (d : dict V) (k : string) : bool := bool_decide (k ∈ keys d).
Fixpoint get (d : dict V) (k : string) : option V :=
  match d with
  | [] => None
  | (k', v) :: d' => if decide (k' = k) then Some v else get d' k
  end.

(** [d[k]]. *)
Definition getitem (d : dict V) (k : string) : result V :=
  match get d k with
  | Some v => Ok v
  | None => Raise KeyError
  end.
End Dict.

(** A key is _canonical_ when it is what [str] prints for the integer it
    denotes, and that integer is not negative: digits only, no sign, no
    padding. *)
Definition canonical_key (k : string) : bool :=
  Py.isdigit k && bool_decide (Py.str <$> Py.parse_int k = Some k).

(** An answer set as the test harness writes it: no key twice, every key
    canonical. *)
Definition canonical_dict {V : Type} (d : dict V) : bool :=
  bool_decide (NoDup (keys d)) && forallb canonical_key (keys d).

(** ** [grading_utils.grade_answers] *)

Record grade := Grade {
  correct_count : nat;
  answered_count : nat;
  total : nat;
  accuracy : Q;
  edit_distance : nat;
  missing_count : nat;
  extra_count : nat;
  wrong_count : Z
}.

(** [(1.0 - (edit_distance / max_length)) * 100 if max_length > 0 else 0.0],
    over the rationals: the exact value of the expression that the code
    evaluates in floating point, where each operation rounds. The results 0
    and 100 and the bounds 0 and 100 are the same for both. *)
Definition accuracy_of (edit_distance max_length : nat) : Q :=
  if 0 <? max_length
  then (1 - inject_Z (Z.of_nat edit_distance) / inject_Z (Z.of_nat max_length)) * 100
  else 0.

Section Grading.
Context {V : Type} `{EqDecision V}.

(** The score of two value sequences: the last two assignments of
    [grade_answers]. *)
Definition sequence_accuracy (standard_sequence student_sequence : list V)
    (allow_transposition : bool) : Q :=
  let distance :=
    calculate_edit_distance standard_sequence student_sequence allow_transposition in
  let max_length := Nat.max (length standard_sequence) (length student_sequence) in
  accuracy_of distance max_length.

(** The inner function of [grade_answers]. In the [try] block the keys are
    converted with [int], sorted, printed back with [str] and looked up;
    only [ValueError] and [TypeError] are handled, so the [KeyError] of a
    failed lookup leaves the function. *)
Definition values_sequence_from_dict (order_by_key : bool) (d : dict V)
    : result (list V) :=
  if order_by_key then
    try_except_value_type
      (ks ← traverse Py.int (keys d);
       let sorted_keys := Py.sorted_int ks in
       traverse (fun k => getitem d (Py.str k)) sorted_keys)
      (let sorted_keys := Py.sorted_str (keys d) in
       traverse (fun k => getitem d k) sorted_keys)
  else Ok (values d).

(** The per-key statistics computed after the edit distance:
    [(correct_count, missing_count, extra_count, wrong_count)]. *)
Definition key_statistics (student_answers standard_answers : dict V)
    : result (nat * nat * nat * Z) :=
  let answered_count := length student_answers in
  try_except_else
    (sk ← traverse Py.int (keys standard_answers);
     tk ← traverse Py.int (keys student_answers);
     let standard_keys := Py.sorted_int sk in
     let student_keys := Py.sorted_int tk in
     let standard_key_set : gset string := list_to_set (Py.str <$> standard_keys) in
     let student_key_set : gset string := list_to_set (Py.str <$> student_keys) in
     mret (standard_keys, standard_key_set, student_key_set))
    (let standard_key_set : gset string := list_to_set (keys standard_answers) in
     let student_key_set : gset string := list_to_set (keys student_answers) in
     let correct_count :=
       length (filter (fun k => get student_answers k = get standard_answers k)
                      (elements (standard_key_set ∩ student_key_set))) in
     let missing_count := size (standard_key_set ∖ student_key_set) in
     let extra_count := size (student_key_set ∖ standard_key_set) in
     let wrong_count :=
       (Z.of_nat answered_count - Z.of_nat correct_count - Z.of_nat extra_count)%Z in
     mret (correct_count, missing_count, extra_count, wrong_count))
    (fun '(standard_keys, standard_key_set, student_key_set) =>
     hits ← traverse (fun key =>
               let key_str := Py.str key in
               if contains student_answers key_str then
                 a ← getitem student_answers key_str;
                 b ← getitem standard_answers key_str;
                 mret (bool_decide (a = b))
               else mret false) standard_keys;
     let correct_count := length (filter (fun b : bool => b = true) hits) in
     let missing_count := size (standard_key_set ∖ student_key_set) in
     let extra_count := size (student_key_set ∖ standard_key_set) in
     let wrong_count :=
       (Z.of_nat answered_count - Z.of_nat correct_count - Z.of_nat extra_count)%Z in
     mret (correct_count, missing_count, extra_count, wrong_count)).

(** An empty [dict] is the falsy answer set of [if not standard_answers]. *)
Definition grade_answers (student_answers standard_answers : dict V)
    (allow_transposition order_by_key : bool) : result grade :=
  match standard_answers, student_answers with
  | [], _ =>
      Ok (Grade 0 (length student_answers) 0 0 (length student_answers)
                0 (length student_answers) 0)
  | _, [] =>
      Ok (Grade 0 0 (length standard_answers) 0 (length standard_answers)
                (length standard_answers) 0 0)
  | _, _ =>
      standard_sequence ← values_sequence_from_dict order_by_key standard_answers;
      student_sequence ← values_sequence_from_dict order_by_key student_answers;
      let distance :=
        calculate_edit_distance standard_sequence student_sequence allow_transposition in
      let total := length standard_answers in
      let answered_count := length student_answers in
      '(correct_count, missing_count, extra_count, wrong_count) ←
        key_statistics student_answers standard_answers;
      mret (Grade correct_count answered_count total
                  (sequence_accuracy standard_sequence student_sequence
                                     allow_transposition)
                  distance missing_count extra_count wrong_count)
  end.

End Grading.

(** ** The per-record classification of [analyze_errors.py] *)

(** [freq[k] = freq.get(k, 0) + 1]. *)
Definition bump `{Countable K} (freq : gmap K nat) (k : K) : gmap K nat :=
  <[k := default 0 (freq !! k) + 1]> freq.

(** What the three analyses derive from one record before counting. *)
Record anchors := Anchors {
  standard_keys : list Z;
  all_model_keys : list Z;
  correct_model_keys : list Z;
  lcs : list Z
}.

Abbreviation interval := (Z * Z)%type.

Section Classification.
Context {V : Type} `{EqDecision V}.

(** [sorted([int(k) for k in d.keys()])]. *)
Definition int_keys (d : dict V) : result (list Z) :=
  ks ← traverse Py.int (keys d); mret (Py.sorted_int ks).

(** [k_str in standard_answers and
     model_answers[k_str] == standard_answers[k_str]] with [k_str = str(k)]. *)
Definition value_correct (standard_answers model_answers : dict V) (k : Z)
    : result bool :=
  let k_str := Py.str k in
  if contains standard_answers k_str then
    a ← getitem model_answers k_str;
    b ← getitem standard_answers k_str;
    mret (bool_decide (a = b))
  else mret false.

(** [for k in l: if test(k): out.append(k)]. *)
Fixpoint select {A} (test : A -> result bool) (l : list A) : result (list A) :=
  match l with
  | [] => Ok []
  | k :: l' =>
      b ← test k;
      out ← select test l';
      mret (if b : bool then k :: out else out)
  end.

(** The common prefix of [analyze_misorder_errors] and
    [analyze_hallucination_errors]: key sequences, value-correct keys and
    their LCS with the standard keys. *)
Definition find_anchors (standard_answers model_answers : dict V) : result anchors :=
  standard_keys ← int_keys standard_answers;
  all_model_keys ← int_keys model_answers;
  correct_model_keys ← select (value_correct standard_answers model_answers)
                              all_model_keys;
  mret (Anchors standard_keys all_model_keys correct_model_keys
                (longest_common_subsequence standard_keys correct_model_keys)).

(** [[k for k in correct_model_keys if k not in lcs_set]]. *)
Definition misorder_keys (a : anchors) : list Z :=
  filter (fun k => k ∉ lcs a) (correct_model_keys a).

(** [[k for k in all_model_keys if k not in standard_keys_set]]. *)
Definition hallucination_keys (a : anchors) : list Z :=
  filter (fun k => k ∉ standard_keys a) (all_model_keys a).

(** [for i in positions: if all_model_keys[i] in lcs: anchor = ...; break]. *)
Fixpoint scan_anchor (all_model_keys lcs : list Z) (positions : list nat) : option Z :=
  match positions with
  | [] => None
  | i :: rest =>
      match all_model_keys !! i with
      | Some k => if bool_decide (k ∈ lcs) then Some k
                  else scan_anchor all_model_keys lcs rest
      | None => scan_anchor all_model_keys lcs rest
      end
  end.

(** [range(halluc_pos - 1, -1, -1)] and [range(halluc_pos + 1, len(keys))]. *)
Definition left_positions (halluc_pos : nat) : list nat := reverse (seq 0 halluc_pos).
Definition right_positions (halluc_pos len : nat) : list nat :=
  seq (halluc_pos + 1) (len - (halluc_pos + 1)).

(** What the two scans are meant to find: the anchor nearest to position
    [pos] before it, respectively after it, in [all_model_keys]; [None]
    when no position on that side holds an anchor. *)
Definition nearest_before (all_model_keys lcs : list Z) (pos : nat)
    (found : option Z) : Prop :=
  match found with
  | Some l => exists p, p < pos /\ all_model_keys !! p = Some l /\ l ∈ lcs /\
                forall q x, p < q < pos -> all_model_keys !! q = Some x -> x ∉ lcs
  | None => forall q x, q < pos -> all_model_keys !! q = Some x -> x ∉ lcs
  end.

Definition nearest_after (all_model_keys lcs : list Z) (pos : nat)
    (found : option Z) : Prop :=
  match found with
  | Some r => exists p, pos < p /\ all_model_keys !! p = Some r /\ r ∈ lcs /\
                forall q x, pos < q < p -> all_model_keys !! q = Some x -> x ∉ lcs
  | None => forall q x, pos < q -> all_model_keys !! q = Some x -> x ∉ lcs
  end.

(** The four-way choice of the interval; [None] is the [continue]. *)
Definition interval_of (left_anchor right_anchor : option Z) : option interval :=
  match left_anchor, right_anchor with
  | None, None => None
  | None, Some r => Some (0, r)%Z
  | Some l, None => Some (l, 41)%Z
  | Some l, Some r => Some (l, r)
  end.

Definition halluc_interval (a : anchors) (halluc_key : Z) : result (option interval) :=
  halluc_pos ← Py.index (all_model_keys a) halluc_key;
  let left_anchor :=
    scan_anchor (all_model_keys a) (lcs a) (left_positions halluc_pos) in
  let right_anchor :=
    scan_anchor (all_model_keys a) (lcs a)
                (right_positions halluc_pos (length (all_model_keys a))) in
  mret (interval_of left_anchor right_anchor).

(** The keys that reached the assignment [interval = (key_from, key_to)]. *)
Definition emitted (ivs : list (option interval)) : list interval := omap id ivs.

(** The intervals whose frequency one record increments, in order. With
    no hallucinated key the list is empty, which is the early [continue]
    of the source. The one operation of this loop that can raise is [index],
    and it never does ([hallucination_intervals_total]): no row is left
    half counted. *)
Definition hallucination_intervals (a : anchors) : result (list interval) :=
  ivs ← traverse (halluc_interval a) (hallucination_keys a);
  mret (emitted ivs).

(** [analyze_missing_errors]: the set [correct_keys]. *)
Fixpoint correct_keys (standard_answers model_answers items : dict V)
    : result (gset Z) :=
  match items with
  | [] => Ok ∅
  | (k_str, _) :: items' =>
      if Py.isdigit k_str && contains standard_answers k_str then
        a ← getitem model_answers k_str;
        b ← getitem standard_answers k_str;
        if decide (a = b) then
          k ← Py.int k_str;
          rest ← correct_keys standard_answers model_answers items';
          mret ({[k]} ∪ rest)
        else correct_keys standard_answers model_answers items'
      else correct_keys standard_answers model_answers items'
  end.

(** When an item [k_str] of the response adds the key [z] to
    [correct_keys]. *)
Definition adds_correct_key (standard_answers model_answers : dict V)
    (k_str : string) (z : Z) : Prop :=
  Py.isdigit k_str = true /\ k_str ∈ keys standard_answers /\
  (exists v, get model_answers k_str = Some v /\
             get standard_answers k_str = Some v) /\
  Py.parse_int k_str = Some z.

Definition missing_keys (standard_answers model_answers : dict V) : result (list Z) :=
  standard_keys ← int_keys standard_answers;
  ck ← correct_keys standard_answers model_answers model_answers;
  mret (filter (fun key => key ∉ ck) standard_keys).

(** *** The loops over the rows of a table

    A row holds the two JSON texts; [None] stands for a text that
    [json.loads] rejects or that is not an object. Whatever a row raises is
    caught by [except Exception], and the row is skipped. *)
Definition row := (option (dict V) * option (dict V))%type.

Definition over_records {K} `{Countable K}
    (per_record : dict V -> dict V -> result (list K))
    (records : list row) : gmap K nat * nat :=
  foldl (fun '(frequency, total_records) r =>
           match r with
           | (Some standard_answers, Some model_answers) =>
               match per_record standard_answers model_answers with
               | Ok ks => (foldl bump frequency ks, total_records + 1)
               | Raise _ => (frequency, total_records)
               end
           | _ => (frequency, total_records)
           end) (∅, 0) records.

Definition analyze_misorder_errors (records : list row) : gmap Z nat * nat :=
  over_records (fun s m => a ← find_anchors s m; mret (misorder_keys a)) records.

Definition analyze_hallucination_errors (records : list row)
    : gmap interval nat * nat :=
  over_records (fun s m => a ← find_anchors s m; hallucination_intervals a) records.

Definition analyze_missing_errors (records : list row) : gmap Z nat * nat :=
  over_records missing_keys records.

(** The hallucinated keys of a row, when the row is classified. *)
Definition record_hallucinations (r : row) : list Z :=
  match r with
  | (Some standard_answers, Some model_answers) =>
      match find_anchors standard_answers model_answers with
      | Ok a => hallucination_keys a
      | Raise _ => []
      end
  | _ => []
  end.

End Classification.

(** [insert_interval_error_stats]: the rows written for a frequency table. *)
Record interval_row := IntervalRow {
  key_from : Z;
  key_to : Z;
  frequency : nat;
  probability : Q;
  row_total_records : nat
}.

Definition probability_of (frequency total_records : nat) : Q :=
  if 0 <? total_records
  then inject_Z (Z.of_nat frequency) / inject_Z (Z.of_nat total_records) * 100
  else 0.

Definition insert_interval_error_stats
    (error_frequency : gmap interval nat) (total_records : nat) : list interval_row :=
  (fun '((key_from, key_to), frequency) =>
     IntervalRow key_from key_to frequency
                 (probability_of frequency total_records) total_records)
  <$> map_to_list error_frequency.

(** What one row adds to a frequency table: the keys it increments, or
    [None] when the row is skipped. *)
Definition row_keys {V K : Type} (per_record : dict V -> dict V -> result (list K))
    (r : row (V := V)) : option (list K) :=
  match r with
  | (Some standard_answers, Some model_answers) =>
      to_option (per_record standard_answers model_answers)
  | _ => None
  end.

(** Rows whose reference answers, respectively both answer sets, are
    canonical; a text that did not load is not constrained. *)
Definition canonical_reference {V : Type} (r : row (V := V)) : bool :=
  from_option canonical_dict true r.1.
Definition canonical_row {V : Type} (r : row (V := V)) : bool :=
  from_option canonical_dict true r.1 && from_option canonical_dict true r.2.

Definition canonical_response {V : Type} (r : row (V := V)) : bool :=
  from_option canonical_dict true r.2.

(** Rows whose reference keys, read as integers, do not exceed [bound]. *)
Definition reference_keys_up_to {V : Type} (bound : Z) (r : row (V := V)) : bool :=
  from_option
    (fun standard_answers : dict V =>
       forallb (fun k => from_option (fun z => bool_decide (z <= bound)%Z) true
                                     (Py.parse_int k))
               (keys standard_answers))
    true r.1.

(** Rows with two loaded answer sets where [int] accepts every reference
    key. *)
Definition reference_keys_parse {V : Type} (r : row (V := V)) : bool :=
  match r with
  | (Some standard_answers, Some _) =>
      forallb (fun k => bool_decide (is_Some (Py.parse_int k))) (keys standard_answers)
  | _ => false
  end.

(** Two results of such a loop added up: frequencies key by key, and the
    numbers of rows counted. *)
Definition add_counts `{Countable K} (a b : gmap K nat * nat) : gmap K nat * nat :=
  (union_with (fun x y => Some (x + y)) a.1 b.1, a.2 + b.2).

(** [insert_position_error_stats] and [insert_missing_stats]: the rows
    written for a frequency table keyed by position. The two functions
    have the same body. *)
Record position_row := PositionRow {
  key_position : Z;
  position_frequency : nat;
  position_probability : Q;
  position_total_records : nat
}.

Definition insert_position_error_stats
    (error_frequency : gmap Z nat) (total_records : nat) : list position_row :=
  (fun '(key_position, frequency) =>
     PositionRow key_position frequency
                 (probability_of frequency total_records) total_records)
  <$> map_to_list error_frequency.

Definition insert_missing_stats
    (missing_frequency : gmap Z nat) (total_records : nat) : list position_row :=
  (fun '(key_position, frequency) =>
     PositionRow key_position frequency
                 (probability_of frequency total_records) total_records)
  <$> map_to_list missing_frequency.

(** What [analyze_model_errors] does with one table: the three analyses
    read the same rows, [total_records] is printed, and each frequency
    table that is not empty is written with the total of its own
    analysis. *)
Record error_report := ErrorReport {
  report_total_records : nat;
  misorder_rows : list position_row;
  hallucination_rows : list interval_row;
  missing_rows : list position_row
}.

Definition analyze_model_errors_table {V : Type} `{EqDecision V}
    (records : list (row (V := V))) : error_report :=
  let '(misorder_freq, total_misorder) := analyze_misorder_errors records in
  let '(halluc_freq, total_halluc) := analyze_hallucination_errors records in
  let '(missing_freq, total_missing) := analyze_missing_errors records in
  let total_records := Nat.max (Nat.max total_misorder total_halluc) total_missing in
  ErrorReport total_records
    (if decide (misorder_freq = ∅) then []
     else insert_position_error_stats misorder_freq total_misorder)
    (if decide (halluc_freq = ∅) then []
     else insert_interval_error_stats halluc_freq total_halluc)
    (if decide (missing_freq = ∅) then []
     else insert_missing_stats missing_freq total_missing).

(** ** [analyze_position_accuracy.analyze_table] *)

(** A key of [position_frequency]: the reference keys are integers when
    the numeric branch ran and strings in the fallback. *)
Inductive position := IntKey (k : Z) | StrKey (k : string).

#[global] Instance position_eq_dec : EqDecision position.
Proof. solve_decision. Defined.

#[global] Instance position_countable : Countable position.
Proof.
  refine (inj_countable' (fun p => match p with IntKey k => inl k | StrKey k => inr k end)
                         (fun x => match x with inl k => IntKey k | inr k => StrKey k end)
                         _).
  by intros [].
Defined.

Module PositionAccuracy.
Section PositionAccuracy.
Context {V : Type} `{EqDecision V}.

(** The inner [try] of the loop body: both answer sets in numeric key
    order with the keys printed back for the lookups, and on a
    [ValueError] or [TypeError] of either set both in lexicographic key
    order. Returns [(standard_keys, standard_sequence, model_sequence)]. *)
Definition keyed_sequences (standard_answers model_answers : dict V)
    : result (list position * list V * list V) :=
  try_except_value_type
    (sk ← traverse Py.int (keys standard_answers);
     let standard_keys := Py.sorted_int sk in
     standard_sequence ←
       traverse (fun k => getitem standard_answers (Py.str k)) standard_keys;
     mk ← traverse Py.int (keys model_answers);
     let model_keys := Py.sorted_int mk in
     model_sequence ←
       traverse (fun k => getitem model_answers (Py.str k)) model_keys;
     mret (IntKey <$> standard_keys, standard_sequence, model_sequence))
    (let standard_keys := Py.sorted_str (keys standard_answers) in
     standard_sequence ←
       traverse (fun k => getitem standard_answers k) standard_keys;
     let model_keys := Py.sorted_str (keys model_answers) in
     model_sequence ←
       traverse (fun k => getitem model_answers k) model_keys;
     mret (StrKey <$> standard_keys, standard_sequence, model_sequence)).

(** [position = standard_keys[idx]], converted with [int] when it is a
    string of digits. An index out of range would raise [IndexError],
    which like [KeyError] is a [LookupError] and is written [KeyError]
    here; the indices of the LCS are always in range. *)
Definition counted_position (standard_keys : list position) (idx : nat)
    : result position :=
  match standard_keys !! idx with
  | None => Raise KeyError
  | Some (IntKey k) => Ok (IntKey k)
  | Some (StrKey k) =>
      if Py.isdigit k then z ← Py.int k; mret (IntKey z) else Ok (StrKey k)
  end.

(** The positions whose frequency one record increments. The loop that
    increments them raises nothing once the sequences are built
    ([record_positions_total] below), so no row is left half counted. *)
Definition record_positions (standard_answers model_answers : dict V)
    : result (list position) :=
  '(standard_keys, standard_sequence, model_sequence) ←
    keyed_sequences standard_answers model_answers;
  let lcs_indices :=
    longest_common_subsequence_with_indices standard_sequence model_sequence in
  traverse (counted_position standard_keys) lcs_indices.

Definition analyze_table (records : list (row (V := V))) : gmap position nat * nat :=
  over_records record_positions records.

End PositionAccuracy.

(** [insert_position_stats]: one row for each position; [db_type] only
    chooses the prefix of the column names. *)
Record stats_row := StatsRow {
  key_position : position;
  frequency : nat;
  probability : Q;
  total_records : nat
}.

Definition insert_position_stats
    (position_frequency : gmap position nat) (total_records : nat) : list stats_row :=
  (fun '(key_position, frequency) =>
     StatsRow key_position frequency
              (probability_of frequency total_records) total_records)
  <$> map_to_list position_frequency.

End PositionAccuracy.

(** ** [analyze_summary.analyze_table] *)

(** [x <= y] on the rationals that stand for floats. *)
#[global] Instance Qle_dec (x y : Q) : Decision (x <= y)%Q.
Proof. unfold Qle. apply _. Defined.

Module Summary.

(** What [json.loads] returns for a column holding valid JSON: an object;
    an array or a string, of which only the length is looked at; a number,
    a Boolean or [null], of which only the truth value is looked at. *)
Inductive loaded (V : Type) :=
| Object (d : dict V)
| Sized (n : nat)
| Scalar (truth : bool).
Arguments Object {V} d.
Arguments Sized {V} n.
Arguments Scalar {V} truth.

(** [bool(x)]. *)
Definition truthy {V : Type} (x : loaded V) : bool :=
  match x with
  | Object [] => false
  | Object _ => true
  | Sized n => 0 <? n
  | Scalar truth => truth
  end.

(** [len(x)]; [None] is the [TypeError] of a value without a length. *)
Definition len {V : Type} (x : loaded V) : option nat :=
  match x with
  | Object d => Some (length d)
  | Sized n => Some n
  | Scalar _ => None
  end.

(** One row: the two JSON columns, [None] for a text that [json.loads]
    rejects, and [elapsed_time], [None] for SQL [NULL]. *)
Record record (V : Type) := Record_ {
  standard_json : option (loaded V);
  model_response_json : option (loaded V);
  elapsed_time : option Q
}.
Arguments Record_ {V} _ _ _.
Arguments standard_json {V} _.
Arguments model_response_json {V} _.
Arguments elapsed_time {V} _.

Record summary := Summary_ {
  record_count : nat;
  avg_accuracy : Q;
  median_accuracy : Q;
  min_accuracy : Q;
  max_accuracy : Q;
  avg_elapsed_time : Q
}.

(** [sum(data)]. *)
Definition sum (data : list Q) : Q := foldr Qplus 0%Q data.

(** [statistics.mean(data)]; [None] is the [StatisticsError] for no data. *)
Definition mean (data : list Q) : option Q :=
  match data with
  | [] => None
  | _ => Some (sum data / inject_Z (Z.of_nat (length data)))%Q
  end.

(** [statistics.median(data)]: the middle element of the sorted data, or
    the mean of the two middle elements. *)
Definition median (data : list Q) : option Q :=
  let data := merge_sort Qle data in
  let n := length data in
  if n =? 0 then None
  else if n mod 2 =? 1 then data !! (n / 2)
  else
    let i := n / 2 in
    a ← data !! (i - 1); b ← data !! i; Some ((a + b) / 2)%Q.

(** [min(data)] and [max(data)]; [None] is the [ValueError] for no data. *)
Definition list_min (data : list Q) : option Q :=
  match data with
  | [] => None
  | x :: data' => Some (foldl (fun acc y => if decide (acc <= y)%Q then acc else y) x data')
  end.

Definition list_max (data : list Q) : option Q :=
  match data with
  | [] => None
  | x :: data' => Some (foldl (fun acc y => if decide (y <= acc)%Q then acc else y) x data')
  end.

Section Summary.
Context {V : Type} `{EqDecision V}.

(** [grade_answers(mdl, std)['accuracy']] on two loaded values; [None] is
    an exception. Two objects are graded by [grade_answers] above. With
    another value the function returns at one of its two [if not ...]
    tests when that value is falsy and the length it asks for exists, and
    raises otherwise ([len] of a number, [.keys()] of an array). *)
Definition graded_accuracy (mdl std : loaded V) : option Q :=
  match std, mdl with
  | Object standard_answers, Object student_answers =>
      accuracy <$> to_option (grade_answers student_answers standard_answers true true)
  | _, _ =>
      if negb (truthy std) then
        if truthy mdl then _ ← len mdl; Some 0%Q else Some 0%Q
      else if negb (truthy mdl) then _ ← len std; Some 0%Q
      else None
  end.

(** The accuracy appended for a row; [None] when the row is skipped. *)
Definition row_accuracy (r : record V) : option Q :=
  std ← standard_json r; mdl ← model_response_json r; graded_accuracy mdl std.

(** The elapsed time appended for a row: the row must have been graded
    and the time must be truthy (neither [NULL] nor 0). *)
Definition row_elapsed_time (r : record V) : option Q :=
  _ ← row_accuracy r;
  t ← elapsed_time r;
  if Qeq_bool t 0 then None else Some t.

Definition analyze_table (records : list (record V)) : option summary :=
  match records with
  | [] => Some (Summary_ 0 0 0 0 0 0)
  | _ =>
      let accuracies := omap row_accuracy records in
      let elapsed_times := omap row_elapsed_time records in
      match accuracies with
      | [] => Some (Summary_ (length records) 0 0 0 0 0)
      | _ =>
          avg ← mean accuracies;
          med ← median accuracies;
          lo ← list_min accuracies;
          hi ← list_max accuracies;
          avg_time ← match elapsed_times with
                     | [] => Some 0%Q
                     | _ => mean elapsed_times
                     end;
          Some (Summary_ (length accuracies) avg med lo hi avg_time)
      end
  end.

End Summary.
End Summary.

(** ** File and table names

    [analyze_model_errors] (and, with the same lines,
    [analyze_model_position_accuracy] and [analyze_model_database]) derive
    the name of the result database from the path of the model database;
    [app.py] derives both paths from the configured model id. Strings are
    lists of 8-bit characters here, paths are POSIX paths. *)

Module Str.

Definition chars (s : string) : list ascii := list_ascii_of_string s.

(** [s.startswith(prefix)] and [s.endswith(suffix)]. *)
Definition startswith (s pre : list ascii) : bool := bool_decide (pre `prefix_of` s).
Definition endswith (s suf : list ascii) : bool := bool_decide (suf `suffix_of` s).

(** [s[start:-stop]]. *)
Definition slice (s : list ascii) (start stop : nat) : list ascii :=
  take (length s - stop - start) (drop start s).

(** [s.replace(old, new)] for a non-empty [old]: the occurrences are found
    from the left and do not overlap; [skip] counts the characters of the
    occurrence just replaced that are still to be passed over. *)
Fixpoint replace_from (old new : list ascii) (skip : nat) (s : list ascii)
    : list ascii :=
  match s with
  | [] => []
  | c :: s' =>
      match skip with
      | S skip' => replace_from old new skip' s'
      | 0 =>
          if bool_decide (old `prefix_of` s)
          then new ++ replace_from old new (length old - 1) s'
          else c :: replace_from old new 0 s'
      end
  end.

Definition replace (s old new : list ascii) : list ascii := replace_from old new 0 s.

(** [c.isalnum()] on ASCII: a letter or a digit. *)
Definition isalnum (c : ascii) : bool :=
  let n := N_of_ascii c in
  ((48 <=? n) && (n <=? 57) || (65 <=? n) && (n <=? 90) || (97 <=? n) && (n <=? 122))%N.

(** [os.path.basename(p)]: what follows the last slash. *)
Fixpoint basename (p : list ascii) : list ascii :=
  match p with
  | [] => []
  | c :: p' => if bool_decide ("/"%char ∈ p) then basename p' else p
  end.

(** [os.path.join(a, b)]. *)
Definition join (a b : list ascii) : list ascii :=
  if startswith b (chars "/") then b
  else if bool_decide (a = []) || endswith a (chars "/") then a ++ b
  else a ++ chars "/" ++ b.

End Str.

Module Naming.
Import Str.

(** The model id read off the file name of the model database. *)
Definition model_id (model_filename : list ascii) : list ascii :=
  if startswith model_filename (chars "test_results_")
     && endswith model_filename (chars ".db")
  then slice model_filename 13 3
  else replace model_filename (chars ".db") [].

(** ["".join(c if c.isalnum() else '_' for c in model_id)]. *)
Definition safe_model_id (model_id : list ascii) : list ascii :=
  (fun c => if isalnum c then c else "_"%char) <$> model_id.

(** [out_db_path] of [analyze_model_errors]. *)
Definition out_db_path (results_dir model_db_path : list ascii) : list ascii :=
  let model_filename := basename model_db_path in
  let safe_model_id := safe_model_id (model_id model_filename) in
  join results_dir (chars "error_stats_" ++ safe_model_id ++ chars ".db").

(** [app.py], [analyze]: the id used in file names, the database handed to
    the analysis scripts and the result database handed to
    [generate_all_heatmaps.py]. *)
Definition safe_id (model_id : list ascii) : list ascii :=
  replace (replace model_id (chars "-") (chars "_")) (chars ".") (chars "_").

Definition db_path (db_dir model_id : list ascii) : list ascii :=
  join db_dir (safe_id model_id ++ chars ".db").

Definition err_db (results_dir model_id : list ascii) : list ascii :=
  join results_dir (chars "error_stats_" ++ safe_id model_id ++ chars ".db").

(** One iteration of the loop of [get_all_byte_tables]: the table with its
    byte count, or [None] for a table that is skipped. *)
Definition byte_table (table_name : list ascii) : result (option (list ascii * Z)) :=
  let suffix := replace table_name (chars "bytes_") [] in
  if negb (Py.isdigit (string_of_list_ascii suffix)) then Ok None
  else
    byte_count ← Py.int (string_of_list_ascii suffix);
    mret (Some (table_name, byte_count)).

End Naming.

(** ** [get_all_tables]: the tables of a tokens database *)

Module Tables.
Import Str.

(** [(0, int(file_name))], or [(1, file_name)] when [int] raises
    [ValueError]. *)
Inductive key := Numeric (n : Z) | Textual (file_name : string).

#[global] Instance key_eq_dec : EqDecision key.
Proof. solve_decision. Defined.

Definition sort_key (item : list ascii * list ascii) : key :=
  let file_name := string_of_list_ascii item.2 in
  match Py.int file_name with
  | Ok n => Numeric n
  | Raise _ => Textual file_name
  end.

(** The order of these tuples: the first components decide; equal first
    components leave it to the integers or to the strings. *)
Definition key_le (k1 k2 : key) : Prop :=
  match k1, k2 with
  | Numeric n1, Numeric n2 => (n1 <= n2)%Z
  | Numeric _, Textual _ => True
  | Textual _, Numeric _ => False
  | Textual s1, Textual s2 => String.le s1 s2
  end.

#[global] Instance key_le_dec : RelDecision key_le.
Proof. intros [n1|s1] [n2|s2]; simpl; apply _. Defined.

(** [l.sort(key=f)]: a stable sort. An item goes before the first item
    whose key is not smaller than its own. *)
Fixpoint insert {A : Type} (f : A -> key) (x : A) (l : list A) : list A :=
  match l with
  | [] => [x]
  | y :: l' => if decide (key_le (f x) (f y)) then x :: l else y :: insert f x l'
  end.

Definition sort {A : Type} (f : A -> key) (l : list A) : list A :=
  foldr (insert f) [] l.

(** The [else] branch of [get_all_tables], from the table names that the
    query returns. *)
Definition get_all_tables (table_names : list (list ascii))
    : list (list ascii * list ascii) :=
  let tables :=
    (fun table_name => (table_name, replace table_name (chars "tokens_") []))
    <$> table_names in
  sort sort_key tables.

End Tables.

(** * Properties *)

Example ed_kitten :
  calculate_edit_distance (String.list_ascii_of_string "kitten")
                          (String.list_ascii_of_string "sitting") true = 3.
Proof. vm_compute. reflexivity. Qed.

Example parse_examples :
  Py.parse_int "01" = Some 1%Z /\ Py.parse_int " -1_0 " = Some (-10)%Z /\
  Py.parse_int "1__0" = None /\ Py.parse_int "a" = None /\ Py.parse_int EmptyString = None /\
  Py.str (-10) = "-10" /\ Py.str 0 = "0" /\ canonical_key "10" = true /\
  canonical_key "01" = false /\ canonical_key "-1" = false.
Proof. vm_compute. repeat split; reflexivity. Qed.

Example lcs_examples :
  longest_common_subsequence_with_indices [1;2]%Z [2;1]%Z = [1] /\
  longest_common_subsequence [1;2]%Z [2;1]%Z = [2%Z] /\
  longest_common_subsequence [1;2;3;4;5]%Z [2;7;4;1;5]%Z = [2;4;5]%Z.
Proof. vm_compute. repeat split; reflexivity. Qed.

(** ** Loops and tables *)

(** The invariant rule for [for k in range(start, start + len)]. *)
Lemma foldl_seq_invariant {St : Type} (P : nat -> St -> Prop) (f : St -> nat -> St)
    (len start : nat) (s : St) :
  P start s ->
  (forall k s', start <= k < start + len -> P k s' -> P (k + 1) (f s' k)) ->
  P (start + len) (foldl f s (seq start len)).
Proof.
  revert start s. induction len as [|len IH]; intros start s H0 Hstep; simpl.
  - by rewrite Nat.add_0_r.
  - replace (start + S len) with (S start + len) by lia.
    apply IH.
    + replace (S start) with (start + 1) by lia. apply Hstep; [lia|done].
    + intros k s' Hk. apply Hstep. lia.
Qed.

Lemma wf_new_table m n : wf_table (new_table m n) m n.
Proof.
  unfold new_table. split.
  - rewrite length_replicate. lia.
  - apply Forall_replicate. rewrite length_replicate. lia.
Qed.

Lemma wf_set2 dp m n i j v : wf_table dp m n -> wf_table (set2 dp i j v) m n.
Proof.
  intros [Hlen Hrows]. unfold set2. split.
  - by rewrite length_alter.
  - apply Forall_alter; [done|]. intros row _ Hrow. by rewrite length_insert.
Qed.

Lemma get2_set2 dp m n i j v i' j' :
  wf_table dp m n -> i <= m -> j <= n ->
  get2 (set2 dp i j v) i' j' = if decide (i' = i /\ j' = j) then v else get2 dp i' j'.
Proof.
  intros [Hlen Hrows] Hi Hj. unfold get2, set2.
  destruct (decide (i' = i)) as [->|Hne].
  - rewrite list_lookup_alter_eq.
    destruct (lookup_lt_is_Some_2 dp i ltac:(lia)) as [row Hrow].
    rewrite Hrow. simpl.
    assert (length row = S n) as Hr.
    { rewrite Forall_lookup in Hrows. by eapply Hrows. }
    destruct (decide (j' = j)) as [->|Hnj].
    + rewrite list_lookup_insert_eq by lia.
      by rewrite decide_True.
    + rewrite list_lookup_insert_ne by done.
      rewrite decide_False; [done|]. intros [_ ?]. done.
  - rewrite list_lookup_alter_ne by done.
    rewrite decide_False; [done|]. intros [? _]. done.
Qed.

Lemma get2_new_table m n i j : get2 (new_table m n) i j = 0.
Proof.
  unfold get2, new_table.
  destruct (replicate (m + 1) (replicate (n + 1) 0) !! i) as [row|] eqn:Hrow;
    [|done]. simpl.
  apply lookup_replicate in Hrow as [-> _].
  destruct (replicate (n + 1) 0 !! j) as [x|] eqn:Hx; [|done].
  by apply lookup_replicate in Hx as [-> _].
Qed.

(** ** The edit-distance table computes the Levenshtein recurrence *)

Section EditDistanceFacts.
Context {A : Type} `{EqDecision A}.

Lemma levenshtein_prefix_0_r (seq1 seq2 : list A) i : levenshtein_prefix seq1 seq2 i 0 = i.
Proof. by destruct i. Qed.

Lemma levenshtein_prefix_S (seq1 seq2 : list A) i j :
  levenshtein_prefix seq1 seq2 (S i) (S j)
  = min3 (levenshtein_prefix seq1 seq2 i (S j) + 1)
         (levenshtein_prefix seq1 seq2 (S i) j + 1)
         (levenshtein_prefix seq1 seq2 i j + subst_cost seq1 seq2 i j).
Proof. reflexivity. Qed.

Lemma ed_table_correct (seq1 seq2 : list A) :
  let m := length seq1 in
  let n := length seq2 in
  wf_table (ed_table seq1 seq2) m n /\
  forall i j, i <= m -> j <= n ->
    get2 (ed_table seq1 seq2) i j = levenshtein_prefix seq1 seq2 i j.
Proof.
  intros m n. unfold ed_table. fold m n.
  set (lev := levenshtein_prefix seq1 seq2).
  (* first column *)
  set (dp1 := foldl (fun dp i => set2 dp i 0 i) (new_table m n) (seq 0 (m + 1))).
  assert (wf_table dp1 m n /\ forall i, i < 0 + (m + 1) -> get2 dp1 i 0 = i)
    as [Hwf1 Hcol].
  { apply (foldl_seq_invariant
             (fun k dp => wf_table dp m n /\ forall i, i < k -> get2 dp i 0 = i)).
    - split; [apply wf_new_table | lia].
    - intros k dp Hk [Hwf Hc]. split; [by apply wf_set2|].
      intros i Hi. rewrite (get2_set2 _ m n) by (done || lia).
      case_decide; [lia|]. apply Hc. lia. }
  (* first row *)
  set (dp2 := foldl (fun dp j => set2 dp 0 j j) dp1 (seq 0 (n + 1))).
  assert (wf_table dp2 m n /\
          (forall i, i <= m -> get2 dp2 i 0 = i) /\
          forall j, j < 0 + (n + 1) -> get2 dp2 0 j = j)
    as (Hwf2 & Hcol2 & Hrow2).
  { apply (foldl_seq_invariant
             (fun k dp => wf_table dp m n /\
                (forall i, i <= m -> get2 dp i 0 = i) /\
                forall j, j < k -> get2 dp 0 j = j)).
    - split; [done|]. split; [|lia]. intros i Hi. apply Hcol. lia.
    - intros k dp Hk (Hwf & Hc & Hr). split; [by apply wf_set2|]. split.
      + intros i Hi. rewrite (get2_set2 _ m n) by (done || lia).
        case_decide; [lia|]. by apply Hc.
      + intros j Hj. rewrite (get2_set2 _ m n) by (done || lia).
        case_decide; [lia|]. apply Hr. lia. }
  (* the nested loop *)
  pose (inv := fun (k : nat) (dp : table) =>
    wf_table dp m n /\
    forall i j, i <= m -> j <= n -> i < k \/ j = 0 -> get2 dp i j = lev i j).
  assert (inv (1 + m)
    (foldl (fun dp i => foldl (fun dp j => ed_cell seq1 seq2 dp i j) dp (seq 1 n))
           dp2 (seq 1 m))) as [Hwf Hall].
  { apply (foldl_seq_invariant inv).
    - split; [done|]. intros i j Hi Hj [Hlt| ->].
      + assert (i = 0) as -> by lia. apply (Hrow2 j). lia.
      + unfold lev. rewrite levenshtein_prefix_0_r. by apply Hcol2.
    - intros i dp Hi [Hwfd Hd].
      pose (inv_row := fun (k : nat) (dp : table) =>
        wf_table dp m n /\
        forall i' j, i' <= m -> j <= n ->
          i' < i \/ j = 0 \/ (i' = i /\ j < k) -> get2 dp i' j = lev i' j).
      assert (inv_row (1 + n)
        (foldl (fun dp j => ed_cell seq1 seq2 dp i j) dp (seq 1 n))) as [Hwfr Hr].
      { apply (foldl_seq_invariant inv_row).
        - split; [done|]. intros i' j Hi' Hj Hcase. apply Hd; [done..|]. lia.
        - intros j dp' Hj [Hwf' Hd']. split; [by apply wf_set2|].
          intros i' j' Hi' Hj' Hcase. unfold ed_cell.
          rewrite (get2_set2 _ m n) by (done || lia).
          case_decide as Heq.
          + destruct Heq as [-> ->].
            rewrite !Hd' by lia.
            destruct i as [|i0]; [lia|]. destruct j as [|j0]; [lia|].
            unfold lev. rewrite levenshtein_prefix_S.
            by replace (S i0 - 1) with i0 by lia; replace (S j0 - 1) with j0 by lia.
          + apply Hd'; [done..|]. lia. }
      split; [done|]. intros i' j Hi' Hj Hcase. apply Hr; [done..|]. lia. }
  split; [done|]. intros i j Hi Hj. apply Hall; [done..|]. lia.
Qed.

Lemma calculate_edit_distance_levenshtein (seq1 seq2 : list A) b :
  calculate_edit_distance seq1 seq2 b = levenshtein seq1 seq2.
Proof.
  unfold levenshtein.
  destruct (ed_table_correct seq1 seq2) as [_ Hall].
  symmetry. rewrite <- Hall by done. reflexivity.
Qed.

End EditDistanceFacts.

(** ** The recurrence is a metric, bounded by the longer length *)

Section LevenshteinMetric.
Context {A : Type} `{EqDecision A}.

Lemma subst_cost_refl (s : list A) i : subst_cost s s i i = 0.
Proof. unfold subst_cost. by rewrite bool_decide_eq_true_2. Qed.

Lemma subst_cost_sym (a b : list A) i j : subst_cost a b i j = subst_cost b a j i.
Proof. unfold subst_cost. repeat case_bool_decide; congruence. Qed.

Lemma subst_cost_le_1 (a b : list A) i j : subst_cost a b i j <= 1.
Proof. unfold subst_cost. case_bool_decide; lia. Qed.

Lemma subst_cost_triangle (a b c : list A) i j k :
  subst_cost a c i k <= subst_cost a b i j + subst_cost b c j k.
Proof. unfold subst_cost. repeat case_bool_decide; try lia. congruence. Qed.

Lemma levenshtein_prefix_self (s : list A) i : levenshtein_prefix s s i i = 0.
Proof.
  induction i as [|i IH]; [done|].
  rewrite levenshtein_prefix_S, IH, subst_cost_refl. unfold min3. lia.
Qed.

Lemma levenshtein_prefix_sym (a b : list A) i j :
  levenshtein_prefix a b i j = levenshtein_prefix b a j i.
Proof.
  revert j. induction i as [|i IHi]; intros j.
  - by rewrite levenshtein_prefix_0_r.
  - induction j as [|j IHj]; [done|].
    rewrite !levenshtein_prefix_S, IHj, !IHi, (subst_cost_sym a b).
    unfold min3. lia.
Qed.

Lemma levenshtein_prefix_step_l (a b : list A) i j :
  levenshtein_prefix a b (S i) j <= levenshtein_prefix a b i j + 1.
Proof.
  destruct j.
  - rewrite !levenshtein_prefix_0_r. lia.
  - rewrite levenshtein_prefix_S. unfold min3. lia.
Qed.

Lemma levenshtein_prefix_step_r (a b : list A) i j :
  levenshtein_prefix a b i (S j) <= levenshtein_prefix a b i j + 1.
Proof.
  destruct i.
  - simpl. lia.
  - rewrite levenshtein_prefix_S. unfold min3. lia.
Qed.

Lemma levenshtein_prefix_step_diag (a b : list A) i j :
  levenshtein_prefix a b (S i) (S j)
  <= levenshtein_prefix a b i j + subst_cost a b i j.
Proof. rewrite levenshtein_prefix_S. unfold min3. lia. Qed.

Lemma levenshtein_prefix_le_sum (a b : list A) i j :
  levenshtein_prefix a b i j <= i + j.
Proof.
  induction i as [|i IH]; [simpl; lia|].
  pose proof (levenshtein_prefix_step_l a b i j). lia.
Qed.

Lemma levenshtein_prefix_le_max (a b : list A) i j :
  levenshtein_prefix a b i j <= Nat.max i j.
Proof.
  revert j. induction i as [|i IH]; intros j; [simpl; lia|].
  destruct j as [|j]; [rewrite levenshtein_prefix_0_r; lia|].
  pose proof (levenshtein_prefix_step_diag a b i j).
  pose proof (subst_cost_le_1 a b i j). specialize (IH j). lia.
Qed.

Lemma levenshtein_prefix_ge_diff (a b : list A) i j :
  i <= levenshtein_prefix a b i j + j.
Proof.
  revert j. induction i as [|i IHi]; intros j; [lia|].
  induction j as [|j IHj]; [rewrite levenshtein_prefix_0_r; lia|].
  rewrite levenshtein_prefix_S. unfold min3.
  pose proof (IHi (S j)). pose proof (IHi j). lia.
Qed.

Lemma levenshtein_prefix_triangle (a b c : list A) i j k :
  levenshtein_prefix a c i k
  <= levenshtein_prefix a b i j + levenshtein_prefix b c j k.
Proof.
  remember (i + j + k) as n eqn:Hn.
  assert (i + j + k <= n) as Hle by lia. clear Hn.
  revert i j k Hle. induction n as [|n IH]; intros i j k Hle.
  { assert (i = 0) as -> by lia. assert (j = 0) as -> by lia.
    assert (k = 0) as -> by lia. simpl. lia. }
  destruct j as [|j].
  { rewrite levenshtein_prefix_0_r. simpl.
    apply levenshtein_prefix_le_sum. }
  destruct i as [|i].
  { simpl (levenshtein_prefix a c 0 k). simpl (levenshtein_prefix a b 0 (S j)).
    pose proof (levenshtein_prefix_ge_diff c b k (S j)) as Hd.
    rewrite (levenshtein_prefix_sym c b) in Hd. lia. }
  destruct k as [|k].
  { rewrite !levenshtein_prefix_0_r.
    pose proof (levenshtein_prefix_ge_diff a b (S i) (S j)). lia. }
  pose proof (levenshtein_prefix_step_l a c i (S k)).
  pose proof (levenshtein_prefix_step_r a c (S i) k).
  pose proof (levenshtein_prefix_step_diag a c i k).
  pose proof (subst_cost_triangle a b c i j k).
  pose proof (IH i (S j) (S k) ltac:(lia)).
  pose proof (IH (S i) (S j) k ltac:(lia)).
  pose proof (IH (S i) j (S k) ltac:(lia)).
  pose proof (IH (S i) j k ltac:(lia)).
  pose proof (IH i j (S k) ltac:(lia)).
  pose proof (IH i j k ltac:(lia)).
  pose proof (levenshtein_prefix_S a b i j) as Hab.
  pose proof (levenshtein_prefix_S b c j k) as Hbc.
  unfold min3 in Hab, Hbc. lia.
Qed.

End LevenshteinMetric.

(** ** The backtrace loop *)

Section BacktraceFacts.
Context {A : Type} `{EqDecision A}.

(** Both loop bodies strictly decrease [i + j] while the loop condition
    holds. *)
Lemma bt_body_indices_decreases (seq1 seq2 : list A) dp st :
  bt_cond st = true ->
  bt_i (bt_body_indices seq1 seq2 dp st) + bt_j (bt_body_indices seq1 seq2 dp st)
  < bt_i st + bt_j st.
Proof.
  unfold bt_cond, bt_body_indices. intros Hc.
  apply andb_true_iff in Hc as [Hi%Nat.ltb_lt Hj%Nat.ltb_lt].
  repeat case_match; simpl; lia.
Qed.

Lemma bt_body_values_decreases (seq1 seq2 : list A) dp st :
  bt_cond st = true ->
  bt_i (bt_body_values seq1 seq2 dp st) + bt_j (bt_body_values seq1 seq2 dp st)
  < bt_i st + bt_j st.
Proof.
  unfold bt_cond, bt_body_values. intros Hc.
  apply andb_true_iff in Hc as [Hi%Nat.ltb_lt Hj%Nat.ltb_lt].
  repeat case_match; simpl; lia.
Qed.

(** With [i + j] iterations allowed the loop has left through its
    condition, and more fuel changes nothing. *)
Lemma bt_loop_exits {R} (body : bt_state R -> bt_state R) fuel st :
  (forall st', bt_cond st' = true ->
               bt_i (body st') + bt_j (body st') < bt_i st' + bt_j st') ->
  bt_i st + bt_j st <= fuel ->
  bt_cond (bt_loop body fuel st) = false.
Proof.
  intros Hdec. revert st. induction fuel as [|fuel IH]; intros st Hfuel; simpl.
  - unfold bt_cond. destruct st as [[|i] [|j] out]; simpl in *; try done; lia.
  - destruct (bt_cond st) eqn:Hc; [|done].
    apply IH. specialize (Hdec st Hc). lia.
Qed.

Lemma bt_loop_more_fuel {R} (body : bt_state R -> bt_state R) fuel extra st :
  bt_cond (bt_loop body fuel st) = false ->
  bt_loop body (fuel + extra) st = bt_loop body fuel st.
Proof.
  revert st. induction fuel as [|fuel IH]; intros st; simpl.
  - intros Hc. destruct extra; simpl; [done|]. by rewrite Hc.
  - destruct (bt_cond st); [apply IH|done].
Qed.

(** A property of the output list kept by every iteration holds at exit. *)
Lemma bt_loop_invariant {R} (P : bt_state R -> Prop)
    (body : bt_state R -> bt_state R) fuel st :
  (forall st', bt_cond st' = true -> P st' -> P (body st')) ->
  P st -> P (bt_loop body fuel st).
Proof.
  intros Hstep. revert st. induction fuel as [|fuel IH]; intros st HP; simpl.
  - done.
  - destruct (bt_cond st) eqn:Hc; [|done]. apply IH. by apply Hstep.
Qed.

(** Both functions leave their loop through the loop condition: the
    [len(seq1) + len(seq2)] iterations they are given are enough. *)
Lemma longest_common_subsequence_with_indices_exits (seq1 seq2 : list A) :
  bt_cond (bt_loop (bt_body_indices seq1 seq2 (lcs_table seq1 seq2))
                   (length seq1 + length seq2)
                   (BtState (length seq1) (length seq2) [])) = false.
Proof.
  apply bt_loop_exits; [|done]. intros st. apply bt_body_indices_decreases.
Qed.

Lemma longest_common_subsequence_exits (seq1 seq2 : list A) :
  bt_cond (bt_loop (bt_body_values seq1 seq2 (lcs_table seq1 seq2))
                   (length seq1 + length seq2)
                   (BtState (length seq1) (length seq2) [])) = false.
Proof.
  apply bt_loop_exits; [|done]. intros st. apply bt_body_values_decreases.
Qed.

(** Whatever [longest_common_subsequence] returns occurs in both inputs. *)
Lemma longest_common_subsequence_elem_of (seq1 seq2 : list A) x :
  x ∈ longest_common_subsequence seq1 seq2 -> x ∈ seq1 /\ x ∈ seq2.
Proof.
  unfold longest_common_subsequence. rewrite elem_of_reverse.
  set (dp := lcs_table seq1 seq2).
  revert x. apply Forall_forall.
  apply (bt_loop_invariant
           (fun st => Forall (fun x => x ∈ seq1 /\ x ∈ seq2) (bt_out st)));
    [|by constructor].
  intros st _ Hout. unfold bt_body_values.
  case_bool_decide as Heq; [|by repeat case_match].
  simpl. apply Forall_app. split; [done|].
  destruct (seq1 !! (bt_i st - 1)) as [y|] eqn:Hy; simpl; [|constructor].
  repeat constructor.
  - by eapply list_elem_of_lookup_2.
  - symmetry in Heq. by eapply list_elem_of_lookup_2.
Qed.

End BacktraceFacts.

(** ** The LCS table and what the backtrace returns *)

Section LCSFacts.
Context {A : Type} `{EqDecision A}.

Lemma lcs_length_nil_r (a : list A) : lcs_length a [] = 0.
Proof. by destruct a. Qed.

Lemma lcs_length_cons (x y : A) (a b : list A) :
  lcs_length (x :: a) (y :: b)
  = if decide (x = y) then lcs_length a b + 1
    else Nat.max (lcs_length a (y :: b)) (lcs_length (x :: a) b).
Proof. reflexivity. Qed.

(** No common subsequence is longer than [lcs_length]. *)
Lemma lcs_length_optimal (a b c : list A) :
  c `sublist_of` a -> c `sublist_of` b -> length c <= lcs_length a b.
Proof.
  revert b c. induction a as [|x a IHa]; intros b c.
  { intros ->%sublist_nil_r _. simpl. lia. }
  induction b as [|y b IHb].
  { intros _ ->%sublist_nil_r. simpl. lia. }
  intros Ha Hb. rewrite lcs_length_cons.
  destruct c as [|z c]; [simpl; lia|].
  case_decide as Hxy.
  - subst y.
    assert (c `sublist_of` a) as Hca.
    { apply sublist_cons_r in Ha as [Ha|(c' & [= _ <-] & Ha)]; [|done].
      etrans; [|exact Ha]. by apply sublist_cons. }
    assert (c `sublist_of` b) as Hcb.
    { apply sublist_cons_r in Hb as [Hb|(c' & [= _ <-] & Hb)]; [|done].
      etrans; [|exact Hb]. by apply sublist_cons. }
    specialize (IHa b c Hca Hcb). simpl. lia.
  - apply sublist_cons_r in Ha as [Ha|(c' & [= -> <-] & Ha)].
    + specialize (IHa (y :: b) (z :: c) Ha Hb). lia.
    + apply sublist_cons_r in Hb as [Hb|(c'' & [= ? _] & _)]; [|done].
      assert (x :: c `sublist_of` x :: a) as Ha' by (by apply sublist_skip).
      specialize (IHb Ha' Hb). lia.
Qed.

Lemma sublist_reverse (l k : list A) :
  l `sublist_of` k -> reverse l `sublist_of` reverse k.
Proof.
  induction 1 as [|x l k _ IH|x l k _ IH].
  - done.
  - rewrite !reverse_cons. by apply sublist_app.
  - rewrite reverse_cons. by apply sublist_inserts_r.
Qed.

(** The value the table holds in the cell [(i, j)]: the LCS length of the
    first [i] elements of [seq1] and the first [j] elements of [seq2]. *)
Lemma lcs_length_prefix_S (seq1 seq2 : list A) (i j : nat) :
  i < length seq1 -> j < length seq2 ->
  lcs_length (reverse (take (S i) seq1)) (reverse (take (S j) seq2))
  = if bool_decide (seq1 !! i = seq2 !! j)
    then lcs_length (reverse (take i seq1)) (reverse (take j seq2)) + 1
    else Nat.max (lcs_length (reverse (take i seq1)) (reverse (take (S j) seq2)))
                 (lcs_length (reverse (take (S i) seq1)) (reverse (take j seq2))).
Proof.
  intros [x Hx]%lookup_lt_is_Some_2 [y Hy]%lookup_lt_is_Some_2.
  rewrite (take_S_r _ _ _ Hx), (take_S_r _ _ _ Hy), !reverse_snoc, Hx, Hy.
  rewrite lcs_length_cons.
  case_decide; case_bool_decide; congruence.
Qed.

Lemma lcs_table_correct (seq1 seq2 : list A) :
  let m := length seq1 in
  let n := length seq2 in
  wf_table (lcs_table seq1 seq2) m n /\
  forall i j, i <= m -> j <= n ->
    get2 (lcs_table seq1 seq2) i j
    = lcs_length (reverse (take i seq1)) (reverse (take j seq2)).
Proof.
  intros m n. unfold lcs_table. fold m n.
  set (L := fun i j => lcs_length (reverse (take i seq1)) (reverse (take j seq2))).
  pose (inv := fun (k : nat) (dp : table) =>
    wf_table dp m n /\
    forall i j, i <= m -> j <= n -> i < k \/ j = 0 -> get2 dp i j = L i j).
  assert (inv (1 + m)
    (foldl (fun dp i => foldl (fun dp j => lcs_cell seq1 seq2 dp i j) dp (seq 1 n))
           (new_table m n) (seq 1 m))) as [Hwf Hall].
  { apply (foldl_seq_invariant inv).
    - split; [apply wf_new_table|]. intros i j Hi Hj Hcase.
      rewrite get2_new_table. unfold L. destruct Hcase as [Hlt| ->].
      + by replace i with 0 by lia.
      + by rewrite lcs_length_nil_r.
    - intros i dp Hi [Hwfd Hd].
      pose (inv_row := fun (k : nat) (dp : table) =>
        wf_table dp m n /\
        forall i' j, i' <= m -> j <= n ->
          i' < i \/ j = 0 \/ (i' = i /\ j < k) -> get2 dp i' j = L i' j).
      assert (inv_row (1 + n)
        (foldl (fun dp j => lcs_cell seq1 seq2 dp i j) dp (seq 1 n))) as [Hwfr Hr].
      { apply (foldl_seq_invariant inv_row).
        - split; [done|]. intros i' j Hi' Hj Hcase. apply Hd; [done..|]. lia.
        - intros j dp' Hj [Hwf' Hd'].
          assert (wf_table (lcs_cell seq1 seq2 dp' i j) m n) as Hwfc.
          { unfold lcs_cell. case_bool_decide; by apply wf_set2. }
          split; [done|]. intros i' j' Hi' Hj' Hcase.
          destruct (decide (i' = i /\ j' = j)) as [[-> ->]|Hne].
          + destruct i as [|i0]; [lia|]. destruct j as [|j0]; [lia|].
            unfold L. rewrite lcs_length_prefix_S by (fold m n; lia).
            unfold lcs_cell.
            replace (S i0 - 1) with i0 by lia. replace (S j0 - 1) with j0 by lia.
            case_bool_decide.
            * rewrite (get2_set2 _ m n) by (done || lia).
              rewrite decide_True by done. by rewrite Hd' by lia.
            * rewrite (get2_set2 _ m n) by (done || lia).
              rewrite decide_True by done. by rewrite !Hd' by lia.
          + unfold lcs_cell. case_bool_decide;
              rewrite (get2_set2 _ m n) by (done || lia);
              rewrite decide_False by done; apply Hd'; (done || lia). }
      split; [done|]. intros i' j Hi' Hj Hcase. apply Hr; [done..|]. lia. }
  split; [done|]. intros i j Hi Hj. apply Hall; [done..|]. lia.
Qed.

(** [longest_common_subsequence] returns a common subsequence of its two
    arguments, and a longest one. *)
Lemma longest_common_subsequence_correct (seq1 seq2 : list A) :
  longest_common_subsequence seq1 seq2 `sublist_of` seq1 /\
  longest_common_subsequence seq1 seq2 `sublist_of` seq2 /\
  forall c, c `sublist_of` seq1 -> c `sublist_of` seq2 ->
            length c <= length (longest_common_subsequence seq1 seq2).
Proof.
  unfold longest_common_subsequence.
  set (m := length seq1). set (n := length seq2).
  set (dp := lcs_table seq1 seq2).
  set (L := fun i j => lcs_length (reverse (take i seq1)) (reverse (take j seq2))).
  assert (forall i j, i <= m -> j <= n -> get2 dp i j = L i j) as Hdp.
  { by destruct (lcs_table_correct seq1 seq2) as [_ Hdp]. }
  pose (inv := fun st : bt_state A =>
    bt_i st <= m /\ bt_j st <= n /\
    length (bt_out st) + L (bt_i st) (bt_j st) = L m n /\
    reverse (bt_out st) `sublist_of` drop (bt_i st) seq1 /\
    reverse (bt_out st) `sublist_of` drop (bt_j st) seq2).
  set (final := bt_loop (bt_body_values seq1 seq2 dp) (m + n) (BtState m n [])).
  assert (inv final) as (Hi & Hj & Hlen & Hs1 & Hs2).
  { apply bt_loop_invariant.
    - intros [i j out] Hc (Hi & Hj & Hlen & Hs1 & Hs2). simpl in *.
      unfold bt_cond in Hc. simpl in Hc.
      apply andb_true_iff in Hc as [Hi0%Nat.ltb_lt Hj0%Nat.ltb_lt].
      destruct i as [|i0]; [lia|]. destruct j as [|j0]; [lia|].
      destruct (lookup_lt_is_Some_2 seq1 i0 ltac:(fold m; lia)) as [x Hx].
      destruct (lookup_lt_is_Some_2 seq2 j0 ltac:(fold n; lia)) as [y Hy].
      unfold L in Hlen. rewrite lcs_length_prefix_S in Hlen by (fold m n; lia).
      fold (L i0 j0) (L i0 (S j0)) (L (S i0) j0) (L m n) in Hlen.
      unfold bt_body_values, inv. simpl.
      replace (i0 - 0) with i0 by lia. replace (j0 - 0) with j0 by lia.
      pose proof (drop_S _ _ _ Hx) as Hdx. pose proof (drop_S _ _ _ Hy) as Hdy.
      case_bool_decide as Heq; simpl.
      + rewrite Hx. simpl. rewrite reverse_snoc, length_app. simpl.
        assert (x = y) as -> by congruence.
        split; [lia|]. split; [lia|]. split; [lia|].
        rewrite Hdx, Hdy. split; by apply sublist_skip.
      + rewrite !Hdp by lia. unfold gtb.
        destruct (L (S i0) j0 <? L i0 (S j0)) eqn:Hgt; simpl.
        * apply Nat.ltb_lt in Hgt.
          split; [lia|]. split; [lia|]. split; [lia|].
          split; [|done]. rewrite Hdx. by apply sublist_cons.
        * apply Nat.ltb_ge in Hgt.
          split; [lia|]. split; [lia|]. split; [lia|].
          split; [done|]. rewrite Hdy. by apply sublist_cons.
    - unfold inv. simpl. split; [done|]. split; [done|]. split; [done|].
      unfold m, n. rewrite !drop_all. done. }
  assert (L (bt_i final) (bt_j final) = 0) as Hzero.
  { pose proof (longest_common_subsequence_exits seq1 seq2) as Hexit.
    fold m n dp final in Hexit. unfold bt_cond in Hexit.
    apply andb_false_iff in Hexit as [Hz%Nat.ltb_ge|Hz%Nat.ltb_ge]; unfold L.
    - by replace (bt_i final) with 0 by lia.
    - replace (bt_j final) with 0 by lia. apply lcs_length_nil_r. }
  split; [etrans; [exact Hs1|apply sublist_drop]|].
  split; [etrans; [exact Hs2|apply sublist_drop]|].
  intros c Hc1 Hc2. rewrite length_reverse.
  assert (L m n = lcs_length (reverse seq1) (reverse seq2)) as HL.
  { unfold L, m, n. by rewrite !firstn_all. }
  pose proof (lcs_length_optimal (reverse seq1) (reverse seq2) (reverse c)
                (sublist_reverse _ _ Hc1) (sublist_reverse _ _ Hc2)) as Hopt.
  rewrite length_reverse in Hopt. lia.
Qed.

(** The two backtrace loops walk the same cells: the indices recorded by
    one are the positions in [seq1] of the elements recorded by the other. *)
Lemma backtrace_lockstep (seq1 seq2 : list A) (dp : table) (fuel i j : nat)
    (indices : list nat) (out : list A) :
  i <= length seq1 ->
  (fun k => seq1 !! k) <$> indices = Some <$> out ->
  (fun k => seq1 !! k)
    <$> bt_out (bt_loop (bt_body_indices seq1 seq2 dp) fuel (BtState i j indices))
  = Some <$> bt_out (bt_loop (bt_body_values seq1 seq2 dp) fuel (BtState i j out)).
Proof.
  revert i j indices out.
  induction fuel as [|fuel IH]; intros i j indices out Hi Hout; simpl; [done|].
  unfold bt_cond. simpl.
  destruct (0 <? i) eqn:Hi0; simpl; [|done].
  destruct (0 <? j) eqn:Hj0; simpl; [|done].
  apply Nat.ltb_lt in Hi0.
  unfold bt_body_indices, bt_body_values. simpl.
  case_bool_decide as Heq.
  - apply IH; [lia|].
    destruct (lookup_lt_is_Some_2 seq1 (i - 1) ltac:(lia)) as [x Hx].
    rewrite Hx. simpl. rewrite !fmap_app, Hout. simpl. by rewrite Hx.
  - destruct (gtb _ _); apply IH; (done || lia).
Qed.

(** [longest_common_subsequence_with_indices] returns strictly increasing
    positions of [seq1], and the elements at these positions are the list
    returned by [longest_common_subsequence]. *)
Lemma longest_common_subsequence_with_indices_correct (seq1 seq2 : list A) :
  StronglySorted lt (longest_common_subsequence_with_indices seq1 seq2) /\
  Forall (fun k => k < length seq1)
         (longest_common_subsequence_with_indices seq1 seq2) /\
  (fun k => seq1 !! k) <$> longest_common_subsequence_with_indices seq1 seq2
  = Some <$> longest_common_subsequence seq1 seq2.
Proof.
  unfold longest_common_subsequence_with_indices, longest_common_subsequence.
  set (m := length seq1). set (n := length seq2).
  set (dp := lcs_table seq1 seq2).
  pose (inv := fun st : bt_state nat =>
    bt_i st <= m /\
    StronglySorted lt (reverse (bt_out st)) /\
    Forall (fun k => bt_i st <= k < m) (bt_out st)).
  assert (inv (bt_loop (bt_body_indices seq1 seq2 dp) (m + n) (BtState m n [])))
    as (_ & Hsorted & Hrange).
  { apply bt_loop_invariant.
    - intros [i j out] Hc (Hi & Hs & Hr). simpl in *.
      unfold bt_cond in Hc. simpl in Hc.
      apply andb_true_iff in Hc as [Hi0%Nat.ltb_lt Hj0%Nat.ltb_lt].
      unfold bt_body_indices, inv. simpl.
      case_bool_decide as Heq; simpl.
      + split; [lia|]. rewrite reverse_snoc. split.
        * constructor; [done|]. apply Forall_reverse.
          eapply Forall_impl; [exact Hr|]. simpl. lia.
        * apply Forall_app. split; [|repeat constructor; lia].
          eapply Forall_impl; [exact Hr|]. simpl. lia.
      + destruct (gtb _ _); simpl.
        * split; [lia|]. split; [done|].
          eapply Forall_impl; [exact Hr|]. simpl. lia.
        * done.
    - unfold inv. simpl. repeat split; [done|constructor|constructor]. }
  split; [done|]. split.
  - apply Forall_reverse. eapply Forall_impl; [exact Hrange|]. simpl. lia.
  - rewrite !fmap_reverse. f_equal. by apply backtrace_lockstep.
Qed.

End LCSFacts.

(** ** Percentages *)

Lemma ratio_bounds (a b : nat) :
  a <= b -> 0 < b ->
  (0 <= inject_Z (Z.of_nat a) / inject_Z (Z.of_nat b) <= 1)%Q.
Proof.
  intros Hab Hb.
  assert (0 < inject_Z (Z.of_nat b))%Q as Hpos.
  { change 0%Q with (inject_Z 0). rewrite <- Zlt_Qlt. lia. }
  split.
  - apply Qle_shift_div_l; [done|]. rewrite Qmult_0_l.
    change 0%Q with (inject_Z 0). rewrite <- Zle_Qle. lia.
  - apply Qle_shift_div_r; [done|]. rewrite Qmult_1_l. rewrite <- Zle_Qle. lia.
Qed.

Lemma accuracy_of_bounds (d m : nat) :
  d <= m -> (0 <= accuracy_of d m <= 100)%Q.
Proof.
  intros Hdm. unfold accuracy_of.
  destruct (0 <? m) eqn:Hm; [|done].
  apply Nat.ltb_lt in Hm.
  pose proof (ratio_bounds d m Hdm Hm). lra.
Qed.

Lemma accuracy_of_full (m : nat) : (accuracy_of m m == 0)%Q.
Proof.
  unfold accuracy_of. destruct (0 <? m) eqn:Hm; [|done].
  apply Nat.ltb_lt in Hm.
  assert (0 < inject_Z (Z.of_nat m))%Q as Hpos.
  { change 0%Q with (inject_Z 0). rewrite <- Zlt_Qlt. lia. }
  unfold Qdiv. rewrite Qmult_inv_r; [lra|]. lra.
Qed.

Lemma accuracy_of_zero_distance (m : nat) : (accuracy_of 0 (S m) == 100)%Q.
Proof.
  unfold accuracy_of. change (0 <? S m) with true. cbv iota.
  change (inject_Z (Z.of_nat 0)) with 0%Q.
  unfold Qdiv. rewrite Qmult_0_l. reflexivity.
Qed.

Lemma probability_of_nonneg (f t : nat) : (0 <= probability_of f t)%Q.
Proof.
  unfold probability_of. destruct (0 <? t) eqn:Ht; [|done].
  apply Nat.ltb_lt in Ht.
  assert (0 < inject_Z (Z.of_nat t))%Q as Hpos.
  { change 0%Q with (inject_Z 0). rewrite <- Zlt_Qlt. lia. }
  assert (0 <= inject_Z (Z.of_nat f) / inject_Z (Z.of_nat t))%Q.
  { apply Qle_shift_div_l; [done|]. rewrite Qmult_0_l.
    change 0%Q with (inject_Z 0). rewrite <- Zle_Qle. lia. }
  lra.
Qed.

Lemma probability_of_le_100 (f t : nat) : f <= t -> (probability_of f t <= 100)%Q.
Proof.
  intros Hft. unfold probability_of. destruct (0 <? t) eqn:Ht; [|done].
  apply Nat.ltb_lt in Ht.
  pose proof (ratio_bounds f t Hft Ht). lra.
Qed.

(** ** Exceptions, dictionaries and sorting *)

Section TraverseFacts.
Context {A B : Type}.
Implicit Types (f : A -> result B) (l : list A).

Lemma traverse_Ok_Forall2 f l (l' : list B) :
  traverse f l = Ok l' -> Forall2 (fun x y => f x = Ok y) l l'.
Proof.
  revert l'. induction l as [|x l IH]; intros l'; simpl.
  - intros [= <-]. constructor.
  - destruct (f x) as [y|e] eqn:Hfx; simpl; [|done].
    destruct (traverse f l) as [ys|e]; simpl; [|done].
    intros [= <-]. constructor; [done|]. by apply IH.
Qed.

Lemma traverse_Ok_Forall2_strong (P : A -> B -> Prop) f l (l' : list B) :
  (forall x y, x ∈ l -> f x = Ok y -> P x y) ->
  traverse f l = Ok l' -> Forall2 P l l'.
Proof.
  revert l'. induction l as [|x l IH]; intros l' HP; simpl.
  - intros [= <-]. constructor.
  - destruct (f x) as [y|e] eqn:Hfx; simpl; [|done].
    destruct (traverse f l) as [ys|e]; simpl; [|done].
    intros [= <-]. constructor; [apply HP; [by left|done]|].
    apply IH; [|done]. intros x' y' Hx'. apply HP. by right.
Qed.

Lemma traverse_Ok_length f l (l' : list B) : traverse f l = Ok l' -> length l' = length l.
Proof. intros Ht. symmetry. by eapply Forall2_length, traverse_Ok_Forall2. Qed.

Lemma traverse_Ok_elem_of_l f l (l' : list B) x :
  traverse f l = Ok l' -> x ∈ l -> exists y, y ∈ l' /\ f x = Ok y.
Proof.
  intros Ht%traverse_Ok_Forall2. induction Ht as [|x' y' l l' Hxy _ IH].
  - by intros ?%elem_of_nil.
  - intros [->|Hx]%elem_of_cons.
    + exists y'. split; [by left|done].
    + destruct (IH Hx) as (y & Hy & Hfy). exists y. split; [by right|done].
Qed.

Lemma traverse_Ok_elem_of_r f l (l' : list B) y :
  traverse f l = Ok l' -> y ∈ l' -> exists x, x ∈ l /\ f x = Ok y.
Proof.
  intros Ht%traverse_Ok_Forall2. induction Ht as [|x' y' l l' Hxy _ IH].
  - by intros ?%elem_of_nil.
  - intros [->|Hy]%elem_of_cons.
    + exists x'. split; [by left|done].
    + destruct (IH Hy) as (x & Hx & Hfx). exists x. split; [by right|done].
Qed.

Lemma traverse_total f l :
  (forall x, x ∈ l -> exists y, f x = Ok y) -> exists ys, traverse f l = Ok ys.
Proof.
  induction l as [|x l IH]; intros Hf; simpl; [by eexists|].
  destruct (Hf x) as [y ->]; [by left|]. simpl.
  destruct IH as [ys ->]; [|by eexists].
  intros x' Hx'. apply Hf. by right.
Qed.

Lemma traverse_Raise f l e :
  traverse f l = Raise e -> exists x, x ∈ l /\ f x = Raise e.
Proof.
  induction l as [|x l IH]; simpl; [done|].
  destruct (f x) as [y|e'] eqn:Hfx; simpl.
  - destruct (traverse f l) as [ys|e'']; simpl; [done|].
    intros [= <-]. destruct IH as (x' & Hx' & Hfx'); [done|].
    exists x'. split; [by right|done].
  - intros [= <-]. exists x. split; [by left|done].
Qed.
Lemma traverse_raises f l x e :
  x ∈ l -> f x = Raise e -> exists e', traverse f l = Raise e'.
Proof.
  induction l as [|y l IH]; [by intros ?%elem_of_nil|].
  intros [->|Hx]%elem_of_cons Hfx; simpl.
  - rewrite Hfx. by eexists.
  - destruct (f y); simpl; [|by eexists].
    destruct (IH Hx Hfx) as [e' ->]. by eexists.
Qed.
End TraverseFacts.

Lemma int_Ok s z : Py.int s = Ok z <-> Py.parse_int s = Some z.
Proof. unfold Py.int. destruct (Py.parse_int s); split; congruence. Qed.

Lemma int_Raise s e : Py.int s = Raise e -> e = ValueError.
Proof. unfold Py.int. destruct (Py.parse_int s); congruence. Qed.

Lemma elem_of_sorted_int l z : z ∈ Py.sorted_int l <-> z ∈ l.
Proof. unfold Py.sorted_int. by rewrite merge_sort_Permutation. Qed.

Lemma elem_of_sorted_str l k : k ∈ Py.sorted_str l <-> k ∈ l.
Proof. unfold Py.sorted_str. by rewrite merge_sort_Permutation. Qed.

Lemma length_sorted_int l : length (Py.sorted_int l) = length l.
Proof. unfold Py.sorted_int. by rewrite merge_sort_Permutation. Qed.

Lemma length_sorted_str l : length (Py.sorted_str l) = length l.
Proof. unfold Py.sorted_str. by rewrite merge_sort_Permutation. Qed.

Section DictFacts.
Context {V : Type}.
Implicit Types (d : dict V) (k : string).

Lemma get_is_Some d k : is_Some (get d k) <-> k ∈ keys d.
Proof.
  unfold keys. induction d as [|[k' v] d IH]; simpl.
  - split; [by intros [? ?]|]. by intros ?%elem_of_nil.
  - rewrite elem_of_cons. case_decide as Hk.
    + split; [by left|by eexists].
    + rewrite IH. split; [by right|]. by intros [?|?].
Qed.

Lemma getitem_Ok d k : k ∈ keys d -> exists v, getitem d k = Ok v.
Proof.
  intros [v Hv]%get_is_Some. exists v. unfold getitem. by rewrite Hv.
Qed.

Lemma getitem_Ok_get d k v : getitem d k = Ok v <-> get d k = Some v.
Proof. unfold getitem. destruct (get d k); split; congruence. Qed.

Lemma getitem_Raise d k e : getitem d k = Raise e -> e = KeyError /\ k ∉ keys d.
Proof.
  unfold getitem. destruct (get d k) eqn:Hg; [done|]. intros [= <-].
  split; [done|]. rewrite <- get_is_Some, Hg. by intros [? ?].
Qed.

Lemma contains_true d k : contains d k = true <-> k ∈ keys d.
Proof. unfold contains. apply bool_decide_eq_true. Qed.
End DictFacts.

Lemma canonical_key_spec k :
  canonical_key k = true <->
  Py.isdigit k = true /\ exists z, Py.parse_int k = Some z /\ Py.str z = k.
Proof.
  unfold canonical_key. rewrite andb_true_iff, bool_decide_eq_true.
  destruct (Py.parse_int k) as [z|]; simpl.
  - split.
    + intros [? [= ?]]. eauto.
    + intros [? (z' & [= <-] & ->)]. done.
  - split; [by intros [? ?]|]. by intros [? (? & ? & ?)].
Qed.

Lemma bind_Ok {A B} (r : result A) (k : A -> result B) (b : B) :
  r ≫= k = Ok b <-> exists a, r = Ok a /\ k a = Ok b.
Proof.
  unfold mbind, result_bind. destruct r as [a|e]; simpl.
  - split; [eauto|]. by intros (a' & [= <-] & ?).
  - split; [done|]. by intros (? & ? & ?).
Qed.

Lemma bind_Raise {A B} (r : result A) (k : A -> result B) (e : exn) :
  r ≫= k = Raise e <-> r = Raise e \/ exists a, r = Ok a /\ k a = Raise e.
Proof.
  unfold mbind, result_bind. destruct r as [a|e']; simpl.
  - split; [eauto|]. intros [?|(a' & [= <-] & ?)]; done.
  - split; [intros [= <-]; by left|]. intros [[= ->]|(? & ? & ?)]; done.
Qed.

Lemma mret_Ok {A} (a b : A) : mret (M := result) a = Ok b -> a = b.
Proof. unfold mret, result_ret. congruence. Qed.

(** ** [int(str(k)) == k] *)

Lemma digit_of_pretty_N_char (x : N) :
  (x < 10)%N -> Py.digit_of (pretty_N_char x) = Some (Z.of_N x).
Proof.
  intros Hx.
  assert (x = 0 \/ x = 1 \/ x = 2 \/ x = 3 \/ x = 4 \/ x = 5 \/ x = 6 \/ x = 7
          \/ x = 8 \/ x = 9)%N as Hcases by lia.
  repeat (destruct Hcases as [->|Hcases]; [reflexivity|]). by subst.
Qed.

Lemma digit_not_space (c : ascii) : is_Some (Py.digit_of c) -> Py.is_space c = false.
Proof.
  destruct c as [[] [] [] [] [] [] [] []]; vm_compute; (done || by intros [? ?]).
Qed.

Lemma digit_not_sign (c : ascii) :
  is_Some (Py.digit_of c) -> Ascii.eqb c "+" = false /\ Ascii.eqb c "-" = false.
Proof.
  destruct c as [[] [] [] [] [] [] [] []]; vm_compute; (done || by intros [? ?]).
Qed.

Lemma pretty_N_go_digits (x : N) (s : string) :
  Forall (fun c => is_Some (Py.digit_of c)) (list_ascii_of_string s) ->
  Forall (fun c => is_Some (Py.digit_of c)) (list_ascii_of_string (pretty_N_go x s)).
Proof.
  revert s. induction (N.lt_wf_0 x) as [x _ IH]; intros s Hs.
  assert (x = 0 \/ 0 < x)%N as [->|Hx] by lia; [by rewrite pretty_N_go_0|].
  rewrite pretty_N_go_step by done. apply IH; [by apply N.div_lt|].
  simpl. constructor; [|done].
  rewrite digit_of_pretty_N_char; [by eexists|]. by apply N.mod_lt.
Qed.

Lemma parse_digits_pretty_N_go (x : N) (s : string) (b : bool) :
  (0 < x)%N ->
  exists p, forall acc,
    Py.parse_digits acc b (list_ascii_of_string (pretty_N_go x s))
    = Py.parse_digits (acc * p + Z.of_N x)%Z true (list_ascii_of_string s).
Proof.
  revert s b. induction (N.lt_wf_0 x) as [x _ IH]; intros s b Hx.
  rewrite pretty_N_go_step by done.
  assert (x `mod` 10 < 10)%N as Hmod by (by apply N.mod_lt).
  pose proof (N.div_mod x 10 ltac:(done)) as Hdm.
  assert (x `div` 10 = 0 \/ 0 < x `div` 10)%N as [Hz|Hpos] by lia.
  - rewrite Hz, pretty_N_go_0. exists 10%Z. intros acc. simpl.
    rewrite digit_of_pretty_N_char by done. f_equal. lia.
  - destruct (IH (x `div` 10)%N ltac:(by apply N.div_lt)
                 (String (pretty_N_char (x `mod` 10)) s) b Hpos) as [p Hp].
    exists (10 * p)%Z. intros acc. rewrite Hp. simpl.
    rewrite digit_of_pretty_N_char by done. f_equal. lia.
Qed.

Lemma lstrip_id (l : list ascii) :
  Forall (fun c => Py.is_space c = false) l -> Py.lstrip l = l.
Proof. destruct 1 as [|c l Hc _]; simpl; [done|]. by rewrite Hc. Qed.

Lemma strip_id (l : list ascii) :
  Forall (fun c => Py.is_space c = false) l -> Py.strip l = l.
Proof.
  intros Hl. unfold Py.strip. rewrite (lstrip_id l Hl).
  rewrite (lstrip_id (rev l)); [apply rev_involutive|].
  apply Forall_forall. intros c Hc. rewrite Forall_forall in Hl. apply Hl.
  apply list_elem_of_In. apply list_elem_of_In in Hc. by apply in_rev.
Qed.

Lemma parse_int_pretty_positive (p : positive) :
  let l := list_ascii_of_string (pretty_N_go (Npos p) EmptyString) in
  Forall (fun c => is_Some (Py.digit_of c)) l /\
  Py.parse_digits 0 false l = Some (Zpos p).
Proof.
  split; [by apply pretty_N_go_digits|].
  destruct (parse_digits_pretty_N_go (Npos p) EmptyString false ltac:(lia)) as [q Hq].
  rewrite Hq. simpl. f_equal; lia.
Qed.

(** Printing an integer and parsing it back gives the integer. *)
Lemma int_str (z : Z) : Py.parse_int (Py.str z) = Some z.
Proof.
  unfold Py.str, pretty, pretty_Z. destruct z as [|p|p].
  - reflexivity.
  - unfold pretty, pretty_positive, pretty, pretty_N. rewrite decide_False by done.
    destruct (parse_int_pretty_positive p) as [Hd Hp]. unfold Py.parse_int.
    rewrite strip_id by (eapply Forall_impl; [exact Hd|apply digit_not_space]).
    destruct (list_ascii_of_string _) as [|c l]; [done|].
    apply Forall_cons in Hd as [[Hplus Hminus]%digit_not_sign _].
    by rewrite Hplus, Hminus.
  - unfold pretty, pretty_positive, pretty, pretty_N. rewrite decide_False by done.
    destruct (parse_int_pretty_positive p) as [Hd Hp]. unfold Py.parse_int.
    unfold String.app. simpl.
    rewrite strip_id.
    + simpl. rewrite Hp. done.
    + constructor; [done|]. eapply Forall_impl; [exact Hd|apply digit_not_space].
Qed.

Lemma parse_digits_total (l : list ascii) (acc : Z) (b : bool) :
  Forall (fun c => is_Some (Py.digit_of c)) l -> l <> [] ->
  is_Some (Py.parse_digits acc b l).
Proof.
  intros Hl. revert acc b. induction Hl as [|c l [d Hd] Hl IH]; intros acc b Hne;
    [done|].
  simpl. rewrite Hd. destruct l as [|c' l]; [by eexists|]. by apply IH.
Qed.

(** After [k_str.isdigit()], [int(k_str)] does not raise. *)
Lemma isdigit_parse_int (k : string) :
  Py.isdigit k = true -> is_Some (Py.parse_int k).
Proof.
  unfold Py.isdigit, Py.parse_int.
  destruct (list_ascii_of_string k) as [|c l] eqn:Hk; [done|].
  intros Hall%Is_true_true%forallb_True.
  assert (Forall (fun c => is_Some (Py.digit_of c)) (c :: l)) as Hd.
  { eapply Forall_impl; [exact Hall|]. intros c' Hc'. simpl in Hc'.
    by apply bool_decide_unpack in Hc'. }
  rewrite strip_id by (eapply Forall_impl; [exact Hd|apply digit_not_space]).
  pose proof Hd as [[Hplus Hminus]%digit_not_sign _]%Forall_cons.
  rewrite Hplus, Hminus. by apply parse_digits_total.
Qed.

(** ** The per-record classification *)

Section ClassificationFacts.
Context {V : Type} `{EqDecision V}.
Implicit Types (standard_answers model_answers d : dict V).

Lemma int_keys_Ok d zs :
  int_keys d = Ok zs ->
  forall z, z ∈ zs <-> exists k, k ∈ keys d /\ Py.parse_int k = Some z.
Proof.
  unfold int_keys. intros (ks & Hks & <-%mret_Ok)%bind_Ok z.
  rewrite elem_of_sorted_int.
  split.
  - intros Hz. destruct (traverse_Ok_elem_of_r _ _ _ _ Hks Hz) as (k & Hk & Hint).
    exists k. split; [done|]. by apply int_Ok.
  - intros (k & Hk & Hint).
    destruct (traverse_Ok_elem_of_l _ _ _ _ Hks Hk) as (z' & Hz' & Hint').
    apply int_Ok in Hint'. congruence.
Qed.

Lemma int_keys_total d :
  (forall k, k ∈ keys d -> is_Some (Py.parse_int k)) -> exists zs, int_keys d = Ok zs.
Proof.
  intros Hparse. unfold int_keys.
  destruct (traverse_total Py.int (keys d)) as [ks ->]; [|by eexists].
  intros k [z Hz]%Hparse. exists z. by apply int_Ok.
Qed.

Lemma int_keys_Raise d e : int_keys d = Raise e -> e = ValueError.
Proof.
  unfold int_keys. intros [Ht|(ks & _ & ?)]%bind_Raise; [|done].
  apply traverse_Raise in Ht as (k & _ & Hk). by eapply int_Raise.
Qed.

Lemma value_correct_Ok_true standard_answers model_answers k :
  value_correct standard_answers model_answers k = Ok true <->
  Py.str k ∈ keys standard_answers /\
  exists v, get model_answers (Py.str k) = Some v /\
            get standard_answers (Py.str k) = Some v.
Proof.
  unfold value_correct.
  destruct (contains standard_answers (Py.str k)) eqn:Hc.
  - apply contains_true in Hc. rewrite bind_Ok. split.
    + intros (a & Ha%getitem_Ok_get & (b & Hb%getitem_Ok_get & Hab%mret_Ok)%bind_Ok).
      apply bool_decide_eq_true in Hab as ->. eauto.
    + intros (_ & v & Hm & Hs). exists v. split; [by apply getitem_Ok_get|].
      apply bind_Ok. exists v. split; [by apply getitem_Ok_get|].
      unfold mret, result_ret. f_equal. by apply bool_decide_eq_true.
  - split; [by intros ?%mret_Ok|].
    intros [Hin%contains_true _]. congruence.
Qed.

Lemma value_correct_total standard_answers model_answers k :
  (Py.str k ∈ keys standard_answers -> Py.str k ∈ keys model_answers) ->
  exists b, value_correct standard_answers model_answers k = Ok b.
Proof.
  intros Hin. unfold value_correct.
  destruct (contains standard_answers (Py.str k)) eqn:Hc; [|by eexists].
  apply contains_true in Hc.
  destruct (getitem_Ok model_answers _ (Hin Hc)) as [a ->].
  destruct (getitem_Ok standard_answers _ Hc) as [b ->].
  by eexists.
Qed.

Lemma select_Ok {A} (test : A -> result bool) (l out : list A) :
  select test l = Ok out ->
  forall k, k ∈ out <-> k ∈ l /\ test k = Ok true.
Proof.
  revert out. induction l as [|x l IH]; intros out; simpl.
  - intros [= <-] k. split; [by intros ?%elem_of_nil|].
    by intros [?%elem_of_nil _].
  - intros (b & Hb & (out' & Hout' & <-%mret_Ok)%bind_Ok)%bind_Ok k.
    specialize (IH out' Hout' k).
    destruct b; simpl; rewrite ?elem_of_cons, IH.
    + split; [intros [->|[? ?]]; eauto|]. intros [[->|?] ?]; eauto.
    + split; [intros [? ?]; eauto|]. intros [[->|?] ?]; [congruence|eauto].
Qed.

Lemma select_total {A} (test : A -> result bool) (l : list A) :
  (forall k, k ∈ l -> exists b, test k = Ok b) -> exists out, select test l = Ok out.
Proof.
  induction l as [|x l IH]; intros Ht; simpl; [by eexists|].
  destruct (Ht x) as [b ->]; [by left|].
  destruct IH as [out Hout]; [intros k Hk; apply Ht; by right|].
  unfold mbind, result_bind. simpl. rewrite Hout. simpl. by eexists.
Qed.

Lemma find_anchors_Ok standard_answers model_answers a :
  find_anchors standard_answers model_answers = Ok a ->
  int_keys standard_answers = Ok (standard_keys a) /\
  int_keys model_answers = Ok (all_model_keys a) /\
  select (value_correct standard_answers model_answers) (all_model_keys a)
    = Ok (correct_model_keys a) /\
  lcs a = longest_common_subsequence (standard_keys a) (correct_model_keys a).
Proof.
  unfold find_anchors.
  intros (sk & Hsk & (mk & Hmk & (cmk & Hcmk & <-%mret_Ok)%bind_Ok)%bind_Ok)%bind_Ok.
  done.
Qed.

(** Anchors are value-correct keys, value-correct keys are keys of the
    response. *)
Lemma lcs_subseteq standard_answers model_answers a k :
  find_anchors standard_answers model_answers = Ok a ->
  k ∈ lcs a -> k ∈ standard_keys a /\ k ∈ correct_model_keys a.
Proof.
  intros (_ & _ & _ & ->)%find_anchors_Ok.
  apply longest_common_subsequence_elem_of.
Qed.

Lemma correct_model_keys_subseteq standard_answers model_answers a k :
  find_anchors standard_answers model_answers = Ok a ->
  k ∈ correct_model_keys a -> k ∈ all_model_keys a.
Proof.
  intros (_ & _ & Hsel & _)%find_anchors_Ok Hk.
  by apply (select_Ok _ _ _ Hsel) in Hk as [? _].
Qed.

Lemma correct_keys_Ok standard_answers model_answers (items : dict V) ck :
  correct_keys standard_answers model_answers items = Ok ck ->
  forall z, z ∈ ck <->
    exists k_str, k_str ∈ keys items /\
                  adds_correct_key standard_answers model_answers k_str z.
Proof.
  revert ck. induction items as [|[k_str v0] items IH]; intros ck; simpl.
  - intros [= <-] z. split; [by intros ?%elem_of_empty|].
    by intros (? & ?%elem_of_nil & _).
  - assert (forall ck' : gset Z,
              correct_keys standard_answers model_answers items = Ok ck' ->
              (forall z, ~ adds_correct_key standard_answers model_answers k_str z) ->
              forall z, z ∈ ck' <->
                exists k, k ∈ k_str :: keys items /\
                          adds_correct_key standard_answers model_answers k z)
      as Hskip.
    { intros ck' Hck' Hno z. rewrite (IH ck' Hck'). split.
      - intros (k & Hk & Hrest). exists k. split; [by right|done].
      - intros (k & [->|Hk]%elem_of_cons & Hadds).
        + by destruct (Hno z).
        + exists k. eauto. }
    destruct (Py.isdigit k_str && contains standard_answers k_str) eqn:Hguard.
    + apply andb_true_iff in Hguard as [Hd Hc%contains_true].
      destruct (getitem model_answers k_str) as [a|e] eqn:Ha; simpl; [|done].
      destruct (getitem standard_answers k_str) as [b|e] eqn:Hb; simpl; [|done].
      apply getitem_Ok_get in Ha, Hb.
      case_decide as Hab.
      * subst b.
        intros (k & Hk%int_Ok & (rest & Hrest & <-%mret_Ok)%bind_Ok)%bind_Ok z.
        rewrite elem_of_union, elem_of_singleton, (IH rest Hrest). split.
        -- intros [->|(k' & Hk' & Hr)].
           ++ exists k_str. split; [by left|]. unfold adds_correct_key. eauto 10.
           ++ exists k'. split; [by right|done].
        -- intros (k' & [->|Hk']%elem_of_cons & Hadds).
           ++ left. destruct Hadds as (_ & _ & _ & Hp). congruence.
           ++ right. exists k'. eauto.
      * intros Hck. apply Hskip; [done|].
        intros z (_ & _ & (v & Hm & Hs) & _). congruence.
    + intros Hck. apply Hskip; [done|].
      intros z (Hd & Hs%contains_true & _).
      rewrite Hd, Hs in Hguard. done.
Qed.

Lemma correct_keys_total standard_answers model_answers (items : dict V) :
  (forall k, k ∈ keys items -> k ∈ keys model_answers) ->
  exists ck, correct_keys standard_answers model_answers items = Ok ck.
Proof.
  induction items as [|[k_str v0] items IH]; intros Hin; simpl; [by eexists|].
  destruct IH as [ck Hck].
  { intros k Hk. apply Hin. by right. }
  destruct (Py.isdigit k_str && contains standard_answers k_str) eqn:Hguard;
    [|by eexists].
  apply andb_true_iff in Hguard as [Hd Hc%contains_true].
  destruct (getitem_Ok model_answers k_str) as [a ->]; [apply Hin; by left|].
  destruct (getitem_Ok standard_answers k_str Hc) as [b ->]. simpl.
  case_decide; [|by eexists].
  destruct (isdigit_parse_int k_str Hd) as [z Hz].
  unfold Py.int. rewrite Hz. simpl. rewrite Hck. by eexists.
Qed.

End ClassificationFacts.

(** ** With canonical keys every value-correct key is an anchor *)

Lemma sublist_of_length_eq {A} (l k : list A) :
  l `sublist_of` k -> length k <= length l -> l = k.
Proof.
  induction 1 as [|x l k _ IH|x l k Hlk _]; simpl; intros Hlen.
  - done.
  - f_equal. apply IH. lia.
  - apply sublist_length in Hlk. lia.
Qed.

Lemma StronglySorted_sublist {A} (R : relation A) (l k : list A) :
  l `sublist_of` k -> StronglySorted R k -> StronglySorted R l.
Proof.
  induction 1 as [|x l k Hlk IH|x l k Hlk IH]; intros Hk.
  - done.
  - apply StronglySorted_inv in Hk as [Hk Hx]. constructor; [by apply IH|].
    rewrite Forall_forall in Hx |- *. intros y Hy. apply Hx.
    by eapply sublist_subseteq.
  - apply StronglySorted_inv in Hk as [Hk _]. by apply IH.
Qed.

Lemma StronglySorted_le_lt (l : list Z) :
  StronglySorted Z.le l -> NoDup l -> StronglySorted Z.lt l.
Proof.
  induction 1 as [|x l _ IH Hx]; intros Hnd; [constructor|].
  apply NoDup_cons in Hnd as [Hnot Hnd]. constructor; [by apply IH|].
  rewrite Forall_forall in Hx |- *. intros y Hy.
  specialize (Hx y Hy). assert (x <> y) by (by intros ->). lia.
Qed.

(** Two strictly ascending lists, the first contained in the second: the
    first is a subsequence of the second. *)
Lemma ascending_subseteq_sublist (l k : list Z) :
  StronglySorted Z.lt l -> StronglySorted Z.lt k -> l ⊆ k -> l `sublist_of` k.
Proof.
  intros Hl. revert k. induction Hl as [|x l _ IH Hx]; intros k Hk Hsub.
  { apply sublist_nil_l. }
  assert (x ∈ k) as Hxk by (apply Hsub; by left).
  apply list_elem_of_split in Hxk as (k1 & k2 & ->).
  apply sublist_inserts_l, sublist_skip, IH.
  - by apply StronglySorted_app_1_r, StronglySorted_inv in Hk as [? _].
  - intros y Hy. rewrite Forall_forall in Hx. specialize (Hx y Hy).
    assert (y ∈ k1 ++ x :: k2) as Hyk by (apply Hsub; by right).
    apply elem_of_app in Hyk as [Hy1|[->|Hy2]%elem_of_cons]; [|lia|done].
    pose proof (StronglySorted_app_1_elem_of _ _ _ y x Hk Hy1 ltac:(by left)).
    lia.
Qed.

Section AnchorsOfCanonicalRecords.
Context {V : Type} `{EqDecision V}.

Lemma select_sublist {A} (test : A -> result bool) (l out : list A) :
  select test l = Ok out -> out `sublist_of` l.
Proof.
  revert out. induction l as [|x l IH]; intros out; simpl.
  - by intros [= <-].
  - intros (b & Hb & (out' & Hout' & <-%mret_Ok)%bind_Ok)%bind_Ok.
    destruct b; [apply sublist_skip|apply sublist_cons]; by apply IH.
Qed.

Lemma printed_back (l : list string) (ks : list Z) :
  (forall k z, k ∈ l -> Py.parse_int k = Some z -> Py.str z = k) ->
  traverse Py.int l = Ok ks -> Py.str <$> ks = l.
Proof.
  intros Hcanon Hks%traverse_Ok_Forall2.
  induction Hks as [|k z l ks' Hk%int_Ok _ IH]; [done|].
  simpl. f_equal.
  - apply Hcanon; [by left|done].
  - apply IH. intros k' z' Hk'. apply Hcanon. by right.
Qed.

(** Canonical keys of a well-formed [dict] parse to distinct integers, so
    the sorted key list is strictly ascending. *)
Lemma int_keys_ascending (d : dict V) zs :
  dict_wf d ->
  (forall k z, k ∈ keys d -> Py.parse_int k = Some z -> Py.str z = k) ->
  int_keys d = Ok zs -> StronglySorted Z.lt zs.
Proof.
  unfold int_keys, dict_wf. fold (keys d).
  intros Hnd Hcanon (ks & Hks & <-%mret_Ok)%bind_Ok.
  assert (Py.str <$> ks = keys d) as Hstr by (by apply printed_back).
  apply StronglySorted_le_lt.
  - apply StronglySorted_merge_sort; apply _.
  - unfold Py.sorted_int. rewrite merge_sort_Permutation.
    apply (NoDup_fmap_1 Py.str). by rewrite Hstr.
Qed.

(** On a record whose two answer sets are well-formed with canonical keys,
    the value-correct keys already form an ascending subsequence of the
    reference keys: the LCS is all of them, and no key is Misorder. *)
Lemma canonical_record_has_no_misorder (standard_answers model_answers : dict V) :
  dict_wf standard_answers -> dict_wf model_answers ->
  Forall (fun k => canonical_key k = true) (keys standard_answers) ->
  Forall (fun k => canonical_key k = true) (keys model_answers) ->
  forall a, find_anchors standard_answers model_answers = Ok a ->
    lcs a = correct_model_keys a /\ misorder_keys a = [].
Proof.
  intros Hwfs Hwfm Hstd Hmodel a Ha.
  rewrite Forall_forall in Hstd, Hmodel.
  assert (forall d : dict V,
            (forall k, k ∈ keys d -> canonical_key k = true) ->
            forall k z, k ∈ keys d -> Py.parse_int k = Some z -> Py.str z = k)
    as Hstr.
  { intros d Hd k z Hk Hz.
    apply Hd, canonical_key_spec in Hk as (_ & z' & Hz' & Hs). congruence. }
  pose proof (find_anchors_Ok _ _ _ Ha) as (Hsk & Hmk & Hsel & Hlcs).
  pose proof (int_keys_ascending _ _ Hwfs (Hstr _ Hstd) Hsk) as Hasc_s.
  pose proof (int_keys_ascending _ _ Hwfm (Hstr _ Hmodel) Hmk) as Hasc_m.
  pose proof (select_sublist _ _ _ Hsel) as Hsub_m.
  assert (correct_model_keys a `sublist_of` standard_keys a) as Hsub_s.
  { apply ascending_subseteq_sublist; [by eapply StronglySorted_sublist|done|].
    intros k [_ [Hs _]%value_correct_Ok_true]%(select_Ok _ _ _ Hsel).
    apply (int_keys_Ok _ _ Hsk). exists (Py.str k). split; [done|].
    apply Hstd, canonical_key_spec in Hs as (_ & z & Hz & Hzk).
    apply (inj pretty) in Hzk. congruence. }
  destruct (longest_common_subsequence_correct
              (standard_keys a) (correct_model_keys a)) as (_ & Hl2 & Hopt).
  rewrite <- Hlcs in Hl2, Hopt.
  assert (lcs a = correct_model_keys a) as Heq.
  { apply sublist_of_length_eq; [done|]. by apply Hopt. }
  split; [done|]. unfold misorder_keys. rewrite Heq.
  destruct (filter _ _) as [|k l] eqn:Hf; [done|].
  assert (k ∈ filter (fun k => k ∉ correct_model_keys a) (correct_model_keys a))
    as Hk by (rewrite Hf; by left).
  by apply list_elem_of_filter in Hk as [? ?].
Qed.

End AnchorsOfCanonicalRecords.

(** ** The position of a hallucinated key and the two scans *)

Lemma index_from_Ok {A} `{EqDecision A} (l : list A) (x : A) (start pos : nat) :
  Py.index_from l x start = Ok pos ->
  exists p, pos = start + p /\ l !! p = Some x /\ forall q, q < p -> l !! q <> Some x.
Proof.
  revert start. induction l as [|y l IH]; intros start; simpl; [done|].
  case_decide as Hy.
  - intros [= <-]. exists 0. subst y. split; [lia|]. split; [done|]. lia.
  - intros (p & -> & Hp & Hfirst)%IH. exists (S p). split; [lia|].
    split; [done|]. intros [|q] Hq; simpl; [congruence|]. apply Hfirst. lia.
Qed.

Lemma index_Ok {A} `{EqDecision A} (l : list A) (x : A) (pos : nat) :
  Py.index l x = Ok pos ->
  l !! pos = Some x /\ forall q, q < pos -> l !! q <> Some x.
Proof. intros (p & -> & Hp)%index_from_Ok. done. Qed.

Lemma index_from_total {A} `{EqDecision A} (l : list A) (x : A) (start : nat) :
  x ∈ l -> exists pos, Py.index_from l x start = Ok pos.
Proof.
  revert start. induction l as [|y l IH]; intros start; simpl.
  - by intros ?%elem_of_nil.
  - case_decide; [by eexists|]. intros [->|Hx]%elem_of_cons; [done|]. by apply IH.
Qed.

Lemma index_total {A} `{EqDecision A} (l : list A) (x : A) :
  x ∈ l -> exists pos, Py.index l x = Ok pos.
Proof. apply index_from_total. Qed.

Lemma scan_anchor_seq (all_model_keys lcs : list Z) (len start : nat) :
  match scan_anchor all_model_keys lcs (seq start len) with
  | Some r => exists p, start <= p < start + len /\
                all_model_keys !! p = Some r /\ r ∈ lcs /\
                forall q x, start <= q < p -> all_model_keys !! q = Some x -> x ∉ lcs
  | None => forall q x, start <= q < start + len ->
                all_model_keys !! q = Some x -> x ∉ lcs
  end.
Proof.
  revert start. induction len as [|len IH]; intros start; simpl; [lia|].
  specialize (IH (S start)).
  assert (forall x, all_model_keys !! start = Some x -> x ∉ lcs ->
    match scan_anchor all_model_keys lcs (seq (S start) len) with
    | Some r => exists p, start <= p < start + S len /\
                  all_model_keys !! p = Some r /\ r ∈ lcs /\
                  forall q x, start <= q < p -> all_model_keys !! q = Some x -> x ∉ lcs
    | None => forall q x, start <= q < start + S len ->
                  all_model_keys !! q = Some x -> x ∉ lcs
    end) as Hskip.
  { intros x0 Hx0 Hnot.
    destruct (scan_anchor all_model_keys lcs (seq (S start) len)) as [r|].
    - destruct IH as (p & Hp & Hr & Hin & Hgap). exists p.
      split; [lia|]. split; [done|]. split; [done|].
      intros q x Hq Hx. destruct (decide (q = start)) as [->|]; [congruence|].
      apply (Hgap q); [lia|done].
    - intros q x Hq Hx. destruct (decide (q = start)) as [->|]; [congruence|].
      apply (IH q); [lia|done]. }
  destruct (all_model_keys !! start) as [k|] eqn:Hk.
  - case_bool_decide as Hin; [|by apply (Hskip k)].
    exists start. split; [lia|]. split; [done|]. split; [done|]. lia.
  - destruct (scan_anchor all_model_keys lcs (seq (S start) len)) as [r|].
    + destruct IH as (p & Hp & Hr & Hin & Hgap). exists p.
      split; [lia|]. split; [done|]. split; [done|].
      intros q x Hq Hx. destruct (decide (q = start)) as [->|]; [congruence|].
      apply (Hgap q); [lia|done].
    + intros q x Hq Hx. destruct (decide (q = start)) as [->|]; [congruence|].
      apply (IH q); [lia|done].
Qed.

Lemma scan_anchor_right (all_model_keys lcs : list Z) (pos : nat) :
  nearest_after all_model_keys lcs pos
    (scan_anchor all_model_keys lcs (right_positions pos (length all_model_keys))).
Proof.
  unfold right_positions, nearest_after.
  pose proof (scan_anchor_seq all_model_keys lcs
                (length all_model_keys - (pos + 1)) (pos + 1)) as Hscan.
  destruct (scan_anchor _ _ _) as [r|].
  - destruct Hscan as (p & Hp & Hr & Hin & Hgap). exists p.
    split; [lia|]. split; [done|]. split; [done|].
    intros q x Hq. apply Hgap. lia.
  - intros q x Hq Hx. apply (Hscan q); [|done].
    apply lookup_lt_Some in Hx. lia.
Qed.

Lemma left_positions_S pos : left_positions (S pos) = pos :: left_positions pos.
Proof.
  unfold left_positions. rewrite seq_S, reverse_app. reflexivity.
Qed.

Lemma scan_anchor_left (all_model_keys lcs : list Z) (pos : nat) :
  nearest_before all_model_keys lcs pos
    (scan_anchor all_model_keys lcs (left_positions pos)).
Proof.
  induction pos as [|pos IH]; [simpl; lia|].
  rewrite left_positions_S. simpl.
  assert (forall found,
            nearest_before all_model_keys lcs pos found ->
            (forall x, all_model_keys !! pos = Some x -> x ∉ lcs) ->
            nearest_before all_model_keys lcs (S pos) found) as Hskip.
  { intros [l|]; simpl.
    - intros (p & Hp & Hl & Hin & Hgap) Hnot. exists p.
      split; [lia|]. split; [done|]. split; [done|].
      intros q x Hq Hx. destruct (decide (q = pos)) as [->|]; [by apply Hnot|].
      apply (Hgap q); [lia|done].
    - intros Hnone Hnot q x Hq Hx.
      destruct (decide (q = pos)) as [->|]; [by apply Hnot|].
      apply (Hnone q); [lia|done]. }
  destruct (all_model_keys !! pos) as [k|] eqn:Hk.
  - case_bool_decide as Hin.
    + exists pos. split; [lia|]. split; [done|]. split; [done|]. lia.
    + apply Hskip; [done|]. congruence.
  - apply Hskip; [done|]. congruence.
Qed.

(** The interval loop raises nothing: every hallucinated key is found among
    the response keys it was taken from. *)
Lemma hallucination_intervals_total (a : anchors) :
  exists ivs, hallucination_intervals a = Ok ivs.
Proof.
  unfold hallucination_intervals.
  destruct (traverse_total (halluc_interval a) (hallucination_keys a)) as [ivs ->];
    [|by eexists].
  intros h Hh. unfold hallucination_keys in Hh.
  apply list_elem_of_filter in Hh as [_ Hin]. unfold halluc_interval.
  destruct (index_total (all_model_keys a) h Hin) as [pos ->]. by eexists.
Qed.

(** ** Frequency tables *)

Section FrequencyFacts.
Context {K : Type} `{Countable K}.
Implicit Types (freq : gmap K nat) (k : K) (ks : list K).

Lemma bump_lookup freq k k' :
  bump freq k !! k' = if decide (k = k') then Some (default 0 (freq !! k) + 1)
                      else freq !! k'.
Proof.
  unfold bump. case_decide as Hk.
  - subst. by rewrite lookup_insert_eq.
  - by rewrite lookup_insert_ne.
Qed.

Lemma foldl_bump_le freq ks k :
  default 0 (foldl bump freq ks !! k) <= default 0 (freq !! k) + length ks.
Proof.
  revert freq. induction ks as [|k0 ks IH]; intros freq; simpl; [lia|].
  etrans; [apply IH|]. rewrite bump_lookup. case_decide; subst; simpl; lia.
Qed.

Lemma foldl_bump_positive freq ks :
  (forall k n, freq !! k = Some n -> 0 < n) ->
  forall k n, foldl bump freq ks !! k = Some n -> 0 < n.
Proof.
  revert freq. induction ks as [|k0 ks IH]; intros freq Hpos; simpl; [done|].
  apply IH. intros k n. rewrite bump_lookup.
  case_decide; [intros [= <-]; lia|apply Hpos].
Qed.
End FrequencyFacts.

Lemma length_emitted (ivs : list (option interval)) : length (emitted ivs) <= length ivs.
Proof.
  unfold emitted. induction ivs as [|[iv|] ivs IH]; csimpl; simpl; lia.
Qed.

Section OverRecords.
Context {V : Type} `{EqDecision V} {K : Type} `{Countable K}.

Lemma max_list_with_snoc {A} (f : A -> nat) (l : list A) (x : A) :
  max_list_with f (l ++ [x]) = Nat.max (max_list_with f l) (f x).
Proof. induction l as [|y l IH]; simpl; [lia|]. rewrite IH. lia. Qed.

(** The invariant of the loop over the rows: counts are positive and only
    appear once a row was counted; a count is bounded by the number of
    increments, and by the number of counted rows times the largest number
    of increments of one row. *)
Lemma over_records_bounds
    (per_record : dict V -> dict V -> result (list K))
    (weight : row (V := V) -> nat) (records : list row) :
  (forall s m ks, per_record s m = Ok ks -> length ks <= weight (Some s, Some m)) ->
  forall k : K,
    (forall n, (over_records per_record records).1 !! k = Some n ->
               0 < n /\ 0 < (over_records per_record records).2) /\
    default 0 ((over_records per_record records).1 !! k)
      <= sum_list_with weight records /\
    default 0 ((over_records per_record records).1 !! k)
      <= (over_records per_record records).2 * max_list_with weight records.
Proof.
  intros Hweight. unfold over_records.
  induction records as [|r records IH] using rev_ind; intros k.
  { simpl. rewrite lookup_empty. simpl. repeat split; [done|done|lia|lia]. }
  rewrite foldl_app, sum_list_with_app, max_list_with_snoc. simpl.
  destruct (foldl _ _ records) as [freq total] eqn:Hfold. simpl in IH.
  assert (forall k n, freq !! k = Some n -> 0 < n) as Hpos.
  { intros k' n Hn. by apply (IH k'). }
  destruct (IH k) as (H1 & H2 & H3).
  assert (total * max_list_with weight records
          <= total * Nat.max (max_list_with weight records) (weight r)) as Hmono.
  { apply Nat.mul_le_mono_l. lia. }
  destruct r as [[s|] [m|]]; simpl; try (split; [done|]; split; lia).
  destruct (per_record s m) as [ks|e] eqn:Hrec; simpl;
    try (split; [done|]; split; lia).
  pose proof (Hweight s m ks Hrec) as Hlen.
  pose proof (foldl_bump_le freq ks k) as Hle.
  split; [|split].
  - intros n Hn. split; [|lia]. by eapply foldl_bump_positive.
  - lia.
  - rewrite Nat.mul_add_distr_r. lia.
Qed.
End OverRecords.

(** ** [values_sequence_from_dict] and [grade_answers] *)

Section GradingFacts.
Context {V : Type} `{EqDecision V}.
Implicit Types (d standard_answers student_answers : dict V).

Lemma traverse_int_Raise (l : list string) e :
  traverse Py.int l = Raise e -> e = ValueError.
Proof. intros (k & _ & Hk)%traverse_Raise. by eapply int_Raise. Qed.

Lemma traverse_getitem_Raise {A} d (f : A -> string) (l : list A) e :
  traverse (fun x => getitem d (f x)) l = Raise e ->
  e = KeyError /\ exists x, x ∈ l /\ f x ∉ keys d.
Proof.
  intros (x & Hx & [-> Hnot]%getitem_Raise)%traverse_Raise. eauto.
Qed.

(** The [except] branch: every key is looked up as it is. *)
Lemma lexicographic_values_total d :
  exists vs, traverse (fun k => getitem d k) (Py.sorted_str (keys d)) = Ok vs.
Proof.
  apply traverse_total. intros k Hk. rewrite elem_of_sorted_str in Hk.
  by apply getitem_Ok.
Qed.

Lemma values_sequence_from_dict_unfold d :
  values_sequence_from_dict true d =
  match traverse Py.int (keys d) with
  | Ok ks => traverse (fun k => getitem d (Py.str k)) (Py.sorted_int ks)
  | Raise _ => traverse (fun k => getitem d k) (Py.sorted_str (keys d))
  end.
Proof.
  unfold values_sequence_from_dict, try_except_value_type.
  destruct (traverse Py.int (keys d)) as [ks|e] eqn:Hks; simpl.
  - destruct (traverse _ (Py.sorted_int ks)) as [vs|e] eqn:Hvs; [done|].
    by apply traverse_getitem_Raise in Hvs as [-> _].
  - by apply traverse_int_Raise in Hks as ->.
Qed.

Lemma values_sequence_from_dict_Raise order_by_key d e :
  values_sequence_from_dict order_by_key d = Raise e ->
  e = KeyError /\ order_by_key = true /\
  exists ks z, traverse Py.int (keys d) = Ok ks /\ z ∈ ks /\ Py.str z ∉ keys d.
Proof.
  destruct order_by_key; [|done].
  rewrite values_sequence_from_dict_unfold.
  destruct (traverse Py.int (keys d)) as [ks|e'] eqn:Hks.
  - intros [-> (z & Hz & Hnot)]%traverse_getitem_Raise.
    rewrite elem_of_sorted_int in Hz. eauto 10.
  - destruct (lexicographic_values_total d) as [vs ->]. done.
Qed.

Lemma values_sequence_from_dict_length order_by_key d vs :
  values_sequence_from_dict order_by_key d = Ok vs -> length vs = length d.
Proof.
  destruct order_by_key.
  - rewrite values_sequence_from_dict_unfold.
    destruct (traverse Py.int (keys d)) as [ks|e'] eqn:Hks.
    + intros ->%traverse_Ok_length. apply traverse_Ok_length in Hks.
      rewrite length_sorted_int, Hks. unfold keys. by rewrite length_fmap.
    + intros ->%traverse_Ok_length.
      rewrite length_sorted_str. unfold keys. by rewrite length_fmap.
  - intros [= <-]. unfold values. by rewrite length_fmap.
Qed.

Lemma key_statistics_Raise student_answers standard_answers e :
  key_statistics student_answers standard_answers = Raise e -> e = KeyError.
Proof.
  unfold key_statistics, try_except_else.
  destruct (traverse Py.int (keys standard_answers)) as [sk|e1] eqn:Hsk; simpl.
  - destruct (traverse Py.int (keys student_answers)) as [tk|e2] eqn:Htk; simpl.
    + intros [Hr|(hits & _ & Hr)]%bind_Raise; [|done].
      apply traverse_Raise in Hr as (key & _ & Hr).
      destruct (contains student_answers (Py.str key)); [|done].
      apply bind_Raise in Hr as [Hr|(a & _ & Hr)].
      * by apply getitem_Raise in Hr as [-> _].
      * apply bind_Raise in Hr as [Hr|(b & _ & Hr)]; [|done].
        by apply getitem_Raise in Hr as [-> _].
    + by apply traverse_int_Raise in Htk as ->.
  - by apply traverse_int_Raise in Hsk as ->.
Qed.

Lemma key_statistics_total student_answers standard_answers :
  (forall k z, k ∈ keys standard_answers -> Py.parse_int k = Some z -> Py.str z = k) ->
  exists st, key_statistics student_answers standard_answers = Ok st.
Proof.
  intros Hcanon. unfold key_statistics, try_except_else.
  destruct (traverse Py.int (keys standard_answers)) as [sk|e1] eqn:Hsk; simpl.
  2: { apply traverse_int_Raise in Hsk as ->. by eexists. }
  destruct (traverse Py.int (keys student_answers)) as [tk|e2] eqn:Htk; simpl.
  2: { apply traverse_int_Raise in Htk as ->. by eexists. }
  match goal with |- context [traverse ?f ?l] =>
    destruct (traverse_total f l) as [hits ->]; [|by eexists] end.
  intros key Hkey. rewrite elem_of_sorted_int in Hkey.
  destruct (traverse_Ok_elem_of_r _ _ _ _ Hsk Hkey) as (k & Hk & Hkz%int_Ok).
  destruct (contains student_answers (Py.str key)) eqn:Hc; [|by eexists].
  apply contains_true in Hc.
  destruct (getitem_Ok student_answers _ Hc) as [a ->].
  destruct (getitem_Ok standard_answers (Py.str key)) as [b ->].
  { by rewrite (Hcanon k key). }
  by eexists.
Qed.

(** A [KeyError] comes from a key that [str(int(k))] does not print back. *)
Lemma values_sequence_from_dict_Raise_key order_by_key d e :
  values_sequence_from_dict order_by_key d = Raise e ->
  exists k z, k ∈ keys d /\ Py.parse_int k = Some z /\ Py.str z <> k.
Proof.
  intros (_ & _ & ks & z & Hks & Hz & Hnot)%values_sequence_from_dict_Raise.
  destruct (traverse_Ok_elem_of_r _ _ _ _ Hks Hz) as (k & Hk & Hkz%int_Ok).
  exists k, z. split; [done|]. split; [done|].
  intros Heq. apply Hnot. by rewrite Heq.
Qed.

Lemma key_statistics_Raise_key student_answers standard_answers e :
  key_statistics student_answers standard_answers = Raise e ->
  exists k z, k ∈ keys standard_answers /\ Py.parse_int k = Some z /\ Py.str z <> k.
Proof.
  unfold key_statistics, try_except_else.
  destruct (traverse Py.int (keys standard_answers)) as [sk|e1] eqn:Hsk; simpl.
  2: { by apply traverse_int_Raise in Hsk as ->. }
  destruct (traverse Py.int (keys student_answers)) as [tk|e2] eqn:Htk; simpl.
  2: { by apply traverse_int_Raise in Htk as ->. }
  intros [Hr|(hits & _ & Hr)]%bind_Raise; [|done].
  apply traverse_Raise in Hr as (key & Hkey & Hr).
  rewrite elem_of_sorted_int in Hkey.
  destruct (traverse_Ok_elem_of_r _ _ _ _ Hsk Hkey) as (k & Hk & Hkz%int_Ok).
  exists k, key. split; [done|]. split; [done|]. intros Heq.
  rewrite Heq in Hr.
  destruct (contains student_answers k) eqn:Hc; [|done].
  apply contains_true in Hc.
  destruct (getitem_Ok student_answers _ Hc) as [a Ha].
  destruct (getitem_Ok standard_answers _ Hk) as [b Hb].
  by rewrite Ha, Hb in Hr.
Qed.

End GradingFacts.

(** The empty answer set gives the empty sequence, only
    [KeyError] can leave the function, and it cannot when every key is
    printed back unchanged by [str(int(k))]. *)
Lemma values_sequence_from_dict_empty {V : Type} (order_by_key : bool) :
  values_sequence_from_dict order_by_key ([] : dict V) = Ok [].
Proof. by destruct order_by_key. Qed.

Lemma values_sequence_from_dict_total {V : Type} `{EqDecision V}
    (order_by_key : bool) (d : dict V) :
  (forall k z, k ∈ keys d -> Py.parse_int k = Some z -> Py.str z = k) ->
  exists vs, values_sequence_from_dict order_by_key d = Ok vs.
Proof.
  intros Hcanon.
  destruct (values_sequence_from_dict order_by_key d) as [vs|e] eqn:Hvs;
    [by eexists|].
  apply values_sequence_from_dict_Raise in Hvs as (_ & _ & ks & z & Hks & Hz & Hnot).
  destruct (traverse_Ok_elem_of_r _ _ _ _ Hks Hz) as (k & Hk & Hkz%int_Ok).
  destruct Hnot. by rewrite (Hcanon k z).
Qed.

(** [grade_answers] returns on every pair of answer sets whose keys, where
    they parse, are printed back unchanged by [str(int(k))]. *)
Lemma grade_answers_total {V : Type} `{EqDecision V}
    (student_answers standard_answers : dict V)
    (allow_transposition order_by_key : bool) :
  (forall k z, k ∈ keys standard_answers -> Py.parse_int k = Some z -> Py.str z = k) ->
  (forall k z, k ∈ keys student_answers -> Py.parse_int k = Some z -> Py.str z = k) ->
  exists g, grade_answers student_answers standard_answers
                          allow_transposition order_by_key = Ok g.
Proof.
  intros Hstd Hstu.
  destruct standard_answers as [|s0 standard_answers]; [by eexists|].
  destruct student_answers as [|t0 student_answers]; [by eexists|].
  unfold grade_answers.
  destruct (values_sequence_from_dict_total order_by_key _ Hstd) as [s1 ->].
  destruct (values_sequence_from_dict_total order_by_key _ Hstu) as [s2 ->].
  simpl.
  destruct (key_statistics_total (t0 :: student_answers) _ Hstd)
    as [[[[c m] x] w] ->].
  by eexists.
Qed.

Lemma probability_of_le (f t h : nat) :
  f <= t * h -> (probability_of f t <= 100 * inject_Z (Z.of_nat h))%Q.
Proof.
  intros Hfh. unfold probability_of.
  assert (0 <= inject_Z (Z.of_nat h))%Q as Hh.
  { change 0%Q with (inject_Z 0). rewrite <- Zle_Qle. lia. }
  destruct (0 <? t) eqn:Ht; [|lra].
  apply Nat.ltb_lt in Ht.
  assert (0 < inject_Z (Z.of_nat t))%Q as Hpos.
  { change 0%Q with (inject_Z 0). rewrite <- Zlt_Qlt. lia. }
  assert (inject_Z (Z.of_nat f) / inject_Z (Z.of_nat t)
          <= inject_Z (Z.of_nat h))%Q.
  { apply Qle_shift_div_r; [done|].
    rewrite <- inject_Z_mult, <- Zle_Qle. lia. }
  lra.
Qed.

(** * The claims *)

(** ** C1: the tie-break of the LCS backtrace *)

(** C1 as stated does not hold. For [seq1 = [1, 2]] and [seq2 = [2, 1]] the
    loop starts in the cell [(2, 2)], where [seq1[1] != seq2[1]] and
    [dp[1][2] = dp[2][1] = 1]; the next cell is [(2, 1)], so the row index is
    not decremented, and the index list returned is [[1]], not [[0]]. *)
Lemma backtrace_tie_counterexample :
  bt_cond (BtState 2 2 ([] : list nat)) = true /\
  [1; 2]%Z !! (2 - 1) <> [2; 1]%Z !! (2 - 1) /\
  get2 (lcs_table [1; 2]%Z [2; 1]%Z) (2 - 1) 2
    = get2 (lcs_table [1; 2]%Z [2; 1]%Z) 2 (2 - 1) /\
  bt_body_indices [1; 2]%Z [2; 1]%Z (lcs_table [1; 2]%Z [2; 1]%Z) (BtState 2 2 [])
    <> BtState (2 - 1) 2 [] /\
  bt_body_values [1; 2]%Z [2; 1]%Z (lcs_table [1; 2]%Z [2; 1]%Z) (BtState 2 2 [])
    <> BtState (2 - 1) 2 [] /\
  longest_common_subsequence_with_indices [1; 2]%Z [2; 1]%Z = [1] /\
  longest_common_subsequence [1; 2]%Z [2; 1]%Z = [2%Z].
Proof. vm_compute. repeat split; congruence. Qed.

(** In a cell where the elements differ, the row index is decremented
    exactly when [dp[i-1][j]] is strictly larger than [dp[i][j-1]]. *)
Lemma backtrace_row_move_iff_strict {A : Type} `{EqDecision A}
    (seq1 seq2 : list A) (dp : table) (i j : nat)
    (indices : list nat) (lcs : list A) :
  0 < i ->
  seq1 !! (i - 1) <> seq2 !! (j - 1) ->
  (bt_i (bt_body_indices seq1 seq2 dp (BtState i j indices)) = i - 1
   <-> get2 dp i (j - 1) < get2 dp (i - 1) j) /\
  (bt_i (bt_body_values seq1 seq2 dp (BtState i j lcs)) = i - 1
   <-> get2 dp i (j - 1) < get2 dp (i - 1) j).
Proof.
  intros Hi Hne. unfold bt_body_indices, bt_body_values, gtb. simpl.
  rewrite !bool_decide_eq_false_2 by done.
  destruct (get2 dp i (j - 1) <? get2 dp (i - 1) j) eqn:Hlt; simpl.
  - apply Nat.ltb_lt in Hlt. done.
  - apply Nat.ltb_ge in Hlt. split; split; lia.
Qed.

(** C1, amended: in both backtrace loops, in a cell [(i, j)] with
    [seq1[i-1] != seq2[j-1]] and [dp[i-1][j] = dp[i][j-1]], the tie is broken
    by decrementing the column index [j]; the row index [i] and the output
    are kept. *)
Theorem backtrace_tie_decrements_column {A : Type} `{EqDecision A}
    (seq1 seq2 : list A) (dp : table) (i j : nat)
    (indices : list nat) (lcs : list A) :
  0 < i -> 0 < j ->
  seq1 !! (i - 1) <> seq2 !! (j - 1) ->
  get2 dp (i - 1) j = get2 dp i (j - 1) ->
  bt_body_indices seq1 seq2 dp (BtState i j indices) = BtState i (j - 1) indices /\
  bt_body_values seq1 seq2 dp (BtState i j lcs) = BtState i (j - 1) lcs.
Proof.
  intros _ _ Hne Htie. unfold bt_body_indices, bt_body_values, gtb. simpl.
  rewrite !bool_decide_eq_false_2 by done.
  by rewrite Htie, Nat.ltb_irrefl.
Qed.

(** An instance: the first cell visited for [[1, 2]] and [[2, 1]], in the
    table the two functions fill. *)
Lemma backtrace_tie_decrements_column_witness :
  bt_body_indices [1; 2]%Z [2; 1]%Z (lcs_table [1; 2]%Z [2; 1]%Z) (BtState 2 2 [])
    = BtState 2 (2 - 1) [] /\
  bt_body_values [1; 2]%Z [2; 1]%Z (lcs_table [1; 2]%Z [2; 1]%Z) (BtState 2 2 [])
    = BtState 2 (2 - 1) [].
Proof.
  apply (backtrace_tie_decrements_column [1; 2]%Z [2; 1]%Z
           (lcs_table [1; 2]%Z [2; 1]%Z) 2 2 [] []).
  - lia.
  - lia.
  - vm_compute. congruence.
  - vm_compute. reflexivity.
Defined.

(** ** C2: the interval of a hallucinated key *)

(** C2 as stated does not hold. For [standard = {"0": "A"}] and
    [response = {"5": "X"}] the key 5 is hallucinated and the record has no
    anchor; the loop reaches its [continue] and no interval is emitted. *)
Lemma hallucination_without_interval_counterexample :
  exists a,
    find_anchors [("0", "A")] [("5", "X")] = Ok a /\
    5%Z ∈ hallucination_keys a /\
    hallucination_intervals a = Ok [].
Proof.
  exists (Anchors [0%Z] [5%Z] [] []).
  split; [by vm_compute|]. split; [|by vm_compute].
  change (hallucination_keys (Anchors [0%Z] [5%Z] [] [])) with [5%Z]. by left.
Qed.

(** C2, amended: for every classified record the emitted intervals are, key
    by key in order, those of the hallucinated keys that have one. A
    hallucinated key [h] sits at its (first) position [pos] among the response
    keys; with [left] the nearest anchor before [pos] and [right] the nearest
    anchor after it, [h] gets exactly the interval
    [(left or 0, right or 41)] when at least one of them exists, and none when
    neither does, which is the case exactly when the record has no anchor. *)
Theorem hallucination_interval_emitted {V : Type} `{EqDecision V}
    (standard_answers model_answers : dict V) (a : anchors) :
  find_anchors standard_answers model_answers = Ok a ->
  exists ivs : list (option interval),
    hallucination_intervals a = Ok (emitted ivs) /\
    Forall2 (fun h iv =>
      exists pos left right,
        Py.index (all_model_keys a) h = Ok pos /\
        all_model_keys a !! pos = Some h /\
        nearest_before (all_model_keys a) (lcs a) pos left /\
        nearest_after (all_model_keys a) (lcs a) pos right /\
        iv = match left, right with
             | None, None => None
             | _, _ => Some (default 0%Z left, default 41%Z right)
             end /\
        (iv = None <-> lcs a = []))
      (hallucination_keys a) ivs.
Proof.
  intros Ha.
  assert (forall h, h ∈ hallucination_keys a ->
                    h ∈ all_model_keys a /\ h ∉ standard_keys a) as Hh.
  { intros h Hin. unfold hallucination_keys in Hin.
    apply list_elem_of_filter in Hin as [? ?]. done. }
  destruct (traverse_total (halluc_interval a) (hallucination_keys a)) as [ivs Hivs].
  { intros h [Hin _]%Hh. unfold halluc_interval.
    destruct (index_total (all_model_keys a) h Hin) as [pos ->]. by eexists. }
  exists ivs. split.
  { unfold hallucination_intervals. by rewrite Hivs. }
  eapply traverse_Ok_Forall2_strong; [|exact Hivs].
  intros h iv [Hin Hnot]%Hh. unfold halluc_interval.
  intros (pos & Hpos & <-%mret_Ok)%bind_Ok.
  pose proof (index_Ok _ _ _ Hpos) as [Hat _].
  pose proof (scan_anchor_left (all_model_keys a) (lcs a) pos) as Hleft.
  pose proof (scan_anchor_right (all_model_keys a) (lcs a) pos) as Hright.
  set (left := scan_anchor _ _ (left_positions pos)) in *.
  set (right := scan_anchor _ _ (right_positions pos _)) in *.
  exists pos, left, right. repeat split; try done.
  - by destruct left, right.
  - (* no interval: then no anchor at all *)
    intros Hnone.
    assert (left = None /\ right = None) as [Hl Hr] by (by destruct left, right).
    rewrite Hl in Hleft. rewrite Hr in Hright. simpl in Hleft, Hright.
    destruct (lcs a) as [|x l] eqn:Hlcs; [done|]. exfalso.
    assert (x ∈ lcs a) as Hx by (rewrite Hlcs; by left).
    pose proof (lcs_subseteq _ _ _ _ Ha Hx) as [Hxs Hxc].
    apply (correct_model_keys_subseteq _ _ _ _ Ha) in Hxc.
    apply list_elem_of_lookup in Hxc as [q Hq].
    destruct (Nat.lt_total q pos) as [Hlt|[->|Hgt]].
    + apply (Hleft q x Hlt Hq). by left.
    + congruence.
    + apply (Hright q x Hgt Hq). by left.
  - (* no anchor: then neither scan finds one *)
    intros Hlcs. rewrite Hlcs in Hleft, Hright.
    destruct left as [l|]; simpl in Hleft.
    { destruct Hleft as (_ & _ & _ & []%elem_of_nil & _). }
    destruct right as [r|]; simpl in Hright; [|done].
    destruct Hright as (_ & _ & _ & []%elem_of_nil & _).
Qed.

(** An instance: the anchors 0 and 2 with the hallucinated keys 1 and 3. *)
Lemma hallucination_interval_emitted_witness :
  exists ivs : list (option interval),
    hallucination_intervals (Anchors [0; 2]%Z [0; 1; 2; 3]%Z [0; 2]%Z [0; 2]%Z)
      = Ok (emitted ivs) /\
    Forall2 (fun h iv =>
      exists pos left right,
        Py.index [0; 1; 2; 3]%Z h = Ok pos /\
        [0; 1; 2; 3]%Z !! pos = Some h /\
        nearest_before [0; 1; 2; 3]%Z [0; 2]%Z pos left /\
        nearest_after [0; 1; 2; 3]%Z [0; 2]%Z pos right /\
        iv = match left, right with
             | None, None => None
             | _, _ => Some (default 0%Z left, default 41%Z right)
             end /\
        (iv = None <-> [0; 2]%Z = []))
      (hallucination_keys (Anchors [0; 2]%Z [0; 1; 2; 3]%Z [0; 2]%Z [0; 2]%Z)) ivs.
Proof.
  apply (hallucination_interval_emitted
           [("0", "A"); ("2", "C")]
           [("0", "A"); ("1", "X"); ("2", "C"); ("3", "Y")]
           (Anchors [0; 2]%Z [0; 1; 2; 3]%Z [0; 2]%Z [0; 2]%Z)).
  vm_compute. reflexivity.
Defined.

(** ** C3: Correct, Misorder and Missing *)

(** C3 as stated does not hold for every record with integer-parsable keys.
    With [standard = response = {"-1": "A"}] both keys parse, the key [-1] is
    an anchor (Correct) for [analyze_misorder_errors], and it is counted
    Missing by [analyze_missing_errors], whose test starts with
    [k_str.isdigit()]: the two sets overlap. *)
Lemma classification_partition_counterexample :
  traverse Py.int (keys [("-1", "A")]) = Ok [(-1)%Z] /\
  exists a missing,
    find_anchors [("-1", "A")] [("-1", "A")] = Ok a /\
    missing_keys [("-1", "A")] [("-1", "A")] = Ok missing /\
    (-1)%Z ∈ lcs a /\ (-1)%Z ∈ missing.
Proof.
  split; [by vm_compute|].
  exists (Anchors [(-1)%Z] [(-1)%Z] [(-1)%Z] [(-1)%Z]), [(-1)%Z].
  split; [by vm_compute|]. split; [by vm_compute|].
  split; apply list_elem_of_singleton; done.
Qed.

(** A key that parses without being printed back the same is lost in the
    other direction: with [standard = response = {"01": "A"}] the reference
    key [1] is in none of the three sets. *)
Lemma classification_padded_key_unlabelled :
  find_anchors [("01", "A")] [("01", "A")] = Ok (Anchors [1%Z] [1%Z] [] []) /\
  misorder_keys (Anchors [1%Z] [1%Z] [] []) = [] /\
  missing_keys [("01", "A")] [("01", "A")] = Ok [].
Proof. by vm_compute. Qed.

(** C3, amended: for every record whose reference keys parse as integers
    and whose response keys are canonical (decimal digits only, printed back
    unchanged by [str(int(k))]), the record is classified by both analyses,
    and Correct (the LCS), Misorder and Missing are pairwise disjoint with
    union the reference keys. *)
Theorem classification_partition {V : Type} `{EqDecision V}
    (standard_answers model_answers : dict V) :
  Forall (fun k => is_Some (Py.parse_int k)) (keys standard_answers) ->
  Forall (fun k => canonical_key k = true) (keys model_answers) ->
  exists a missing,
    find_anchors standard_answers model_answers = Ok a /\
    missing_keys standard_answers model_answers = Ok missing /\
    (forall k, k ∈ standard_keys a <->
               k ∈ lcs a \/ k ∈ misorder_keys a \/ k ∈ missing) /\
    (forall k, ~ (k ∈ lcs a /\ k ∈ misorder_keys a)) /\
    (forall k, ~ (k ∈ lcs a /\ k ∈ missing)) /\
    (forall k, ~ (k ∈ misorder_keys a /\ k ∈ missing)).
Proof.
  intros Hstd Hmodel.
  rewrite Forall_forall in Hstd, Hmodel.
  assert (forall k, k ∈ keys model_answers -> is_Some (Py.parse_int k)) as Hparse.
  { intros k Hk. apply Hmodel, canonical_key_spec in Hk as (_ & z & -> & _).
    by eexists. }
  destruct (int_keys_total standard_answers Hstd) as [sk Hsk].
  destruct (int_keys_total model_answers Hparse) as [mk Hmk].
  pose proof (int_keys_Ok _ _ Hsk) as Hsk_in.
  pose proof (int_keys_Ok _ _ Hmk) as Hmk_in.
  (* a parsed response key is printed back as the key it came from *)
  assert (forall k z, k ∈ keys model_answers -> Py.parse_int k = Some z ->
                      Py.str z = k) as Hstr.
  { intros k z Hk Hz.
    apply Hmodel, canonical_key_spec in Hk as (_ & z' & Hz' & Hs). congruence. }
  destruct (select_total (value_correct standard_answers model_answers) mk)
    as [cmk Hcmk].
  { intros k (ks & Hks & Hp)%Hmk_in. apply value_correct_total. intros _.
    by rewrite (Hstr ks k). }
  pose proof (select_Ok _ _ _ Hcmk) as Hcmk_in.
  destruct (correct_keys_total standard_answers model_answers model_answers)
    as [ck Hck]; [done|].
  pose proof (correct_keys_Ok _ _ _ _ Hck) as Hck_in.
  set (a := Anchors sk mk cmk (longest_common_subsequence sk cmk)).
  assert (find_anchors standard_answers model_answers = Ok a) as Ha.
  { unfold find_anchors. rewrite Hsk, Hmk. simpl. by rewrite Hcmk. }
  exists a, (filter (fun key => key ∉ ck) sk).
  split; [done|]. split.
  { unfold missing_keys. rewrite Hsk. simpl. by rewrite Hck. }
  (* the set [correct_keys] holds exactly the value-correct keys *)
  assert (forall k, k ∈ ck <-> k ∈ cmk) as Hsame.
  { intros k. rewrite Hck_in, Hcmk_in, Hmk_in, value_correct_Ok_true. split.
    - intros (ks & Hks & Hd & Hs & Hv & Hp).
      rewrite (Hstr ks k) by done. eauto.
    - intros [(ks & Hks & Hp) [Hs Hv]].
      rewrite (Hstr ks k) in Hs, Hv by done.
      exists ks. split; [done|]. split; [|done].
      by apply Hmodel, canonical_key_spec in Hks as [? _]. }
  (* value-correct keys are reference keys *)
  assert (forall k, k ∈ cmk -> k ∈ sk) as Hsub.
  { intros k [_ [Hs _]%value_correct_Ok_true]%Hcmk_in.
    apply Hsk_in. exists (Py.str k). split; [done|]. apply int_str. }
  assert (forall k, k ∈ lcs a -> k ∈ sk /\ k ∈ cmk) as Hlcs.
  { intros k. by apply (lcs_subseteq standard_answers model_answers a). }
  unfold misorder_keys. simpl. repeat split.
  - intros Hk. destruct (decide (k ∈ ck)) as [Hin|Hout].
    + destruct (decide (k ∈ longest_common_subsequence sk cmk)); [by left|].
      right; left. apply list_elem_of_filter. split; [done|]. by apply Hsame.
    + right; right. by apply list_elem_of_filter.
  - intros [Hk|[Hk|Hk]].
    + by apply Hlcs.
    + apply list_elem_of_filter in Hk as [_ Hk]. by apply Hsub.
    + by apply list_elem_of_filter in Hk as [_ Hk].
  - intros k [Hk1 Hk2]. by apply list_elem_of_filter in Hk2 as [Hk2 _].
  - intros k [Hk1 Hk2]. apply list_elem_of_filter in Hk2 as [Hk2 _].
    apply Hk2, Hsame. by apply Hlcs.
  - intros k [Hk1 Hk2]. apply list_elem_of_filter in Hk1 as [_ Hk1].
    apply list_elem_of_filter in Hk2 as [Hk2 _]. by apply Hk2, Hsame.
Qed.

(** An instance: a padded reference key, a wrong value and a hallucinated
    key in one record. *)
Lemma classification_partition_witness :
  exists a missing,
    find_anchors [("0", "A"); ("01", "B"); ("2", "C")]
                 [("0", "A"); ("1", "X"); ("2", "C"); ("3", "C")] = Ok a /\
    missing_keys [("0", "A"); ("01", "B"); ("2", "C")]
                 [("0", "A"); ("1", "X"); ("2", "C"); ("3", "C")] = Ok missing /\
    (forall k, k ∈ standard_keys a <->
               k ∈ lcs a \/ k ∈ misorder_keys a \/ k ∈ missing) /\
    (forall k, ~ (k ∈ lcs a /\ k ∈ misorder_keys a)) /\
    (forall k, ~ (k ∈ lcs a /\ k ∈ missing)) /\
    (forall k, ~ (k ∈ misorder_keys a /\ k ∈ missing)).
Proof.
  apply (classification_partition
           [("0", "A"); ("01", "B"); ("2", "C")]
           [("0", "A"); ("1", "X"); ("2", "C"); ("3", "C")]).
  - repeat constructor; vm_compute; eauto.
  - repeat constructor.
Defined.

(** ** C4: the swapped record *)

(** C4 does not hold of the code. For [standard = {"0": "A", "1": "B"}] and
    [response = {"0": "B", "1": "A"}] the analyses compare the two values
    under the same key, so no key is value-correct: [correct_model_keys] is
    not [[0, 1]] and the anchors do not have length 1. *)
Lemma swapped_record_counterexample :
  exists a,
    find_anchors [("0", "A"); ("1", "B")] [("0", "B"); ("1", "A")] = Ok a /\
    ~ (forall k, k ∈ correct_model_keys a <-> k ∈ [0; 1]%Z) /\
    length (lcs a) <> 1.
Proof.
  exists (Anchors [0; 1]%Z [0; 1]%Z [] []).
  split; [by vm_compute|]. simpl. split; [|done].
  intros Hall. destruct (Hall 0%Z) as [_ Hin].
  apply elem_of_nil in Hin; [done|]. by left.
Qed.

(** C4, what the code computes at that record: [correct_model_keys] and the
    anchor list are empty, no reference key is counted as misordered, and
    both reference keys, 0 and 1, are counted as missing. The docstring of
    [analyze_misorder_errors] calls misordered a number of the correct
    answer given in the wrong order, and that of [analyze_missing_errors]
    says that order does not matter and a value that appears is not missing:
    both values appear here, swapped. With keys that are printed back
    unchanged the misordered keys are empty for every record
    ([canonical_record_has_no_misorder]). *)
Theorem swapped_record_classification :
  find_anchors [("0", "A"); ("1", "B")] [("0", "B"); ("1", "A")]
    = Ok (Anchors [0; 1]%Z [0; 1]%Z [] []) /\
  misorder_keys (Anchors [0; 1]%Z [0; 1]%Z [] []) = [] /\
  missing_keys [("0", "A"); ("1", "B")] [("0", "B"); ("1", "A")] = Ok [0; 1]%Z.
Proof. by vm_compute. Qed.

(** On the same record [analyze_position_accuracy.analyze_table], which
    aligns the two value sequences, counts one value in order: position 1. *)
Lemma swapped_record_positions :
  PositionAccuracy.record_positions
    [("0", "A"); ("1", "B")] [("0", "B"); ("1", "A")] = Ok [IntKey 1].
Proof. by vm_compute. Qed.

(** ** C5: the accuracy returned by [grade_answers] *)

(** C5: [grade_answers] returns on every pair of answer sets whose keys,
    where they parse, are printed back unchanged by [str(int(k))]. Whenever
    it returns, its accuracy is [(1 - edit_distance / max_length) * 100] for
    the edit distance of the two value sequences and the longer of their
    lengths (0 when that length is 0), and lies between 0 and 100. With an
    empty reference, or an empty response, it returns, and the accuracy is
    0. The only way not to return is the [KeyError] of a failed lookup: then
    both answer sets are non-empty and one of them has a key that parses
    and is not printed back unchanged. (The float is taken as the rational
    it approximates.) *)
Theorem grade_answers_accuracy {V : Type} `{EqDecision V}
    (student_answers standard_answers : dict V)
    (allow_transposition order_by_key : bool) :
  match grade_answers student_answers standard_answers
                      allow_transposition order_by_key with
  | Ok g =>
      total g = length standard_answers /\
      answered_count g = length student_answers /\
      edit_distance g <= Nat.max (total g) (answered_count g) /\
      (accuracy g ==
         accuracy_of (edit_distance g) (Nat.max (total g) (answered_count g)))%Q /\
      (0 <= accuracy g <= 100)%Q /\
      match standard_answers, student_answers with
      | [], _ | _, [] => (accuracy g == 0)%Q
      | _, _ =>
          exists standard_sequence student_sequence,
            values_sequence_from_dict order_by_key standard_answers
              = Ok standard_sequence /\
            values_sequence_from_dict order_by_key student_answers
              = Ok student_sequence /\
            edit_distance g
              = calculate_edit_distance standard_sequence student_sequence
                                        allow_transposition /\
            (accuracy g ==
               (1 - inject_Z (Z.of_nat (edit_distance g))
                    / inject_Z (Z.of_nat (Nat.max (length standard_sequence)
                                                  (length student_sequence))))
               * 100)%Q
      end
  | Raise e =>
      e = KeyError /\ standard_answers <> [] /\ student_answers <> [] /\
      exists k z, (k ∈ keys standard_answers \/ k ∈ keys student_answers) /\
                  Py.parse_int k = Some z /\ Py.str z <> k
  end /\
  ((forall k z, k ∈ keys standard_answers \/ k ∈ keys student_answers ->
                Py.parse_int k = Some z -> Py.str z = k) ->
   exists g, grade_answers student_answers standard_answers
                           allow_transposition order_by_key = Ok g).
Proof.
  split.
  2: { intros Hcanon. apply grade_answers_total; intros k z Hk; apply Hcanon; auto. }
  destruct standard_answers as [|s0 standard_answers].
  { simpl. destruct student_answers; simpl.
    - repeat split; try done.
    - repeat split; try done; try lia.
      symmetry. apply (accuracy_of_full (S _)). }
  destruct student_answers as [|t0 student_answers].
  { simpl. repeat split; try done; try lia.
    symmetry. apply (accuracy_of_full (S _)). }
  unfold grade_answers.
  set (standard := s0 :: standard_answers).
  set (student := t0 :: student_answers).
  destruct (values_sequence_from_dict order_by_key standard)
    as [standard_sequence|e] eqn:Hs; simpl.
  2: { pose proof Hs as (k & z & Hk & Hz & Hne)%values_sequence_from_dict_Raise_key.
       apply values_sequence_from_dict_Raise in Hs as [-> _].
       repeat split; try done. exists k, z. auto. }
  destruct (values_sequence_from_dict order_by_key student)
    as [student_sequence|e] eqn:Ht; simpl.
  2: { pose proof Ht as (k & z & Hk & Hz & Hne)%values_sequence_from_dict_Raise_key.
       apply values_sequence_from_dict_Raise in Ht as [-> _].
       repeat split; try done. exists k, z. auto. }
  destruct (key_statistics student standard) as [[[[c m] x] w]|e] eqn:Hk; simpl.
  2: { pose proof Hk as (k & z & Hk' & Hz & Hne)%key_statistics_Raise_key.
       apply key_statistics_Raise in Hk as ->.
       repeat split; try done. exists k, z. auto. }
  pose proof (values_sequence_from_dict_length _ _ _ Hs) as Hls.
  pose proof (values_sequence_from_dict_length _ _ _ Ht) as Hlt.
  assert (calculate_edit_distance standard_sequence student_sequence
                                  allow_transposition
          <= Nat.max (length standard_sequence) (length student_sequence)) as Hd.
  { rewrite calculate_edit_distance_levenshtein. apply levenshtein_prefix_le_max. }
  unfold sequence_accuracy. rewrite Hls, Hlt in *.
  split; [done|]. split; [done|]. split; [done|]. split; [done|].
  split; [by apply accuracy_of_bounds|].
  exists standard_sequence, student_sequence.
  split; [done|]. split; [done|]. split; [done|].
  rewrite Hls, Hlt. unfold accuracy_of. simpl. reflexivity.
Qed.

(** A response with one of three values right is graded: distance 2 and a
    third of 100. *)
Lemma grade_answers_accuracy_witness :
  exists g,
    grade_answers [("0", "A"); ("1", "X"); ("2", "Y")]
                  [("0", "A"); ("1", "B"); ("2", "C")] false true = Ok g /\
    edit_distance g = 2 /\ (accuracy g == 100 # 3)%Q /\ (0 <= accuracy g <= 100)%Q.
Proof.
  destruct (grade_answers_accuracy
              [("0", "A"); ("1", "X"); ("2", "Y")]
              [("0", "A"); ("1", "B"); ("2", "C")] false true) as [Hg Hret].
  destruct Hret as [g Heq].
  { intros k z Hk.
    assert (k ∈ ["0"; "1"; "2"]) as Hin by (destruct Hk as [Hk|Hk]; exact Hk).
    repeat (apply elem_of_cons in Hin as [->|Hin];
            [by vm_compute; intros [= <-]|]).
    by apply elem_of_nil in Hin. }
  exists g. rewrite Heq in Hg. split; [done|].
  destruct Hg as (_ & _ & _ & _ & Hb & _).
  vm_compute in Heq. injection Heq as <-.
  split; [done|]. split; [done|]. done.
Defined.

(** The two early returns, spelled out: an empty reference, or an empty
    response, is graded 0 and nothing is raised. *)
Lemma grade_answers_empty {V : Type} `{EqDecision V}
    (d : dict V) (allow_transposition order_by_key : bool) :
  grade_answers d [] allow_transposition order_by_key
    = Ok (Grade 0 (length d) 0 0 (length d) 0 (length d) 0) /\
  (d <> [] ->
   grade_answers [] d allow_transposition order_by_key
     = Ok (Grade 0 0 (length d) 0 (length d) (length d) 0 0)).
Proof. split; [done|]. by destruct d. Qed.

(** ** C6: the probability of an interval row *)

(** C6 as stated does not hold. One record,
    [standard = {"0": "A"}] and [response = {"0": "A", "5": "X", "6": "Y"}],
    has two hallucinated keys after its only anchor: the interval [(0, 41)]
    is incremented twice while one record is counted, and the row carries
    the probability 200. *)
Lemma interval_probability_counterexample :
  analyze_hallucination_errors
    [(Some [("0", "A")], Some [("0", "A"); ("5", "X"); ("6", "Y")])]
    = ({[ (0%Z, 41%Z) := 2 ]}, 1) /\
  insert_interval_error_stats {[ (0%Z, 41%Z) := 2 ]} 1
    = [IntervalRow 0 41 2 (probability_of 2 1) 1] /\
  ~ (probability_of 2 1 <= 100)%Q /\
  ~ 2 <= 1.
Proof.
  split; [by vm_compute|]. split.
  { unfold insert_interval_error_stats. by rewrite map_to_list_singleton. }
  split; [by vm_compute|lia].
Qed.

(** C6, amended: every interval row written for a batch carries the
    batch's [total_records], which is positive, a positive frequency and the
    probability [frequency / total_records * 100], which is not negative. The
    frequency never exceeds the number of hallucinated keys of the classified
    records, nor [total_records] times the largest number [h] of hallucinated
    keys in one classified record; so the probability is at most [100 * h]:
    at most 100 when no record has more than one hallucinated key. *)
Theorem interval_row_probability {V : Type} `{EqDecision V}
    (records : list (row (V := V))) (r : interval_row) :
  r ∈ insert_interval_error_stats (analyze_hallucination_errors records).1
                                  (analyze_hallucination_errors records).2 ->
  row_total_records r = (analyze_hallucination_errors records).2 /\
  0 < row_total_records r /\
  0 < frequency r /\
  (probability r == inject_Z (Z.of_nat (frequency r))
                    / inject_Z (Z.of_nat (row_total_records r)) * 100)%Q /\
  (0 <= probability r)%Q /\
  frequency r
    <= sum_list_with (fun rec => length (record_hallucinations rec)) records /\
  frequency r
    <= row_total_records r
       * max_list_with (fun rec => length (record_hallucinations rec)) records /\
  (probability r
   <= 100 * inject_Z (Z.of_nat (max_list_with
                (fun rec => length (record_hallucinations rec)) records)))%Q.
Proof.
  unfold insert_interval_error_stats, analyze_hallucination_errors.
  set (per_record := fun s m : dict V => a ← find_anchors s m; hallucination_intervals a).
  intros ([[key_from key_to] f] & -> & Hf%elem_of_map_to_list)%list_elem_of_fmap.
  simpl.
  destruct (over_records_bounds per_record
              (fun rec => length (record_hallucinations rec)) records)
    with (k := (key_from, key_to)) as (Hpos & Hsum & Hmax).
  { intros s m ks. unfold per_record, record_hallucinations.
    intros (a & -> & Hks)%bind_Ok. unfold hallucination_intervals in Hks.
    apply bind_Ok in Hks as (ivs & Hivs%traverse_Ok_length & <-%mret_Ok).
    rewrite <- Hivs. apply length_emitted. }
  destruct (Hpos f Hf) as [Hfpos Htotal].
  rewrite Hf in Hsum, Hmax. simpl in Hsum, Hmax.
  split; [done|]. split; [done|]. split; [done|]. split.
  { unfold probability_of. apply Nat.ltb_lt in Htotal. by rewrite Htotal. }
  split; [apply probability_of_nonneg|]. split; [done|]. split; [done|].
  by apply probability_of_le.
Qed.

(** An instance: two records, each with one hallucinated key after the
    anchor 0; the row of the interval [(0, 41)] has probability 100. *)
Lemma interval_row_probability_witness :
  row_total_records (IntervalRow 0 41 2 (probability_of 2 2) 2)
    = (analyze_hallucination_errors
         [(Some [("0", "A")], Some [("0", "A"); ("5", "X")]);
          (Some [("0", "A")], Some [("0", "A"); ("7", "Y")])]).2 /\
  0 < 2 /\ 0 < 2 /\
  (probability_of 2 2 == inject_Z (Z.of_nat 2) / inject_Z (Z.of_nat 2) * 100)%Q /\
  (0 <= probability_of 2 2)%Q /\
  2 <= sum_list_with (fun rec => length (record_hallucinations rec))
         [(Some [("0", "A")], Some [("0", "A"); ("5", "X")]);
          (Some [("0", "A")], Some [("0", "A"); ("7", "Y")])] /\
  2 <= 2 * max_list_with (fun rec => length (record_hallucinations rec))
             [(Some [("0", "A")], Some [("0", "A"); ("5", "X")]);
              (Some [("0", "A")], Some [("0", "A"); ("7", "Y")])] /\
  (probability_of 2 2
   <= 100 * inject_Z (Z.of_nat (max_list_with
                (fun rec => length (record_hallucinations rec))
                [(Some [("0", "A")], Some [("0", "A"); ("5", "X")]);
                 (Some [("0", "A")], Some [("0", "A"); ("7", "Y")])])))%Q.
Proof.
  apply (interval_row_probability
           [(Some [("0", "A")], Some [("0", "A"); ("5", "X")]);
            (Some [("0", "A")], Some [("0", "A"); ("7", "Y")])]
           (IntervalRow 0 41 2 (probability_of 2 2) 2)).
  replace (analyze_hallucination_errors
             [(Some [("0", "A")], Some [("0", "A"); ("5", "X")]);
              (Some [("0", "A")], Some [("0", "A"); ("7", "Y")])])
    with (({[ (0%Z, 41%Z) := 2 ]} : gmap interval nat), 2) by (by vm_compute).
  unfold insert_interval_error_stats. simpl.
  rewrite map_to_list_singleton. simpl. by left.
Defined.

(** ** C7: [values_sequence_from_dict] can raise *)

(** C7 fails on the code: for [{"01": "A"}] the key parses to 1, the lookup
    of ["1"] fails, and the [KeyError] is not among the handled exceptions:
    the function raises, and so does [grade_answers]. *)
Theorem values_sequence_from_dict_raises :
  traverse Py.int (keys [("01", "A")]) = Ok [1%Z] /\
  values_sequence_from_dict true [("01", "A")] = Raise KeyError /\
  grade_answers [("0", "A")] [("01", "A")] true true = Raise KeyError.
Proof. by vm_compute. Qed.

(** ** C8: numeric order needs more than parsable keys *)

(** C8 fails on the code: the keys of [{"1": "A", "01": "B"}] both parse as
    the integer 1, and the sequence returned is [["A", "A"]]: the value of
    ["01"] is not in it. With [{"01": "A", "2": "B"}], whose keys parse as 1
    and 2, no sequence is returned at all: the function raises [KeyError]. *)
Theorem parsable_keys_without_sequence :
  traverse Py.int (keys [("1", "A"); ("01", "B")]) = Ok [1; 1]%Z /\
  values_sequence_from_dict true [("1", "A"); ("01", "B")] = Ok ["A"; "A"] /\
  traverse Py.int (keys [("01", "A"); ("2", "B")]) = Ok [1; 2]%Z /\
  values_sequence_from_dict true [("01", "A"); ("2", "B")] = Raise KeyError.
Proof. by vm_compute. Qed.

(** What does hold: the choice between the two orders is made once for the
    whole answer set. When one key fails to parse, every value is taken in
    the lexicographic order of the keys; when every key parses, the
    function either returns the values in ascending order of the parsed keys
    or raises, and it returns when the keys are printed back unchanged. *)
Lemma values_sequence_lexicographic_fallback {V : Type} `{EqDecision V}
    (d : dict V) (k : string) :
  k ∈ keys d -> Py.parse_int k = None ->
  exists vs,
    values_sequence_from_dict true d = Ok vs /\
    Forall2 (fun k v => get d k = Some v) (Py.sorted_str (keys d)) vs /\
    StronglySorted String.le (Py.sorted_str (keys d)) /\
    Py.sorted_str (keys d) ≡ₚ keys d.
Proof.
  intros Hk Hnone. rewrite values_sequence_from_dict_unfold.
  destruct (traverse_raises Py.int (keys d) k ValueError Hk) as [e ->].
  { unfold Py.int. by rewrite Hnone. }
  destruct (lexicographic_values_total d) as [vs Hvs]. exists vs.
  split; [done|]. split.
  - eapply traverse_Ok_Forall2_strong; [|exact Hvs].
    intros k' v _. by apply getitem_Ok_get.
  - split; [apply StronglySorted_merge_sort; apply _|apply merge_sort_Permutation].
Qed.

Lemma values_sequence_numeric_order {V : Type} `{EqDecision V}
    (d : dict V) (ks : list Z) :
  traverse Py.int (keys d) = Ok ks ->
  StronglySorted Z.le (Py.sorted_int ks) /\
  Py.sorted_int ks ≡ₚ ks /\
  match values_sequence_from_dict true d with
  | Ok vs => Forall2 (fun z v => get d (Py.str z) = Some v) (Py.sorted_int ks) vs
  | Raise e => e = KeyError /\ exists z, z ∈ ks /\ Py.str z ∉ keys d
  end.
Proof.
  intros Hks.
  split; [apply StronglySorted_merge_sort; apply _|].
  split; [apply merge_sort_Permutation|].
  rewrite values_sequence_from_dict_unfold, Hks.
  destruct (traverse _ (Py.sorted_int ks)) as [vs|e] eqn:Hvs.
  - eapply traverse_Ok_Forall2_strong; [|exact Hvs].
    intros z v _. by apply getitem_Ok_get.
  - apply traverse_getitem_Raise in Hvs as [-> (z & Hz & Hnot)].
    rewrite elem_of_sorted_int in Hz. eauto.
Qed.

(** ** C9: the distance is a metric *)

(** C9: without transposition, [calculate_edit_distance] vanishes on equal
    arguments (and the accuracy of a non-empty sequence against itself is
    100), is symmetric, and satisfies the triangle inequality. *)
Theorem calculate_edit_distance_metric {A : Type} `{EqDecision A} :
  (forall s : list A, calculate_edit_distance s s false = 0) /\
  (forall (x : A) (s : list A),
     (sequence_accuracy (x :: s) (x :: s) false == 100)%Q) /\
  (forall a b : list A,
     calculate_edit_distance a b false = calculate_edit_distance b a false) /\
  (forall a b c : list A,
     calculate_edit_distance a c false
     <= calculate_edit_distance a b false + calculate_edit_distance b c false).
Proof.
  repeat split.
  - intros s. rewrite calculate_edit_distance_levenshtein.
    apply levenshtein_prefix_self.
  - intros x s. unfold sequence_accuracy.
    rewrite calculate_edit_distance_levenshtein.
    unfold levenshtein. rewrite levenshtein_prefix_self.
    rewrite Nat.max_id. apply accuracy_of_zero_distance.
  - intros a b. rewrite !calculate_edit_distance_levenshtein.
    apply levenshtein_prefix_sym.
  - intros a b c. rewrite !calculate_edit_distance_levenshtein.
    apply levenshtein_prefix_triangle.
Qed.

(** ** C10: the transposition flag *)

(** C10: whatever [allow_transposition] is, [calculate_edit_distance]
    returns the classical Levenshtein distance; in particular the flag and
    its negation give the same result. *)
Theorem allow_transposition_inert {A : Type} `{EqDecision A}
    (seq1 seq2 : list A) (b : bool) :
  calculate_edit_distance seq1 seq2 b = levenshtein seq1 seq2 /\
  calculate_edit_distance seq1 seq2 b = calculate_edit_distance seq1 seq2 (negb b).
Proof.
  split; by rewrite !calculate_edit_distance_levenshtein.
Qed.

(** With the flag at its default [True], a swapped pair still costs 2; the
    rule kept in the string literal would have made it 1. *)
Example swapped_pair_costs_two :
  calculate_edit_distance ["a"; "b"] ["b"; "a"] true = 2 /\
  damerau_edit_distance ["a"; "b"] ["b"; "a"] = 1.
Proof. vm_compute. done. Qed.

(** * Further properties *)

(** ** The edit distance *)

Section EditDistanceMore.
Context {A : Type} `{EqDecision A}.

Lemma levenshtein_prefix_zero (a b : list A) i j :
  i <= length a -> j <= length b ->
  levenshtein_prefix a b i j = 0 -> i = j /\ take i a = take j b.
Proof.
  revert j. induction i as [|i IH]; intros j Hi Hj.
  { simpl. intros ->. by rewrite !take_0. }
  destruct j as [|j]; [by rewrite levenshtein_prefix_0_r|].
  rewrite levenshtein_prefix_S. unfold min3, subst_cost. intros Hz.
  case_bool_decide as Heq; [|lia].
  destruct (IH j) as [-> Htake]; [lia..|].
  destruct (lookup_lt_is_Some_2 a j ltac:(lia)) as [x Hx].
  destruct (lookup_lt_is_Some_2 b j ltac:(lia)) as [y Hy].
  split; [done|].
  rewrite (take_S_r _ _ _ Hx), (take_S_r _ _ _ Hy), Htake. congruence.
Qed.

(** X1: the distance computed by [calculate_edit_distance] is 0 exactly
    when the two sequences are the same sequence, for either value of the
    flag. *)
Theorem calculate_edit_distance_zero_iff (seq1 seq2 : list A) (allow_transposition : bool) :
  calculate_edit_distance seq1 seq2 allow_transposition = 0 <-> seq1 = seq2.
Proof.
  rewrite calculate_edit_distance_levenshtein. unfold levenshtein. split.
  - intros Hz. apply levenshtein_prefix_zero in Hz as [_ Htake]; [|done..].
    by rewrite !firstn_all in Htake.
  - intros ->. apply levenshtein_prefix_self.
Qed.

(** X2: the distance is at least the difference of the two lengths and at
    most the longer length; against the empty sequence it is the length of
    the other sequence. *)
Theorem calculate_edit_distance_bounds (seq1 seq2 : list A) (allow_transposition : bool) :
  let d := calculate_edit_distance seq1 seq2 allow_transposition in
  length seq1 <= d + length seq2 /\
  length seq2 <= d + length seq1 /\
  d <= Nat.max (length seq1) (length seq2) /\
  calculate_edit_distance seq1 [] allow_transposition = length seq1 /\
  calculate_edit_distance [] seq2 allow_transposition = length seq2.
Proof.
  simpl. rewrite !calculate_edit_distance_levenshtein. unfold levenshtein.
  split; [apply levenshtein_prefix_ge_diff|].
  split; [rewrite levenshtein_prefix_sym; apply levenshtein_prefix_ge_diff|].
  split; [apply levenshtein_prefix_le_max|].
  split; [apply levenshtein_prefix_0_r|done].
Qed.

End EditDistanceMore.

(** ** The edit distance and the longest common subsequence *)

Section DistanceAndLCS.
Context {A : Type} `{EqDecision A}.

Lemma sublist_snoc_r (c l : list A) (x : A) :
  c `sublist_of` l ++ [x] ->
  c `sublist_of` l \/ exists c', c = c' ++ [x] /\ c' `sublist_of` l.
Proof.
  intros (c1 & c2 & -> & H1 & H2)%sublist_app_r.
  apply sublist_cons_r in H2 as [->%sublist_nil_r|(c' & -> & ->%sublist_nil_r)].
  - left. by rewrite app_nil_r.
  - right. by exists c1.
Qed.

(** Some common subsequence of the two prefixes is at most the distance
    shorter than either prefix. *)
Lemma levenshtein_prefix_common (a b : list A) i j :
  i <= length a -> j <= length b ->
  exists c, c `sublist_of` take i a /\ c `sublist_of` take j b /\
            i <= levenshtein_prefix a b i j + length c /\
            j <= levenshtein_prefix a b i j + length c.
Proof.
  revert j. induction i as [|i IHi]; intros j Hi Hj.
  { exists []. simpl. split; [apply sublist_nil_l|]. split; [apply sublist_nil_l|]. lia. }
  induction j as [|j IHj].
  { exists []. rewrite levenshtein_prefix_0_r. simpl.
    split; [apply sublist_nil_l|]. split; [apply sublist_nil_l|]. lia. }
  destruct (lookup_lt_is_Some_2 a i ltac:(lia)) as [x Hx].
  destruct (lookup_lt_is_Some_2 b j ltac:(lia)) as [y Hy].
  rewrite levenshtein_prefix_S. unfold min3.
  destruct (IHi (S j) ltac:(lia) Hj) as (c1 & H1a & H1b & H1i & H1j).
  destruct (IHj ltac:(lia)) as (c2 & H2a & H2b & H2i & H2j).
  destruct (IHi j ltac:(lia) ltac:(lia)) as (c3 & H3a & H3b & H3i & H3j).
  rewrite (take_S_r _ _ _ Hx) in *. rewrite (take_S_r _ _ _ Hy) in *.
  set (l1 := levenshtein_prefix a b i (S j)) in *.
  set (l2 := levenshtein_prefix a b (S i) j) in *.
  set (l3 := levenshtein_prefix a b i j) in *.
  destruct (decide (l1 + 1 <= l2 + 1 /\ l1 + 1 <= l3 + subst_cost a b i j)) as [?|Hn1].
  { exists c1. split; [by apply sublist_inserts_r|]. split; [done|]. lia. }
  destruct (decide (l2 + 1 <= l3 + subst_cost a b i j)) as [?|Hn2].
  { exists c2. split; [done|]. split; [by apply sublist_inserts_r|]. lia. }
  unfold subst_cost in *. case_bool_decide as Heq.
  - exists (c3 ++ [x]). assert (x = y) as <- by congruence.
    split; [by apply sublist_app|]. split; [by apply sublist_app|].
    rewrite length_app. simpl. lia.
  - exists c3. split; [by apply sublist_inserts_r|].
    split; [by apply sublist_inserts_r|]. lia.
Qed.

(** Every common subsequence of the two prefixes leaves at most the
    distance uncovered. *)
Lemma levenshtein_prefix_uncovered (a b : list A) i j c :
  i <= length a -> j <= length b ->
  c `sublist_of` take i a -> c `sublist_of` take j b ->
  levenshtein_prefix a b i j + 2 * length c <= i + j.
Proof.
  revert j c. induction i as [|i IHi]; intros j c Hi Hj.
  { rewrite take_0. intros ->%sublist_nil_r _. simpl. lia. }
  revert c. induction j as [|j IHj]; intros c.
  { rewrite take_0, levenshtein_prefix_0_r. intros _ ->%sublist_nil_r. simpl. lia. }
  destruct (lookup_lt_is_Some_2 a i ltac:(lia)) as [x Hx].
  destruct (lookup_lt_is_Some_2 b j ltac:(lia)) as [y Hy].
  intros Ha Hb.
  pose proof Ha as Ha'. pose proof Hb as Hb'.
  rewrite (take_S_r _ _ _ Hx) in Ha'. rewrite (take_S_r _ _ _ Hy) in Hb'.
  apply sublist_snoc_r in Ha' as [Ha'|(c1 & -> & Hc1)].
  { pose proof (IHi (S j) c ltac:(lia) Hj Ha' Hb).
    pose proof (levenshtein_prefix_step_l a b i (S j)). lia. }
  apply sublist_snoc_r in Hb' as [Hb'|(c2 & Hc & Hc2)].
  { pose proof (IHj ltac:(lia) _ Ha Hb').
    pose proof (levenshtein_prefix_step_r a b (S i) j). lia. }
  apply app_inj_tail in Hc as [<- <-].
  pose proof (IHi j c1 ltac:(lia) ltac:(lia) Hc1 Hc2).
  pose proof (levenshtein_prefix_step_diag a b i j) as Hd.
  unfold subst_cost in Hd. rewrite bool_decide_true in Hd by congruence.
  rewrite length_app. change (length [x]) with 1. lia.
Qed.

Lemma length_longest_common_subsequence_with_indices (seq1 seq2 : list A) :
  length (longest_common_subsequence_with_indices seq1 seq2)
  = length (longest_common_subsequence seq1 seq2).
Proof.
  destruct (longest_common_subsequence_with_indices_correct seq1 seq2) as (_ & _ & Heq).
  apply (f_equal length) in Heq. by rewrite !length_fmap in Heq.
Qed.

(** X3: the distance of [calculate_edit_distance] and the number of indices
    returned by [longest_common_subsequence_with_indices] bound each other:
    the longer length is at most distance plus matches, and distance plus
    twice the matches is at most the sum of the lengths. *)
Theorem edit_distance_and_lcs (seq1 seq2 : list A) (allow_transposition : bool) :
  let d := calculate_edit_distance seq1 seq2 allow_transposition in
  let matched := length (longest_common_subsequence_with_indices seq1 seq2) in
  Nat.max (length seq1) (length seq2) <= d + matched /\
  d + 2 * matched <= length seq1 + length seq2.
Proof.
  intros d matched. unfold d, matched.
  rewrite calculate_edit_distance_levenshtein,
    length_longest_common_subsequence_with_indices.
  unfold levenshtein.
  destruct (longest_common_subsequence_correct seq1 seq2) as (Hs1 & Hs2 & Hopt).
  split.
  - destruct (levenshtein_prefix_common seq1 seq2 (length seq1) (length seq2))
      as (c & Hc1 & Hc2 & Hi & Hj); [done..|].
    rewrite firstn_all in Hc1, Hc2. specialize (Hopt c Hc1 Hc2). lia.
  - apply levenshtein_prefix_uncovered; by rewrite ?firstn_all.
Qed.

End DistanceAndLCS.

(** ** The two longest-common-subsequence functions *)

Section LCSMore.
Context {A : Type} `{EqDecision A}.

Lemma lcs_length_attained (a b : list A) :
  exists c, c `sublist_of` a /\ c `sublist_of` b /\ length c = lcs_length a b.
Proof.
  revert b. induction a as [|x a IHa]; intros b.
  { exists []. split; [done|]. split; [apply sublist_nil_l|done]. }
  induction b as [|y b IHb].
  { exists []. split; [apply sublist_nil_l|]. done. }
  rewrite lcs_length_cons. case_decide as Hxy.
  - subst y. destruct (IHa b) as (c & Ha & Hb & Hlen).
    exists (x :: c). split; [by apply sublist_skip|]. split; [by apply sublist_skip|].
    simpl. lia.
  - destruct (IHa (y :: b)) as (c1 & H1a & H1b & Hlen1).
    destruct IHb as (c2 & H2a & H2b & Hlen2).
    destruct (decide (lcs_length (x :: a) b <= lcs_length a (y :: b))).
    + exists c1. split; [by apply sublist_cons|]. split; [done|]. lia.
    + exists c2. split; [done|]. split; [by apply sublist_cons|]. lia.
Qed.

Lemma sublist_reverse_inv (l k : list A) :
  reverse l `sublist_of` reverse k -> l `sublist_of` k.
Proof.
  intros Hs. apply sublist_reverse in Hs. by rewrite !reverse_involutive in Hs.
Qed.

Lemma length_longest_common_subsequence (seq1 seq2 : list A) :
  length (longest_common_subsequence seq1 seq2)
  = get2 (lcs_table seq1 seq2) (length seq1) (length seq2).
Proof.
  destruct (lcs_table_correct seq1 seq2) as [_ Hdp].
  rewrite Hdp, !firstn_all by done.
  destruct (longest_common_subsequence_correct seq1 seq2) as (Hs1 & Hs2 & Hopt).
  apply Nat.le_antisymm.
  - rewrite <- length_reverse. apply lcs_length_optimal; by apply sublist_reverse.
  - destruct (lcs_length_attained (reverse seq1) (reverse seq2)) as (c & Hc1 & Hc2 & <-).
    rewrite <- (length_reverse c).
    apply Hopt; apply sublist_reverse_inv; by rewrite reverse_involutive.
Qed.

(** X4: [longest_common_subsequence] returns a subsequence of both
    arguments that no common subsequence exceeds in length; its length is
    the last cell of the table, and it is the same for swapped
    arguments. *)
Theorem longest_common_subsequence_longest (seq1 seq2 : list A) :
  let result := longest_common_subsequence seq1 seq2 in
  result `sublist_of` seq1 /\
  result `sublist_of` seq2 /\
  (forall c, c `sublist_of` seq1 -> c `sublist_of` seq2 -> length c <= length result) /\
  length result = get2 (lcs_table seq1 seq2) (length seq1) (length seq2) /\
  length result = length (longest_common_subsequence seq2 seq1).
Proof.
  intros result. unfold result.
  destruct (longest_common_subsequence_correct seq1 seq2) as (Hs1 & Hs2 & Hopt).
  destruct (longest_common_subsequence_correct seq2 seq1) as (Hs1' & Hs2' & Hopt').
  split; [done|]. split; [done|]. split; [done|].
  split; [apply length_longest_common_subsequence|].
  apply Nat.le_antisymm; [by apply Hopt'|by apply Hopt].
Qed.

(** X5: every cell [dp[i][j]] of the table of the two LCS functions holds
    the length of a longest common subsequence of the first [i] elements of
    [seq1] and the first [j] elements of [seq2], and is at most
    [min(i, j)]. *)
Theorem lcs_table_cells (seq1 seq2 : list A) (i j : nat) (c : list A) :
  i <= length seq1 -> j <= length seq2 ->
  (c `sublist_of` take i seq1 -> c `sublist_of` take j seq2 ->
   length c <= get2 (lcs_table seq1 seq2) i j) /\
  (exists c', c' `sublist_of` take i seq1 /\ c' `sublist_of` take j seq2 /\
              length c' = get2 (lcs_table seq1 seq2) i j) /\
  get2 (lcs_table seq1 seq2) i j <= Nat.min i j.
Proof.
  intros Hi Hj. destruct (lcs_table_correct seq1 seq2) as [_ Hdp].
  rewrite Hdp by done.
  assert (exists c', c' `sublist_of` take i seq1 /\ c' `sublist_of` take j seq2 /\
            length c' = lcs_length (reverse (take i seq1)) (reverse (take j seq2)))
    as (c' & Hc1 & Hc2 & Hlen).
  { destruct (lcs_length_attained (reverse (take i seq1)) (reverse (take j seq2)))
      as (c' & Hc1 & Hc2 & Hlen).
    exists (reverse c'). rewrite length_reverse.
    split; [|split; [|done]]; apply sublist_reverse_inv; by rewrite reverse_involutive. }
  split; [|split].
  - intros Hc1' Hc2'. rewrite <- (length_reverse c).
    apply lcs_length_optimal; by apply sublist_reverse.
  - by exists c'.
  - rewrite <- Hlen.
    apply sublist_length in Hc1, Hc2. rewrite length_take in Hc1, Hc2. lia.
Qed.

Lemma ascending_full (l : list nat) (start len : nat) :
  StronglySorted lt l -> Forall (fun k => start <= k < start + len) l ->
  length l = len -> l = seq start len.
Proof.
  revert start len. induction l as [|x l IH]; intros start len Hs Hr Hlen.
  { by subst len. }
  destruct len as [|len]; [done|]. simpl in Hlen.
  apply StronglySorted_inv in Hs as [Hs Hx].
  apply Forall_cons in Hr as [Hx0 Hr].
  assert (l = seq (S start) len) as Hl.
  { apply IH; [done| |lia].
    apply Forall_forall. intros k Hk.
    rewrite Forall_forall in Hx, Hr. specialize (Hx k Hk). specialize (Hr k Hk). lia. }
  simpl. f_equal; [|done].
  destruct len as [|len]; [lia|].
  rewrite Hl in Hx. simpl in Hx. apply Forall_cons in Hx as [Hx _]. lia.
Qed.

(** X6: the indices returned by [longest_common_subsequence_with_indices]
    are strictly increasing positions of [seq1]; the elements there are the
    list returned by [longest_common_subsequence], each occurs in [seq2],
    and there are as many indices as the longest common subsequence has
    elements, at most the shorter length. *)
Theorem longest_common_subsequence_with_indices_positions (seq1 seq2 : list A) :
  let indices := longest_common_subsequence_with_indices seq1 seq2 in
  StronglySorted lt indices /\
  Forall (fun k => k < length seq1) indices /\
  (fun k => seq1 !! k) <$> indices = Some <$> longest_common_subsequence seq1 seq2 /\
  Forall (fun k => exists x, seq1 !! k = Some x /\ x ∈ seq2) indices /\
  length indices <= Nat.min (length seq1) (length seq2) /\
  (forall c, c `sublist_of` seq1 -> c `sublist_of` seq2 -> length c <= length indices).
Proof.
  intros indices. unfold indices.
  destruct (longest_common_subsequence_with_indices_correct seq1 seq2)
    as (Hsorted & Hrange & Helems).
  destruct (longest_common_subsequence_correct seq1 seq2) as (Hs1 & Hs2 & Hopt).
  split; [done|]. split; [done|]. split; [done|]. split; [|split].
  - apply Forall_forall. intros k Hk.
    assert (seq1 !! k ∈ (fun k => seq1 !! k)
              <$> longest_common_subsequence_with_indices seq1 seq2) as Hin.
    { apply list_elem_of_fmap. by exists k. }
    rewrite Helems in Hin. apply list_elem_of_fmap in Hin as (x & Hx & Hin).
    exists x. split; [done|].
    by apply (longest_common_subsequence_elem_of seq1 seq2).
  - rewrite length_longest_common_subsequence_with_indices.
    apply sublist_length in Hs1, Hs2. lia.
  - intros c Hc1 Hc2. rewrite length_longest_common_subsequence_with_indices.
    by apply Hopt.
Qed.

Lemma longest_common_subsequence_self (s : list A) :
  longest_common_subsequence s s = s.
Proof.
  destruct (longest_common_subsequence_correct s s) as (Hs1 & _ & Hopt).
  apply sublist_of_length_eq; [done|]. by apply Hopt.
Qed.

Lemma longest_common_subsequence_with_indices_self (s : list A) :
  longest_common_subsequence_with_indices s s = seq 0 (length s).
Proof.
  destruct (longest_common_subsequence_with_indices_correct s s)
    as (Hsorted & Hrange & _).
  apply ascending_full; [done| |].
  - eapply Forall_impl; [exact Hrange|]. simpl. lia.
  - by rewrite length_longest_common_subsequence_with_indices,
      longest_common_subsequence_self.
Qed.

(** X7: on two equal sequences [longest_common_subsequence] returns the
    sequence itself, and [longest_common_subsequence_with_indices] returns
    every index [0, ..., len - 1]. *)
Theorem longest_common_subsequence_same (s : list A) :
  longest_common_subsequence s s = s /\
  longest_common_subsequence_with_indices s s = seq 0 (length s).
Proof.
  split; [apply longest_common_subsequence_self|].
  apply longest_common_subsequence_with_indices_self.
Qed.

End LCSMore.

(** An instance: the last cell of the table of [[1; 2; 3]] and [[2; 3; 4]]. *)
Lemma lcs_table_cells_witness :
  (([2; 3]%Z : list Z) `sublist_of` take 3 [1; 2; 3]%Z ->
   ([2; 3]%Z : list Z) `sublist_of` take 3 [2; 3; 4]%Z ->
   length ([2; 3]%Z : list Z) <= get2 (lcs_table [1; 2; 3]%Z [2; 3; 4]%Z) 3 3) /\
  (exists c', c' `sublist_of` take 3 [1; 2; 3]%Z /\ c' `sublist_of` take 3 [2; 3; 4]%Z /\
              length c' = get2 (lcs_table [1; 2; 3]%Z [2; 3; 4]%Z) 3 3) /\
  get2 (lcs_table [1; 2; 3]%Z [2; 3; 4]%Z) 3 3 <= Nat.min 3 3.
Proof. apply (lcs_table_cells [1; 2; 3]%Z [2; 3; 4]%Z 3 3 [2; 3]%Z); simpl; lia. Defined.

(** ** The loops over the rows of a table *)

Section FrequencyMore.
Context {K : Type} `{Countable K}.
Implicit Types (freq : gmap K nat) (k : K) (ks : list K).

Lemma foldl_bump_notin freq ks k :
  k ∉ ks -> foldl bump freq ks !! k = freq !! k.
Proof.
  revert freq. induction ks as [|k0 ks IH]; intros freq Hk; simpl; [done|].
  apply not_elem_of_cons in Hk as [Hne Hk].
  rewrite IH by done. rewrite bump_lookup. by rewrite decide_False.
Qed.

Lemma foldl_bump_NoDup freq ks k :
  NoDup ks -> default 0 (foldl bump freq ks !! k) <= default 0 (freq !! k) + 1.
Proof.
  revert freq. induction ks as [|k0 ks IH]; intros freq Hnd; simpl; [lia|].
  apply NoDup_cons in Hnd as [Hk0 Hnd].
  destruct (decide (k0 = k)) as [->|Hne].
  - rewrite foldl_bump_notin by done. rewrite bump_lookup, decide_True by done.
    simpl. lia.
  - etrans; [by apply IH|]. rewrite bump_lookup, decide_False by done. lia.
Qed.

Lemma foldl_bump_nil freq : foldl bump freq [] = freq.
Proof. done. Qed.

Lemma bump_add_counts freq freq' k :
  bump (union_with (fun x y => Some (x + y)) freq freq') k
  = union_with (fun x y => Some (x + y)) freq (bump freq' k).
Proof.
  apply map_eq. intros k'.
  rewrite bump_lookup, !lookup_union_with, bump_lookup.
  case_decide as Hk.
  - subst k'. destruct (freq !! k), (freq' !! k); simpl; f_equal; lia.
  - done.
Qed.

Lemma foldl_bump_add_counts freq freq' ks :
  foldl bump (union_with (fun x y => Some (x + y)) freq freq') ks
  = union_with (fun x y => Some (x + y)) freq (foldl bump freq' ks).
Proof.
  revert freq'. induction ks as [|k ks IH]; intros freq'; simpl; [done|].
  by rewrite bump_add_counts, IH.
Qed.

End FrequencyMore.

Section OverRecordsMore.
Context {V : Type} `{EqDecision V} {K : Type} `{Countable K}.
Implicit Types (per_record : dict V -> dict V -> result (list K)).
Implicit Types (records : list (row (V := V))).

Lemma over_records_snoc per_record records (r : row) :
  over_records per_record (records ++ [r])
  = match row_keys per_record r with
    | Some ks => (foldl bump (over_records per_record records).1 ks,
                  (over_records per_record records).2 + 1)
    | None => over_records per_record records
    end.
Proof.
  unfold over_records, row_keys. rewrite foldl_app. simpl.
  destruct (foldl _ _ records) as [freq total].
  destruct r as [[s|] [m|]]; try done.
  by destruct (per_record s m).
Qed.

Lemma over_records_nil per_record : over_records per_record [] = (∅, 0).
Proof. done. Qed.

Lemma over_records_app per_record records records' :
  over_records per_record (records ++ records')
  = add_counts (over_records per_record records) (over_records per_record records').
Proof.
  induction records' as [|r records' IH] using rev_ind.
  { rewrite app_nil_r, over_records_nil. unfold add_counts. simpl.
    destruct (over_records per_record records) as [freq total]. simpl. f_equal; [|lia].
    apply map_eq. intros k. rewrite lookup_union_with, lookup_empty.
    by destruct (freq !! k). }
  rewrite app_assoc, !over_records_snoc, IH.
  destruct (row_keys per_record r) as [ks|]; [|done].
  unfold add_counts. simpl. f_equal; [|lia].
  apply foldl_bump_add_counts.
Qed.

Lemma add_counts_swap (a b c : gmap K nat * nat) :
  add_counts a (add_counts b c) = add_counts b (add_counts a c).
Proof.
  unfold add_counts. simpl. f_equal; [|lia].
  apply map_eq. intros k. rewrite !lookup_union_with.
  destruct (a.1 !! k), (b.1 !! k), (c.1 !! k); simpl; f_equal; lia.
Qed.

Lemma over_records_Permutation per_record records records' :
  records ≡ₚ records' -> over_records per_record records = over_records per_record records'.
Proof.
  induction 1 as [|r l l' _ IH|r r' l|l l' l'' _ IH1 _ IH2].
  - done.
  - by rewrite (over_records_app _ [r] l), (over_records_app _ [r] l'), IH.
  - rewrite (over_records_app _ [r'] (r :: l)), (over_records_app _ [r] l),
      (over_records_app _ [r] (r' :: l)), (over_records_app _ [r'] l).
    apply add_counts_swap.
  - by rewrite IH1.
Qed.

Lemma over_records_total_le per_record records :
  (over_records per_record records).2 <= length records.
Proof.
  induction records as [|r records IH] using rev_ind; [done|].
  rewrite over_records_snoc, length_app. simpl.
  destruct (row_keys per_record r); simpl; lia.
Qed.

Lemma over_records_NoDup per_record records (k : K) :
  (forall r ks, r ∈ records -> row_keys per_record r = Some ks -> NoDup ks) ->
  default 0 ((over_records per_record records).1 !! k)
  <= (over_records per_record records).2.
Proof.
  induction records as [|r records IH] using rev_ind; intros Hnd.
  { rewrite over_records_nil. simpl. by rewrite lookup_empty. }
  rewrite over_records_snoc.
  assert (default 0 ((over_records per_record records).1 !! k)
          <= (over_records per_record records).2) as Hle.
  { apply IH. intros r' ks Hin. apply Hnd, elem_of_app. by left. }
  destruct (row_keys per_record r) as [ks|] eqn:Hks; [|done]. simpl.
  pose proof (foldl_bump_NoDup (over_records per_record records).1 ks k) as Hb.
  specialize (Hnd r ks ltac:(apply elem_of_app; right; by apply list_elem_of_singleton) Hks).
  specialize (Hb Hnd). lia.
Qed.

Lemma over_records_positive per_record records (k : K) (n : nat) :
  (over_records per_record records).1 !! k = Some n ->
  0 < n /\ 0 < (over_records per_record records).2.
Proof.
  revert k n. induction records as [|r records IH] using rev_ind; intros k n.
  { rewrite over_records_nil. simpl. by rewrite lookup_empty. }
  rewrite over_records_snoc.
  destruct (row_keys per_record r) as [ks|]; [|apply IH]. simpl.
  intros Hn. split; [|lia].
  eapply foldl_bump_positive; [|exact Hn]. intros k' n' Hn'. by apply (IH k' n').
Qed.

Lemma over_records_empty per_record records :
  (forall r ks, r ∈ records -> row_keys per_record r = Some ks -> ks = []) ->
  (over_records per_record records).1 = ∅.
Proof.
  induction records as [|r records IH] using rev_ind; intros Hnil; [done|].
  rewrite over_records_snoc.
  assert ((over_records per_record records).1 = ∅) as Hempty.
  { apply IH. intros r' ks Hin. apply Hnil, elem_of_app. by left. }
  destruct (row_keys per_record r) as [ks|] eqn:Hks; [|done]. simpl.
  rewrite (Hnil r ks) by (done || apply elem_of_app; right; by apply list_elem_of_singleton).
  done.
Qed.

End OverRecordsMore.

Lemma over_records_total_mono {V K K' : Type} `{Countable K} `{Countable K'}
    (per_record : dict V -> dict V -> result (list K))
    (per_record' : dict V -> dict V -> result (list K'))
    (records : list (row (V := V))) :
  (forall r, r ∈ records -> is_Some (row_keys per_record r) ->
             is_Some (row_keys per_record' r)) ->
  (over_records per_record records).2 <= (over_records per_record' records).2.
Proof.
  induction records as [|r records IH] using rev_ind; intros Hr; [done|].
  rewrite !over_records_snoc.
  assert ((over_records per_record records).2 <= (over_records per_record' records).2)
    as Hle.
  { apply IH. intros r' Hin. apply Hr, elem_of_app. by left. }
  specialize (Hr r ltac:(apply elem_of_app; right; by apply list_elem_of_singleton)).
  destruct (row_keys per_record r) as [ks|].
  - destruct (Hr ltac:(done)) as [ks' ->]. simpl. lia.
  - destruct (row_keys per_record' r); simpl; lia.
Qed.

Lemma over_records_total_filter {V K : Type} `{Countable K}
    (per_record : dict V -> dict V -> result (list K))
    (counted : row (V := V) -> bool) (records : list (row (V := V))) :
  (forall r, is_Some (row_keys per_record r) <-> counted r = true) ->
  (over_records per_record records).2
  = length (filter (fun r => counted r = true) records).
Proof.
  intros Hcounted.
  induction records as [|r records IH] using rev_ind; [done|].
  rewrite over_records_snoc, filter_app, length_app, <- IH.
  rewrite filter_cons, filter_nil.
  destruct (row_keys per_record r) as [ks|] eqn:Hks.
  - rewrite decide_True; [simpl; lia|]. apply Hcounted. by rewrite Hks.
  - rewrite decide_False; [simpl; lia|].
    intros Hc. apply Hcounted in Hc. rewrite Hks in Hc. by destruct Hc.
Qed.

(** ** The three error analyses *)

Section AnalysesMore.
Context {V : Type} `{EqDecision V}.
Implicit Types (standard_answers model_answers d : dict V).
Implicit Types (records : list (row (V := V))).

Lemma canonical_dict_spec d :
  canonical_dict d = true <->
  dict_wf d /\ Forall (fun k => canonical_key k = true) (keys d).
Proof.
  unfold canonical_dict, dict_wf, keys.
  rewrite andb_true_iff, bool_decide_eq_true, forallb_forall, Forall_forall.
  split; intros [Hnd Hall]; (split; [done|]);
    intros k Hk; apply Hall; by apply list_elem_of_In.
Qed.

Lemma canonical_dict_printed_back d :
  canonical_dict d = true ->
  forall k z, k ∈ keys d -> Py.parse_int k = Some z -> Py.str z = k.
Proof.
  intros [_ Hall]%canonical_dict_spec k z Hk Hz.
  rewrite Forall_forall in Hall.
  apply Hall, canonical_key_spec in Hk as (_ & z' & Hz' & Hstr). congruence.
Qed.

Lemma canonical_dict_parse d :
  canonical_dict d = true -> forall k, k ∈ keys d -> is_Some (Py.parse_int k).
Proof.
  intros [_ Hall]%canonical_dict_spec k Hk.
  rewrite Forall_forall in Hall.
  apply Hall, canonical_key_spec in Hk as (_ & z' & Hz' & _). by exists z'.
Qed.

Lemma row_keys_Some {K : Type} (per_record : dict V -> dict V -> result (list K))
    (r : row (V := V)) (ks : list K) :
  row_keys per_record r = Some ks <->
  exists standard_answers model_answers,
    r = (Some standard_answers, Some model_answers) /\
    per_record standard_answers model_answers = Ok ks.
Proof.
  unfold row_keys. split.
  - destruct r as [[s|] [m|]]; try done.
    destruct (per_record s m) as [ks'|] eqn:Hks; [|done].
    intros [= <-]. by exists s, m.
  - intros (s & m & -> & ->). done.
Qed.

Lemma missing_keys_counted (r : row (V := V)) :
  is_Some (row_keys missing_keys r) <-> reference_keys_parse r = true.
Proof.
  unfold reference_keys_parse. split.
  - intros [ks (s & m & -> & Hks)%row_keys_Some].
    unfold missing_keys in Hks. apply bind_Ok in Hks as (sk & Hsk & _).
    unfold int_keys in Hsk. apply bind_Ok in Hsk as (zs & Hzs & _).
    apply forallb_forall. intros k Hk%list_elem_of_In.
    destruct (traverse_Ok_elem_of_l _ _ _ _ Hzs Hk) as (z & _ & Hz%int_Ok).
    apply bool_decide_eq_true. by exists z.
  - destruct r as [[s|] [m|]]; try done. intros Hall.
    rewrite forallb_forall in Hall.
    destruct (int_keys_total s) as [sk Hsk].
    { intros k Hk%list_elem_of_In. by apply Hall, bool_decide_eq_true in Hk. }
    destruct (correct_keys_total s m m) as [ck Hck]; [done|].
    unfold row_keys, missing_keys. rewrite Hsk. simpl. rewrite Hck. simpl. by eexists.
Qed.

Lemma misorder_counted_iff_hallucination (r : row (V := V)) :
  is_Some (row_keys (fun s m => a ← find_anchors s m; mret (misorder_keys a)) r) <->
  is_Some (row_keys (fun s m => a ← find_anchors s m; hallucination_intervals a) r).
Proof.
  unfold row_keys. destruct r as [[s|] [m|]]; try done.
  destruct (find_anchors s m) as [a|e]; simpl.
  - destruct (hallucination_intervals_total a) as [ivs ->]. simpl.
    split; by eexists.
  - done.
Qed.

Lemma misorder_counted_missing (r : row (V := V)) :
  is_Some (row_keys (fun s m => a ← find_anchors s m; mret (misorder_keys a)) r) ->
  is_Some (row_keys missing_keys r).
Proof.
  intros [ks (s & m & -> & Hks)%row_keys_Some].
  apply bind_Ok in Hks as (a & Ha & _).
  apply find_anchors_Ok in Ha as (Hsk & _).
  destruct (correct_keys_total s m m) as [ck Hck]; [done|].
  unfold row_keys, missing_keys. rewrite Hsk. simpl. rewrite Hck. simpl. by eexists.
Qed.

(** X8: over the same rows the three analyses of [analyze_errors.py] count
    [total_misorder = total_halluc <= total_missing <= len(records)]; the
    missing analysis counts exactly the rows with two loaded answer sets
    whose reference keys [int] accepts, and the [total_records] printed by
    [analyze_model_errors] is [total_missing]. *)
Theorem analysis_totals records :
  let total_misorder := (analyze_misorder_errors records).2 in
  let total_halluc := (analyze_hallucination_errors records).2 in
  let total_missing := (analyze_missing_errors records).2 in
  total_misorder = total_halluc /\
  total_halluc <= total_missing /\
  total_missing <= length records /\
  total_missing = length (filter (fun r => reference_keys_parse r = true) records) /\
  report_total_records (analyze_model_errors_table records) = total_missing.
Proof.
  intros total_misorder total_halluc total_missing.
  assert (total_misorder = total_halluc) as Heq.
  { apply Nat.le_antisymm; apply over_records_total_mono;
      intros r _; apply misorder_counted_iff_hallucination. }
  assert (total_misorder <= total_missing) as Hle.
  { apply over_records_total_mono. intros r _. apply misorder_counted_missing. }
  split; [done|]. split; [lia|]. split; [apply over_records_total_le|].
  split; [apply over_records_total_filter, missing_keys_counted|].
  unfold analyze_model_errors_table.
  subst total_misorder total_halluc total_missing.
  destruct (analyze_misorder_errors records) as [mf mt].
  destruct (analyze_hallucination_errors records) as [hf ht].
  destruct (analyze_missing_errors records) as [gf gt]. simpl in *. lia.
Qed.

(** X9: each of the four loops over the rows of a table gives on two
    tables put together the sum of its results on the two: frequencies add
    up key by key and so do the numbers of rows counted. *)
Theorem analyses_of_concatenated_tables records records' :
  analyze_misorder_errors (records ++ records')
    = add_counts (analyze_misorder_errors records) (analyze_misorder_errors records') /\
  analyze_hallucination_errors (records ++ records')
    = add_counts (analyze_hallucination_errors records)
                 (analyze_hallucination_errors records') /\
  analyze_missing_errors (records ++ records')
    = add_counts (analyze_missing_errors records) (analyze_missing_errors records') /\
  PositionAccuracy.analyze_table (records ++ records')
    = add_counts (PositionAccuracy.analyze_table records)
                 (PositionAccuracy.analyze_table records').
Proof. repeat split; apply over_records_app. Qed.

(** X10: the result of each of the four loops does not depend on the order
    of the rows. *)
Theorem analyses_ignore_row_order records records' :
  records ≡ₚ records' ->
  analyze_misorder_errors records = analyze_misorder_errors records' /\
  analyze_hallucination_errors records = analyze_hallucination_errors records' /\
  analyze_missing_errors records = analyze_missing_errors records' /\
  PositionAccuracy.analyze_table records = PositionAccuracy.analyze_table records'.
Proof. intros Hperm. repeat split; by apply over_records_Permutation. Qed.

Lemma canonical_row_spec (s m : dict V) :
  canonical_row (Some s, Some m) = true <->
  canonical_dict s = true /\ canonical_dict m = true.
Proof. unfold canonical_row. simpl. apply andb_true_iff. Qed.

(** X11: on a table whose loaded answer sets are canonical (no key twice,
    every key the decimal form [str(int(k))] of a non-negative integer)
    [analyze_misorder_errors] returns an empty frequency table, and
    [analyze_model_errors] writes no misorder row. *)
Theorem canonical_table_has_no_misorder records :
  Forall (fun r => canonical_row r = true) records ->
  (analyze_misorder_errors records).1 = ∅ /\
  misorder_rows (analyze_model_errors_table records) = [].
Proof.
  intros Hcanon.
  assert ((analyze_misorder_errors records).1 = ∅) as Hempty.
  { apply over_records_empty. intros r ks Hr (s & m & -> & Hks)%row_keys_Some.
    rewrite Forall_forall in Hcanon.
    apply Hcanon, canonical_row_spec in Hr
      as [[Hwfs Hs]%canonical_dict_spec [Hwfm Hm]%canonical_dict_spec].
    apply bind_Ok in Hks as (a & Ha & <-%mret_Ok).
    by destruct (canonical_record_has_no_misorder s m Hwfs Hwfm Hs Hm a Ha). }
  split; [done|].
  unfold analyze_model_errors_table.
  destruct (analyze_misorder_errors records) as [mf mt].
  destruct (analyze_hallucination_errors records) as [hf ht].
  destruct (analyze_missing_errors records) as [gf gt]. simpl in *.
  by rewrite decide_True.
Qed.

Lemma StronglySorted_lt_NoDup (l : list Z) : StronglySorted Z.lt l -> NoDup l.
Proof.
  induction 1 as [|x l _ IH Hx]; constructor; [|done].
  intros Hin. rewrite Forall_forall in Hx. specialize (Hx x Hin). lia.
Qed.

Lemma missing_keys_NoDup standard_answers model_answers ks :
  canonical_dict standard_answers = true ->
  missing_keys standard_answers model_answers = Ok ks -> NoDup ks.
Proof.
  intros Hcanon Hks. unfold missing_keys in Hks.
  apply bind_Ok in Hks as (sk & Hsk & Hks).
  apply bind_Ok in Hks as (ck & _ & <-%mret_Ok).
  apply NoDup_filter, StronglySorted_lt_NoDup.
  eapply int_keys_ascending; [|by apply canonical_dict_printed_back|exact Hsk].
  by apply canonical_dict_spec in Hcanon as [? _].
Qed.

(** X12: when the reference answer sets of a table are canonical, every
    row written by [insert_missing_stats] has
    [0 < frequency <= total_records], and its probability
    [frequency / total_records * 100] lies in [[0, 100]]. *)
Theorem missing_row_probability records (r : position_row) :
  Forall (fun rec => canonical_reference rec = true) records ->
  r ∈ missing_rows (analyze_model_errors_table records) ->
  (analyze_missing_errors records).1 !! key_position r = Some (position_frequency r) /\
  position_total_records r = (analyze_missing_errors records).2 /\
  0 < position_frequency r <= position_total_records r /\
  (position_probability r
   == inject_Z (Z.of_nat (position_frequency r))
      / inject_Z (Z.of_nat (position_total_records r)) * 100)%Q /\
  (0 <= position_probability r <= 100)%Q.
Proof.
  intros Hcanon Hr.
  assert (r ∈ insert_missing_stats (analyze_missing_errors records).1
                                   (analyze_missing_errors records).2) as Hin.
  { unfold analyze_model_errors_table in Hr.
    destruct (analyze_misorder_errors records) as [mf mt].
    destruct (analyze_hallucination_errors records) as [hf ht].
    destruct (analyze_missing_errors records) as [gf gt]. simpl in *.
    case_decide; [by apply elem_of_nil in Hr|done]. }
  clear Hr. unfold insert_missing_stats, analyze_missing_errors in *.
  apply list_elem_of_fmap in Hin as ([k f] & -> & Hf%elem_of_map_to_list). simpl.
  destruct (over_records_positive _ _ _ _ Hf) as [Hfpos Htotal].
  pose proof (over_records_NoDup missing_keys records k) as Hle.
  rewrite Hf in Hle. simpl in Hle.
  assert (f <= (over_records missing_keys records).2) as Hftotal.
  { apply Hle. intros rec ks Hrec (s & m & -> & Hks)%row_keys_Some.
    rewrite Forall_forall in Hcanon. apply Hcanon in Hrec.
    unfold canonical_reference in Hrec. simpl in Hrec.
    by eapply missing_keys_NoDup. }
  split; [done|]. split; [done|]. split; [lia|]. split.
  { unfold probability_of. apply Nat.ltb_lt in Htotal. by rewrite Htotal. }
  split; [apply probability_of_nonneg|by apply probability_of_le_100].
Qed.

End AnalysesMore.

(** An instance: two rows, swapped. *)
Lemma analyses_ignore_row_order_witness :
  analyze_misorder_errors
    [(Some [("0", "A"); ("1", "B")], Some [("0", "A")]);
     (Some [("0", "A")], Some [("0", "A"); ("5", "X")])]
  = analyze_misorder_errors
      [(Some [("0", "A")], Some [("0", "A"); ("5", "X")]);
       (Some [("0", "A"); ("1", "B")], Some [("0", "A")])] /\
  analyze_hallucination_errors
    [(Some [("0", "A"); ("1", "B")], Some [("0", "A")]);
     (Some [("0", "A")], Some [("0", "A"); ("5", "X")])]
  = analyze_hallucination_errors
      [(Some [("0", "A")], Some [("0", "A"); ("5", "X")]);
       (Some [("0", "A"); ("1", "B")], Some [("0", "A")])] /\
  analyze_missing_errors
    [(Some [("0", "A"); ("1", "B")], Some [("0", "A")]);
     (Some [("0", "A")], Some [("0", "A"); ("5", "X")])]
  = analyze_missing_errors
      [(Some [("0", "A")], Some [("0", "A"); ("5", "X")]);
       (Some [("0", "A"); ("1", "B")], Some [("0", "A")])] /\
  PositionAccuracy.analyze_table
    [(Some [("0", "A"); ("1", "B")], Some [("0", "A")]);
     (Some [("0", "A")], Some [("0", "A"); ("5", "X")])]
  = PositionAccuracy.analyze_table
      [(Some [("0", "A")], Some [("0", "A"); ("5", "X")]);
       (Some [("0", "A"); ("1", "B")], Some [("0", "A")])].
Proof.
  apply (analyses_ignore_row_order
           [(Some [("0", "A"); ("1", "B")], Some [("0", "A")]);
            (Some [("0", "A")], Some [("0", "A"); ("5", "X")])]
           [(Some [("0", "A")], Some [("0", "A"); ("5", "X")]);
            (Some [("0", "A"); ("1", "B")], Some [("0", "A")])]).
  apply perm_swap.
Defined.

(** An instance: a response with its keys in another order and one
    hallucinated key. *)
Lemma canonical_table_has_no_misorder_witness :
  (analyze_misorder_errors
     [(Some [("0", "A"); ("1", "B"); ("2", "C")],
       Some [("2", "C"); ("0", "A"); ("7", "B")])]).1 = ∅ /\
  misorder_rows (analyze_model_errors_table
     [(Some [("0", "A"); ("1", "B"); ("2", "C")],
       Some [("2", "C"); ("0", "A"); ("7", "B")])]) = [].
Proof.
  apply (canonical_table_has_no_misorder
           [(Some [("0", "A"); ("1", "B"); ("2", "C")],
             Some [("2", "C"); ("0", "A"); ("7", "B")])]).
  repeat constructor.
Defined.

(** An instance: one record that misses the key 1. *)
Lemma missing_row_probability_witness :
  (analyze_missing_errors [(Some [("0", "A"); ("1", "B")], Some [("0", "A")])]).1
    !! key_position (PositionRow 1 1 (probability_of 1 1) 1)
  = Some (position_frequency (PositionRow 1 1 (probability_of 1 1) 1)) /\
  position_total_records (PositionRow 1 1 (probability_of 1 1) 1)
  = (analyze_missing_errors [(Some [("0", "A"); ("1", "B")], Some [("0", "A")])]).2 /\
  0 < position_frequency (PositionRow 1 1 (probability_of 1 1) 1)
    <= position_total_records (PositionRow 1 1 (probability_of 1 1) 1) /\
  (position_probability (PositionRow 1 1 (probability_of 1 1) 1)
   == inject_Z (Z.of_nat (position_frequency (PositionRow 1 1 (probability_of 1 1) 1)))
      / inject_Z (Z.of_nat (position_total_records
                              (PositionRow 1 1 (probability_of 1 1) 1))) * 100)%Q /\
  (0 <= position_probability (PositionRow 1 1 (probability_of 1 1) 1) <= 100)%Q.
Proof.
  apply (missing_row_probability
           [(Some [("0", "A"); ("1", "B")], Some [("0", "A")])]
           (PositionRow 1 1 (probability_of 1 1) 1)).
  - repeat constructor.
  - replace (missing_rows (analyze_model_errors_table
               [(Some [("0", "A"); ("1", "B")], Some [("0", "A")])]))
      with [PositionRow 1 1 (probability_of 1 1) 1] by (by vm_compute).
    by left.
Defined.

(** ** The bounds of a hallucination interval *)

Lemma isdigit_nonneg (k : string) (z : Z) :
  canonical_key k = true -> Py.parse_int k = Some z -> (0 <= z)%Z.
Proof.
  intros (Hdigit & z' & Hz' & Hstr)%canonical_key_spec Hz.
  assert (z' = z) as -> by congruence.
  destruct z as [|p|p]; [done|done|].
  subst k. unfold Py.isdigit in Hdigit. by vm_compute in Hdigit.
Qed.

Lemma ascending_lookup (l : list Z) (i j : nat) (x y : Z) :
  StronglySorted Z.lt l -> l !! i = Some x -> l !! j = Some y -> i < j -> (x < y)%Z.
Proof.
  intros Hs. revert i j. induction Hs as [|z l _ IH Hz]; intros i j Hi Hj Hij.
  { by rewrite lookup_nil in Hi. }
  destruct j as [|j]; [lia|]. simpl in Hj.
  destruct i as [|i]; simpl in Hi.
  - injection Hi as ->. rewrite Forall_forall in Hz.
    apply Hz. by eapply list_elem_of_lookup_2.
  - apply (IH i j); [done..|lia].
Qed.

Section HallucinationBounds.
Context {V : Type} `{EqDecision V}.

Lemma hallucination_interval_origin (a : anchors) (ivs : list interval) (iv : interval) :
  hallucination_intervals a = Ok ivs -> iv ∈ ivs ->
  exists h pos,
    h ∈ hallucination_keys a /\
    all_model_keys a !! pos = Some h /\
    interval_of (scan_anchor (all_model_keys a) (lcs a) (left_positions pos))
                (scan_anchor (all_model_keys a) (lcs a)
                   (right_positions pos (length (all_model_keys a))))
    = Some iv.
Proof.
  unfold hallucination_intervals. intros (oivs & Ho & <-%mret_Ok)%bind_Ok Hiv.
  unfold emitted in Hiv. apply list_elem_of_omap in Hiv as (oiv & Hin & Hoiv).
  simpl in Hoiv. subst oiv.
  destruct (traverse_Ok_elem_of_r _ _ _ _ Ho Hin) as (h & Hh & Hhi).
  unfold halluc_interval in Hhi.
  apply bind_Ok in Hhi as (pos & Hpos & Hiv%mret_Ok).
  apply index_Ok in Hpos as [Hpos _]. by exists h, pos.
Qed.

Lemma hallucination_interval_ordered
    (standard_answers model_answers : dict V) (a : anchors)
    (ivs : list interval) (iv : interval) :
  canonical_dict model_answers = true ->
  Forall (fun k => (k <= 40)%Z) (standard_keys a) ->
  find_anchors standard_answers model_answers = Ok a ->
  hallucination_intervals a = Ok ivs -> iv ∈ ivs ->
  (0 <= iv.1 < iv.2)%Z /\ (iv.2 <= 41)%Z.
Proof.
  intros Hcanon Hbound Ha Hivs Hiv.
  destruct (hallucination_interval_origin a ivs iv Hivs Hiv)
    as (h & pos & Hh & Hpos & Hint).
  pose proof (find_anchors_Ok _ _ _ Ha) as (_ & Hmk & _ & _).
  assert (StronglySorted Z.lt (all_model_keys a)) as Hsorted.
  { eapply int_keys_ascending; [|by apply canonical_dict_printed_back|exact Hmk].
    by apply canonical_dict_spec in Hcanon as [? _]. }
  assert (forall k, k ∈ all_model_keys a -> (0 <= k)%Z) as Hnonneg.
  { intros k Hk. apply (int_keys_Ok _ _ Hmk) in Hk as (ks & Hks & Hparse).
    apply canonical_dict_spec in Hcanon as [_ Hall]. rewrite Forall_forall in Hall.
    by eapply isdigit_nonneg; [apply Hall|]. }
  assert (forall k, k ∈ lcs a -> (0 <= k <= 40)%Z) as Hlcs.
  { intros k Hk. destruct (lcs_subseteq _ _ _ _ Ha Hk) as [Hstd Hcmk].
    rewrite Forall_forall in Hbound. split; [|by apply Hbound].
    apply Hnonneg. by eapply correct_model_keys_subseteq. }
  assert (0 <= h)%Z as Hh0.
  { apply Hnonneg. by eapply list_elem_of_lookup_2. }
  pose proof (scan_anchor_left (all_model_keys a) (lcs a) pos) as Hleft.
  pose proof (scan_anchor_right (all_model_keys a) (lcs a) pos) as Hright.
  destruct (scan_anchor _ _ (left_positions pos)) as [l|];
    destruct (scan_anchor _ _ (right_positions pos _)) as [r|];
    simpl in Hint, Hleft, Hright; try done; injection Hint as <-; simpl.
  - destruct Hleft as (p & Hp & Hpl & Hl & _).
    destruct Hright as (q & Hq & Hqr & Hr & _).
    pose proof (ascending_lookup _ _ _ _ _ Hsorted Hpl Hpos Hp).
    pose proof (ascending_lookup _ _ _ _ _ Hsorted Hpos Hqr Hq).
    pose proof (Hlcs l Hl). pose proof (Hlcs r Hr). lia.
  - destruct Hleft as (p & Hp & Hpl & Hl & _).
    pose proof (Hlcs l Hl). lia.
  - destruct Hright as (q & Hq & Hqr & Hr & _).
    pose proof (ascending_lookup _ _ _ _ _ Hsorted Hpos Hqr Hq).
    pose proof (Hlcs r Hr). lia.
Qed.

End HallucinationBounds.

Lemma over_records_origin {V K : Type} `{Countable K}
    (per_record : dict V -> dict V -> result (list K))
    (records : list (row (V := V))) (k : K) (n : nat) :
  (over_records per_record records).1 !! k = Some n ->
  exists r ks, r ∈ records /\ row_keys per_record r = Some ks /\ k ∈ ks.
Proof.
  induction records as [|r records IH] using rev_ind.
  { rewrite over_records_nil. simpl. by rewrite lookup_empty. }
  rewrite over_records_snoc.
  destruct (row_keys per_record r) as [ks|] eqn:Hks; simpl.
  - intros Hn. destruct (decide (k ∈ ks)) as [Hin|Hnin].
    + exists r, ks. split; [|done]. apply elem_of_app. right. by apply list_elem_of_singleton.
    + rewrite foldl_bump_notin in Hn by done.
      destruct (IH Hn) as (r' & ks' & Hr' & Hks' & Hk).
      exists r', ks'. split; [|done]. apply elem_of_app. by left.
  - intros Hn. destruct (IH Hn) as (r' & ks' & Hr' & Hks' & Hk).
    exists r', ks'. split; [|done]. apply elem_of_app. by left.
Qed.

(** X13: when the response keys of a table are canonical and its reference
    keys are at most 40, every interval row written for the hallucination
    table has [0 <= key_from < key_to <= 41]. *)
Theorem hallucination_rows_ordered {V : Type} `{EqDecision V}
    (records : list (row (V := V))) (r : interval_row) :
  Forall (fun rec => canonical_response rec = true /\
                     reference_keys_up_to 40 rec = true) records ->
  r ∈ hallucination_rows (analyze_model_errors_table records) ->
  (0 <= key_from r < key_to r)%Z /\ (key_to r <= 41)%Z.
Proof.
  intros Hrecords Hr.
  assert (r ∈ insert_interval_error_stats (analyze_hallucination_errors records).1
                                          (analyze_hallucination_errors records).2) as Hin.
  { unfold analyze_model_errors_table in Hr.
    destruct (analyze_misorder_errors records) as [mf mt].
    destruct (analyze_hallucination_errors records) as [hf ht].
    destruct (analyze_missing_errors records) as [gf gt]. simpl in *.
    case_decide; [by apply elem_of_nil in Hr|done]. }
  clear Hr. unfold insert_interval_error_stats, analyze_hallucination_errors in Hin.
  apply list_elem_of_fmap in Hin as ([[kf kt] f] & -> & Hf%elem_of_map_to_list). simpl.
  apply over_records_origin in Hf as (rec & ivs & Hrec & Hivs & Hiv).
  apply row_keys_Some in Hivs as (s & m & -> & Hivs).
  apply bind_Ok in Hivs as (a & Ha & Hivs).
  rewrite Forall_forall in Hrecords. destruct (Hrecords _ Hrec) as [Hm Hs].
  unfold canonical_response in Hm. unfold reference_keys_up_to in Hs. simpl in Hm, Hs.
  apply (hallucination_interval_ordered s m a ivs (kf, kt)); try done.
  apply Forall_forall. intros k Hk.
  pose proof (find_anchors_Ok _ _ _ Ha) as (Hsk & _).
  apply (int_keys_Ok _ _ Hsk) in Hk as (ks & Hks & Hparse).
  rewrite forallb_forall in Hs. apply list_elem_of_In, Hs in Hks.
  rewrite Hparse in Hks. simpl in Hks. by apply bool_decide_eq_true in Hks.
Qed.

(** An instance: one record with the hallucinated key 5 after the anchor 0. *)
Lemma hallucination_rows_ordered_witness :
  (0 <= key_from (IntervalRow 0 41 1 (probability_of 1 1) 1)
     < key_to (IntervalRow 0 41 1 (probability_of 1 1) 1))%Z /\
  (key_to (IntervalRow 0 41 1 (probability_of 1 1) 1) <= 41)%Z.
Proof.
  apply (hallucination_rows_ordered
           [(Some [("0", "A")], Some [("0", "A"); ("5", "X")])]
           (IntervalRow 0 41 1 (probability_of 1 1) 1)).
  - repeat constructor.
  - replace (hallucination_rows (analyze_model_errors_table
               [(Some [("0", "A")], Some [("0", "A"); ("5", "X")])]))
      with [IntervalRow 0 41 1 (probability_of 1 1) 1] by (by vm_compute).
    by left.
Defined.

(** ** Position accuracy *)

Section PositionAccuracyFacts.
Context {V : Type} `{EqDecision V}.
Implicit Types (standard_answers model_answers d : dict V).

Import PositionAccuracy.

Lemma keyed_sequences_Ok standard_answers model_answers standard_keys
    (standard_sequence model_sequence : list V) :
  keyed_sequences standard_answers model_answers
    = Ok (standard_keys, standard_sequence, model_sequence) ->
  (exists sk mk,
     traverse Py.int (keys standard_answers) = Ok sk /\
     traverse Py.int (keys model_answers) = Ok mk /\
     standard_keys = IntKey <$> Py.sorted_int sk /\
     traverse (fun k => getitem standard_answers (Py.str k)) (Py.sorted_int sk)
       = Ok standard_sequence /\
     traverse (fun k => getitem model_answers (Py.str k)) (Py.sorted_int mk)
       = Ok model_sequence) \/
  (standard_keys = StrKey <$> Py.sorted_str (keys standard_answers) /\
   traverse (fun k => getitem standard_answers k) (Py.sorted_str (keys standard_answers))
     = Ok standard_sequence /\
   traverse (fun k => getitem model_answers k) (Py.sorted_str (keys model_answers))
     = Ok model_sequence).
Proof.
  unfold keyed_sequences.
  destruct (lexicographic_values_total standard_answers) as [vs Hvs].
  destruct (lexicographic_values_total model_answers) as [ws Hws].
  rewrite Hvs, Hws. simpl.
  destruct (traverse Py.int (keys standard_answers)) as [sk|e] eqn:Hsk; simpl.
  2: { apply traverse_int_Raise in Hsk as ->. simpl. intros [= <- <- <-]. by right. }
  destruct (traverse _ (Py.sorted_int sk)) as [sseq|e] eqn:Hsseq; simpl.
  2: { apply traverse_getitem_Raise in Hsseq as [-> _]. done. }
  destruct (traverse Py.int (keys model_answers)) as [mk|e] eqn:Hmk; simpl.
  2: { apply traverse_int_Raise in Hmk as ->. simpl. intros [= <- <- <-]. by right. }
  destruct (traverse _ (Py.sorted_int mk)) as [mseq|e] eqn:Hmseq; simpl.
  2: { apply traverse_getitem_Raise in Hmseq as [-> _]. done. }
  intros [= <- <- <-]. left. by exists sk, mk.
Qed.

Lemma traverse_fmap {A B C : Type} (f : B -> result C) (g : A -> B) (l : list A) :
  traverse f (g <$> l) = traverse (fun x => f (g x)) l.
Proof. induction l as [|x l IH]; [done|]. rewrite fmap_cons. simpl. by rewrite IH. Qed.

Lemma counted_position_IntKey (zs : list Z) (idx : nat) (z : Z) :
  zs !! idx = Some z -> counted_position (IntKey <$> zs) idx = Ok (IntKey z).
Proof. intros Hz. unfold counted_position. by rewrite list_lookup_fmap, Hz. Qed.

Lemma counted_position_total (standard_keys : list position) (idx : nat) :
  idx < length standard_keys -> exists p, counted_position standard_keys idx = Ok p.
Proof.
  intros [p Hp]%lookup_lt_is_Some_2. unfold counted_position. rewrite Hp.
  destruct p as [z|k]; [by eexists|].
  destruct (Py.isdigit k) eqn:Hk; [|by eexists].
  destruct (isdigit_parse_int k Hk) as [z Hz].
  apply int_Ok in Hz. rewrite Hz. by eexists.
Qed.

(** Once the two sequences are built the loop over [lcs_indices] raises
    nothing. *)
Lemma record_positions_total standard_answers model_answers x :
  keyed_sequences standard_answers model_answers = Ok x ->
  exists ps, record_positions standard_answers model_answers = Ok ps.
Proof.
  destruct x as [[standard_keys standard_sequence] model_sequence]. intros Hx.
  unfold record_positions. rewrite Hx. simpl.
  apply traverse_total. intros idx Hidx. apply counted_position_total.
  destruct (longest_common_subsequence_with_indices_correct
              standard_sequence model_sequence) as (_ & Hrange & _).
  rewrite Forall_forall in Hrange. specialize (Hrange idx Hidx).
  assert (length standard_keys = length standard_sequence) as ->; [|done].
  apply keyed_sequences_Ok in Hx
    as [(sk & mk & _ & _ & -> & Hs%traverse_Ok_length & _)
       |(-> & Hs%traverse_Ok_length & _)];
    by rewrite length_fmap.
Qed.

(** With canonical reference keys both branches hand the loop the same
    thing: distinct reference keys [ks], the values stored under them, and
    for the index [i] the position [int(ks[i])]. *)
Lemma keyed_sequences_canonical standard_answers model_answers standard_keys
    (standard_sequence model_sequence : list V) :
  canonical_dict standard_answers = true ->
  keyed_sequences standard_answers model_answers
    = Ok (standard_keys, standard_sequence, model_sequence) ->
  exists ks : list string,
    NoDup ks /\ ks ⊆ keys standard_answers /\
    Forall2 (fun k v => get standard_answers k = Some v) ks standard_sequence /\
    Forall (fun v => v ∈ values model_answers) model_sequence /\
    forall idx k, ks !! idx = Some k ->
      exists z, Py.parse_int k = Some z /\
                counted_position standard_keys idx = Ok (IntKey z).
Proof.
  intros Hcanon Hx.
  pose proof (canonical_dict_printed_back _ Hcanon) as Hback.
  pose proof Hcanon as [Hwf Hall]%canonical_dict_spec.
  assert (forall d (l : list string) (vs : list V),
            traverse (fun k => getitem d k) l = Ok vs ->
            Forall (fun v => v ∈ values d) vs) as Hvalues.
  { intros d l vs Hvs. apply Forall_forall. intros v Hv.
    destruct (traverse_Ok_elem_of_r _ _ _ _ Hvs Hv) as (k & _ & Hk%getitem_Ok_get).
    clear -Hk. induction d as [|[k' v'] d IH]; [done|]. simpl in Hk.
    case_decide.
    - injection Hk as ->. apply elem_of_cons. by left.
    - apply elem_of_cons. right. by apply IH. }
  apply keyed_sequences_Ok in Hx
    as [(sk & mk & Hsk & Hmk & -> & Hsseq & Hmseq)|(-> & Hsseq & Hmseq)].
  - pose proof (printed_back _ _ Hback Hsk) as Hprinted.
    exists (Py.str <$> Py.sorted_int sk).
    assert (Py.str <$> Py.sorted_int sk ≡ₚ keys standard_answers) as Hperm.
    { rewrite <- Hprinted. apply fmap_Permutation, merge_sort_Permutation. }
    split; [by rewrite Hperm|]. split; [by rewrite Hperm|]. split; [|split].
    + apply Forall2_fmap_l.
      eapply traverse_Ok_Forall2_strong; [|exact Hsseq].
      intros z v _. by rewrite getitem_Ok_get.
    + eapply (Hvalues _ (Py.str <$> Py.sorted_int mk)).
      by rewrite traverse_fmap.
    + intros idx k. rewrite list_lookup_fmap.
      destruct (Py.sorted_int sk !! idx) as [z|] eqn:Hz; [|done].
      simpl. intros [= <-]. exists z. split; [apply int_str|].
      by apply counted_position_IntKey.
  - exists (Py.sorted_str (keys standard_answers)).
    assert (Py.sorted_str (keys standard_answers) ≡ₚ keys standard_answers) as Hperm.
    { apply merge_sort_Permutation. }
    split; [by rewrite Hperm|]. split; [by rewrite Hperm|]. split; [|split].
    + eapply traverse_Ok_Forall2_strong; [|exact Hsseq].
      intros z v _. by rewrite getitem_Ok_get.
    + by eapply Hvalues.
    + intros idx k Hk.
      assert (canonical_key k = true) as Hck.
      { rewrite Forall_forall in Hall. apply Hall. rewrite <- Hperm.
        by eapply list_elem_of_lookup_2. }
      apply canonical_key_spec in Hck as (Hdigit & z & Hz & _).
      exists z. split; [done|].
      unfold counted_position. rewrite list_lookup_fmap, Hk. simpl.
      rewrite Hdigit. apply int_Ok in Hz. by rewrite Hz.
Qed.

Lemma record_positions_canonical standard_answers model_answers ps :
  canonical_dict standard_answers = true ->
  record_positions standard_answers model_answers = Ok ps ->
  NoDup ps /\
  length ps <= Nat.min (length standard_answers) (length model_answers) /\
  Forall (fun p => exists k z v,
            p = IntKey z /\ (0 <= z)%Z /\ k ∈ keys standard_answers /\
            Py.parse_int k = Some z /\
            get standard_answers k = Some v /\ v ∈ values model_answers) ps.
Proof.
  intros Hcanon Hps. unfold record_positions in Hps.
  apply bind_Ok in Hps as ([[standard_keys standard_sequence] model_sequence] & Hx & Hps).
  destruct (keyed_sequences_canonical _ _ _ _ _ Hcanon Hx)
    as (ks & Hnd & Hsub & Hget & Hvals & Hpos).
  set (indices := longest_common_subsequence_with_indices
                    standard_sequence model_sequence) in *.
  destruct (longest_common_subsequence_with_indices_correct
              standard_sequence model_sequence) as (Hsorted & Hrange & Helems).
  fold indices in Hsorted, Hrange, Helems.
  pose proof (Forall2_length _ _ _ Hget) as Hlen.
  pose proof (canonical_dict_printed_back _ Hcanon) as Hback.
  pose proof Hcanon as [Hwf Hall]%canonical_dict_spec.
  assert (forall idx p, idx ∈ indices -> counted_position standard_keys idx = Ok p ->
            exists k z v, ks !! idx = Some k /\ p = IntKey z /\
              Py.parse_int k = Some z /\ standard_sequence !! idx = Some v /\
              get standard_answers k = Some v) as Hidx.
  { intros idx p Hin Hp. rewrite Forall_forall in Hrange. specialize (Hrange idx Hin).
    destruct (lookup_lt_is_Some_2 ks idx ltac:(lia)) as [k Hk].
    destruct (lookup_lt_is_Some_2 standard_sequence idx Hrange) as [v Hv].
    destruct (Hpos idx k Hk) as (z & Hz & Hp').
    exists k, z, v. repeat split; try done; [congruence|].
    by eapply (Forall2_lookup_lr _ _ _ _ _ _ Hget). }
  split; [|split].
  - assert (NoDup indices) as Hndi.
    { clear -Hsorted. induction Hsorted as [|x l _ IH Hx]; constructor; [|done].
      intros Hin. rewrite Forall_forall in Hx. specialize (Hx x Hin). lia. }
    clear Hsorted Hrange Helems.
    revert ps Hps. induction indices as [|idx indices IH]; intros ps; simpl.
    { intros [= <-]. constructor. }
    destruct (counted_position standard_keys idx) as [p|] eqn:Hp; simpl; [|done].
    destruct (traverse _ indices) as [ps'|] eqn:Hps'; simpl; [|done].
    intros [= <-]. apply NoDup_cons in Hndi as [Hidx0 Hndi].
    constructor.
    + intros Hin.
      destruct (traverse_Ok_elem_of_r _ _ _ _ Hps' Hin) as (idx' & Hidx' & Hp').
      destruct (Hidx idx p ltac:(by left) Hp) as (k & z & v & Hk & -> & Hz & _).
      destruct (Hidx idx' (IntKey z) ltac:(by right) Hp')
        as (k' & z' & v' & Hk' & [= <-] & Hz' & _).
      assert (k = k') as <-.
      { rewrite <- (Hback k z), <- (Hback k' z); try done;
          apply Hsub; by eapply list_elem_of_lookup_2. }
      apply Hidx0. by rewrite (NoDup_lookup _ _ _ _ Hnd Hk Hk').
    + apply IH; [|done..]. intros idx' p' Hin. apply Hidx. by right.
  - apply traverse_Ok_length in Hps. rewrite Hps. unfold indices.
    rewrite length_longest_common_subsequence_with_indices.
    destruct (longest_common_subsequence_correct standard_sequence model_sequence)
      as (Hs1%sublist_length & Hs2%sublist_length & _).
    apply keyed_sequences_Ok in Hx
      as [(sk & mk & Hsk%traverse_Ok_length & Hmk%traverse_Ok_length & _
           & Hs%traverse_Ok_length & Hm%traverse_Ok_length)
         |(_ & Hs%traverse_Ok_length & Hm%traverse_Ok_length)].
    + rewrite length_sorted_int in Hs, Hm. unfold keys in Hsk, Hmk.
      rewrite length_fmap in Hsk, Hmk. lia.
    + rewrite length_sorted_str in Hs, Hm. unfold keys in Hs, Hm.
      rewrite length_fmap in Hs, Hm. lia.
  - apply Forall_forall. intros p Hp.
    destruct (traverse_Ok_elem_of_r _ _ _ _ Hps Hp) as (idx & Hin & Hp').
    destruct (Hidx idx p Hin Hp') as (k & z & v & Hk & -> & Hz & Hv & Hg).
    exists k, z, v. split; [done|].
    assert (k ∈ keys standard_answers) as Hkin.
    { apply Hsub. by eapply list_elem_of_lookup_2. }
    split.
    { rewrite Forall_forall in Hall. by eapply isdigit_nonneg; [apply Hall|]. }
    split; [done|]. split; [done|]. split; [done|].
    rewrite Forall_forall in Hvals. apply Hvals.
    apply (longest_common_subsequence_elem_of standard_sequence model_sequence).
    assert (Some v ∈ Some <$> longest_common_subsequence standard_sequence model_sequence)
      as Hsome.
    { rewrite <- Helems. apply list_elem_of_fmap. exists idx. by rewrite Hv. }
    apply list_elem_of_fmap in Hsome as (v' & [= ->] & Hv'). done.
Qed.

End PositionAccuracyFacts.

Section PositionAccuracyTheorems.
Context {V : Type} `{EqDecision V}.
Implicit Types (standard_answers model_answers d : dict V).

Import PositionAccuracy.

Lemma keyed_sequences_Raise standard_answers model_answers e :
  canonical_dict standard_answers = true ->
  keyed_sequences standard_answers model_answers = Raise e ->
  e = KeyError /\
  exists ks z, traverse Py.int (keys model_answers) = Ok ks /\ z ∈ ks /\
               Py.str z ∉ keys model_answers.
Proof.
  intros Hcanon. unfold keyed_sequences.
  destruct (lexicographic_values_total standard_answers) as [vs Hvs].
  destruct (lexicographic_values_total model_answers) as [ws Hws].
  rewrite Hvs, Hws. simpl.
  destruct (traverse Py.int (keys standard_answers)) as [sk|e'] eqn:Hsk; simpl.
  2: { apply traverse_int_Raise in Hsk as ->. done. }
  destruct (traverse _ (Py.sorted_int sk)) as [sseq|e'] eqn:Hsseq; simpl.
  2: { apply traverse_getitem_Raise in Hsseq as [-> (z & Hz & Hnot)].
       exfalso. apply Hnot. rewrite elem_of_sorted_int in Hz.
       rewrite <- (printed_back _ _ (canonical_dict_printed_back _ Hcanon) Hsk).
       apply list_elem_of_fmap. by exists z. }
  destruct (traverse Py.int (keys model_answers)) as [mk|e'] eqn:Hmk; simpl.
  2: { apply traverse_int_Raise in Hmk as ->. done. }
  destruct (traverse _ (Py.sorted_int mk)) as [mseq|e'] eqn:Hmseq; simpl; [done|].
  apply traverse_getitem_Raise in Hmseq as [-> (z & Hz & Hnot)].
  intros [= <-]. split; [done|]. exists mk, z.
  split; [done|]. split; [by rewrite elem_of_sorted_int in Hz|done].
Qed.

(** X14: for a canonical reference answer set the loop body of
    [analyze_position_accuracy.analyze_table] either counts distinct
    positions, each the integer of a reference key whose value occurs among
    the values of the response, no more of them than either answer set has
    keys; or it raises [KeyError], and then some response key is not printed
    back by [str(int(k))]. *)
Theorem record_positions_of_canonical_reference standard_answers model_answers :
  canonical_dict standard_answers = true ->
  match record_positions standard_answers model_answers with
  | Ok ps =>
      NoDup ps /\
      length ps <= Nat.min (length standard_answers) (length model_answers) /\
      Forall (fun p => exists k z v,
                p = IntKey z /\ (0 <= z)%Z /\ k ∈ keys standard_answers /\
                Py.parse_int k = Some z /\
                get standard_answers k = Some v /\ v ∈ values model_answers) ps
  | Raise e =>
      e = KeyError /\
      exists ks z, traverse Py.int (keys model_answers) = Ok ks /\ z ∈ ks /\
                   Py.str z ∉ keys model_answers
  end.
Proof.
  intros Hcanon.
  destruct (record_positions standard_answers model_answers) as [ps|e] eqn:Hps.
  { by apply record_positions_canonical. }
  destruct (keyed_sequences standard_answers model_answers) as [x|e'] eqn:Hx.
  { destruct (record_positions_total _ _ _ Hx) as [ps Hps']. congruence. }
  assert (e = e') as ->.
  { unfold record_positions in Hps. rewrite Hx in Hps. simpl in Hps. congruence. }
  by apply (keyed_sequences_Raise standard_answers).
Qed.

(** X15: when the reference answer sets of a table are canonical, every
    row written by [insert_position_stats] is keyed by a non-negative
    integer and has [0 < frequency <= total_records <= len(records)]; its
    probability [frequency / total_records * 100] lies in [[0, 100]]. *)
Theorem position_row_probability (records : list (row (V := V)))
    (r : PositionAccuracy.stats_row) :
  Forall (fun rec => canonical_reference rec = true) records ->
  r ∈ insert_position_stats (analyze_table records).1 (analyze_table records).2 ->
  (exists z, key_position r = IntKey z /\ (0 <= z)%Z) /\
  (analyze_table records).1 !! key_position r = Some (frequency r) /\
  total_records r = (analyze_table records).2 /\
  total_records r <= length records /\
  0 < frequency r <= total_records r /\
  (probability r == inject_Z (Z.of_nat (frequency r))
                    / inject_Z (Z.of_nat (total_records r)) * 100)%Q /\
  (0 <= probability r <= 100)%Q.
Proof.
  intros Hcanon Hin. unfold insert_position_stats, analyze_table in *.
  apply list_elem_of_fmap in Hin as ([p f] & -> & Hf%elem_of_map_to_list). simpl.
  assert (forall rec ps, rec ∈ records ->
            row_keys record_positions rec = Some ps ->
            exists s m, rec = (Some s, Some m) /\ canonical_dict s = true /\
                        record_positions s m = Ok ps) as Hrows.
  { intros rec ps Hrec (s & m & -> & Hps)%row_keys_Some.
    rewrite Forall_forall in Hcanon. apply Hcanon in Hrec.
    exists s, m. done. }
  destruct (over_records_positive _ _ _ _ Hf) as [Hfpos Htotal].
  pose proof (over_records_NoDup record_positions records p) as Hle.
  rewrite Hf in Hle. simpl in Hle.
  assert (f <= (over_records record_positions records).2) as Hftotal.
  { apply Hle. intros rec ps Hrec Hps.
    destruct (Hrows rec ps Hrec Hps) as (s & m & _ & Hs & Hps').
    by destruct (record_positions_canonical s m ps Hs Hps'). }
  split.
  { destruct (over_records_origin _ _ _ _ Hf) as (rec & ps & Hrec & Hps & Hp).
    destruct (Hrows rec ps Hrec Hps) as (s & m & _ & Hs & Hps').
    destruct (record_positions_canonical s m ps Hs Hps') as (_ & _ & Hall).
    rewrite Forall_forall in Hall.
    destruct (Hall p Hp) as (k & z & v & -> & Hz & _). by exists z. }
  split; [done|]. split; [done|]. split; [apply over_records_total_le|].
  split; [lia|]. split.
  { unfold probability_of. apply Nat.ltb_lt in Htotal. by rewrite Htotal. }
  split; [apply probability_of_nonneg|by apply probability_of_le_100].
Qed.

Lemma traverse_counted_position_all (pre zs : list Z) :
  traverse (counted_position (IntKey <$> (pre ++ zs))) (seq (length pre) (length zs))
  = Ok (IntKey <$> zs).
Proof.
  revert pre. induction zs as [|z zs IH]; intros pre; [done|].
  simpl. rewrite (counted_position_IntKey _ _ z).
  2: { by rewrite lookup_app_r, Nat.sub_diag by lia. }
  simpl. specialize (IH (pre ++ [z])).
  rewrite <- app_assoc, length_app in IH. simpl in IH.
  replace (length pre + 1) with (S (length pre)) in IH by lia.
  by rewrite IH.
Qed.

(** X16: a record whose response is its canonical reference counts every
    reference key once, in ascending order. *)
Theorem record_positions_of_identical_answers d :
  canonical_dict d = true ->
  exists zs,
    int_keys d = Ok zs /\
    StronglySorted Z.lt zs /\
    record_positions d d = Ok (IntKey <$> zs).
Proof.
  intros Hcanon.
  pose proof (canonical_dict_printed_back _ Hcanon) as Hback.
  pose proof Hcanon as [Hwf Hall]%canonical_dict_spec.
  destruct (int_keys_total d) as [zs Hzs]; [by apply canonical_dict_parse|].
  exists zs. split; [done|]. split; [by eapply int_keys_ascending|].
  pose proof Hzs as Hzs'. unfold int_keys in Hzs'.
  apply bind_Ok in Hzs' as (sk & Hsk & <-%mret_Ok).
  destruct (values_sequence_from_dict_total true d Hback) as [vs Hvs].
  rewrite values_sequence_from_dict_unfold, Hsk in Hvs.
  unfold record_positions, keyed_sequences.
  rewrite Hsk. simpl. rewrite Hvs. simpl.
  rewrite longest_common_subsequence_with_indices_self.
  apply traverse_Ok_length in Hvs. rewrite Hvs.
  apply (traverse_counted_position_all []).
Qed.

End PositionAccuracyTheorems.

(** An instance: the docstring example of [analyze_table], a response with
    one value inserted. *)
Lemma record_positions_of_canonical_reference_witness :
  match PositionAccuracy.record_positions
          [("0", "A"); ("1", "B"); ("2", "C")] [("0", "A"); ("1", "X"); ("2", "B"); ("3", "C")]
  with
  | Ok ps =>
      NoDup ps /\
      length ps <= Nat.min (length [("0", "A"); ("1", "B"); ("2", "C")])
                           (length [("0", "A"); ("1", "X"); ("2", "B"); ("3", "C")]) /\
      Forall (fun p => exists k z v,
                p = IntKey z /\ (0 <= z)%Z /\
                k ∈ keys [("0", "A"); ("1", "B"); ("2", "C")] /\
                Py.parse_int k = Some z /\
                get [("0", "A"); ("1", "B"); ("2", "C")] k = Some v /\
                v ∈ values [("0", "A"); ("1", "X"); ("2", "B"); ("3", "C")]) ps
  | Raise e =>
      e = KeyError /\
      exists ks z,
        traverse Py.int (keys [("0", "A"); ("1", "X"); ("2", "B"); ("3", "C")]) = Ok ks /\
        z ∈ ks /\ Py.str z ∉ keys [("0", "A"); ("1", "X"); ("2", "B"); ("3", "C")]
  end.
Proof.
  apply (record_positions_of_canonical_reference
           [("0", "A"); ("1", "B"); ("2", "C")]
           [("0", "A"); ("1", "X"); ("2", "B"); ("3", "C")]).
  reflexivity.
Defined.

(** An instance: one record whose first value is right. *)
Lemma position_row_probability_witness :
  (exists z, PositionAccuracy.key_position
               (PositionAccuracy.StatsRow (IntKey 0) 1 (probability_of 1 1) 1) = IntKey z /\
             (0 <= z)%Z) /\
  (PositionAccuracy.analyze_table
     [(Some [("0", "A"); ("1", "B")], Some [("0", "A"); ("1", "X")])]).1
    !! PositionAccuracy.key_position
         (PositionAccuracy.StatsRow (IntKey 0) 1 (probability_of 1 1) 1)
  = Some (PositionAccuracy.frequency
            (PositionAccuracy.StatsRow (IntKey 0) 1 (probability_of 1 1) 1)) /\
  PositionAccuracy.total_records
    (PositionAccuracy.StatsRow (IntKey 0) 1 (probability_of 1 1) 1)
  = (PositionAccuracy.analyze_table
       [(Some [("0", "A"); ("1", "B")], Some [("0", "A"); ("1", "X")])]).2 /\
  PositionAccuracy.total_records
    (PositionAccuracy.StatsRow (IntKey 0) 1 (probability_of 1 1) 1)
  <= length [(Some [("0", "A"); ("1", "B")], Some [("0", "A"); ("1", "X")])] /\
  0 < PositionAccuracy.frequency
        (PositionAccuracy.StatsRow (IntKey 0) 1 (probability_of 1 1) 1)
    <= PositionAccuracy.total_records
         (PositionAccuracy.StatsRow (IntKey 0) 1 (probability_of 1 1) 1) /\
  (PositionAccuracy.probability
     (PositionAccuracy.StatsRow (IntKey 0) 1 (probability_of 1 1) 1)
   == inject_Z (Z.of_nat (PositionAccuracy.frequency
                  (PositionAccuracy.StatsRow (IntKey 0) 1 (probability_of 1 1) 1)))
      / inject_Z (Z.of_nat (PositionAccuracy.total_records
                    (PositionAccuracy.StatsRow (IntKey 0) 1 (probability_of 1 1) 1)))
      * 100)%Q /\
  (0 <= PositionAccuracy.probability
          (PositionAccuracy.StatsRow (IntKey 0) 1 (probability_of 1 1) 1) <= 100)%Q.
Proof.
  apply (position_row_probability
           [(Some [("0", "A"); ("1", "B")], Some [("0", "A"); ("1", "X")])]
           (PositionAccuracy.StatsRow (IntKey 0) 1 (probability_of 1 1) 1)).
  - repeat constructor.
  - replace (PositionAccuracy.analyze_table
               [(Some [("0", "A"); ("1", "B")], Some [("0", "A"); ("1", "X")])])
      with (({[ IntKey 0 := 1 ]} : gmap position nat), 1) by (by vm_compute).
    unfold PositionAccuracy.insert_position_stats. simpl.
    rewrite map_to_list_singleton. simpl. by left.
Defined.

(** An instance: keys that sort differently as integers and as strings. *)
Lemma record_positions_of_identical_answers_witness :
  exists zs,
    int_keys [("10", "B"); ("2", "A")] = Ok zs /\
    StronglySorted Z.lt zs /\
    PositionAccuracy.record_positions [("10", "B"); ("2", "A")] [("10", "B"); ("2", "A")]
    = Ok (IntKey <$> zs).
Proof.
  apply (record_positions_of_identical_answers [("10", "B"); ("2", "A")]). reflexivity.
Defined.

(** ** Grading canonical answer sets *)

Lemma length_filter_fmap {A B : Type} (f : A -> B) (P : B -> Prop)
    `{forall y, Decision (P y)} (l : list A) :
  length (filter P (f <$> l)) = length (filter (fun x => P (f x)) l).
Proof.
  induction l as [|x l IH]; [done|].
  rewrite fmap_cons, !filter_cons. case_decide; simpl; by rewrite IH.
Qed.

Lemma length_filter_ext {A : Type} (P Q : A -> Prop)
    `{forall x, Decision (P x)} `{forall x, Decision (Q x)} (l : list A) :
  (forall x, x ∈ l -> P x <-> Q x) ->
  length (filter P l) = length (filter Q l).
Proof.
  induction l as [|x l IH]; intros Hext; [done|].
  rewrite !filter_cons.
  assert (length (filter P l) = length (filter Q l)) as Hl.
  { apply IH. intros y Hy. apply Hext. by right. }
  specialize (Hext x ltac:(by left)).
  repeat case_decide; simpl; try lia; tauto.
Qed.

Lemma length_filter_split {A : Type} (P Q : A -> Prop)
    `{forall x, Decision (P x)} `{forall x, Decision (Q x)} (l : list A) :
  length (filter P l)
  = length (filter (fun x => P x /\ Q x) l) + length (filter (fun x => P x /\ ~ Q x) l).
Proof.
  induction l as [|x l IH]; [done|].
  rewrite !filter_cons. repeat case_decide; simpl; try lia; tauto.
Qed.

Lemma length_filter_complement {A : Type} (P : A -> Prop)
    `{forall x, Decision (P x)} (l : list A) :
  length l = length (filter P l) + length (filter (fun x => ~ P x) l).
Proof.
  induction l as [|x l IH]; [done|].
  rewrite !filter_cons. repeat case_decide; simpl; try lia; tauto.
Qed.

Lemma size_list_to_set_filter (P : string -> Prop) `{forall k, Decision (P k)}
    (l : list string) (X : gset string) :
  NoDup l ->
  (forall k, k ∈ X <-> k ∈ l /\ P k) ->
  size X = length (filter P l).
Proof.
  intros Hnd HX.
  assert (X = list_to_set (filter P l)) as ->.
  { apply set_eq. intros k. rewrite HX, elem_of_list_to_set, list_elem_of_filter. tauto. }
  apply size_list_to_set. by apply NoDup_filter.
Qed.

Section GradingCanonical.
Context {V : Type} `{EqDecision V}.
Implicit Types (d standard_answers student_answers : dict V).

Lemma get_wf d k v : dict_wf d -> (k, v) ∈ d -> get d k = Some v.
Proof.
  unfold dict_wf. induction d as [|[k' v'] d IH]; intros Hwf Hin.
  { by apply elem_of_nil in Hin. }
  simpl in *. apply NoDup_cons in Hwf as [Hk' Hwf].
  apply elem_of_cons in Hin as [[= <- <-]|Hin].
  - by rewrite decide_True.
  - rewrite decide_False; [by apply IH|].
    intros ->. apply Hk'. apply list_elem_of_fmap. by exists (k, v).
Qed.

Lemma get_keys_values d :
  dict_wf d -> Forall2 (fun k v => get d k = Some v) (keys d) (values d).
Proof.
  intros Hwf. unfold keys, values.
  apply Forall2_fmap, Forall_Forall2_diag, Forall_forall.
  intros [k v] Hin. simpl. by apply get_wf.
Qed.

Lemma canonical_keys_sorted d sk :
  canonical_dict d = true ->
  traverse Py.int (keys d) = Ok sk ->
  Py.str <$> Py.sorted_int sk ≡ₚ keys d /\
  StronglySorted Z.lt (Py.sorted_int sk) /\
  NoDup (keys d).
Proof.
  intros Hcanon Hsk.
  pose proof (canonical_dict_printed_back _ Hcanon) as Hback.
  pose proof Hcanon as [Hwf Hall]%canonical_dict_spec.
  split; [|split; [|done]].
  - rewrite <- (printed_back _ _ Hback Hsk).
    apply fmap_Permutation, merge_sort_Permutation.
  - apply (int_keys_ascending d); [done..|].
    unfold int_keys. by rewrite Hsk.
Qed.

Lemma canonical_keys_parse d :
  canonical_dict d = true -> exists sk, traverse Py.int (keys d) = Ok sk.
Proof.
  intros Hcanon. apply traverse_total. intros k Hk.
  destruct (canonical_dict_parse _ Hcanon k Hk) as [z Hz]. exists z. by apply int_Ok.
Qed.

(** X17: for a canonical answer set [values_sequence_from_dict] returns
    the values in strictly ascending order of the integer keys: each value
    is the one stored under its key, and the sequence is a permutation of
    the values of the answer set. *)
Theorem values_sequence_of_canonical_dict d :
  canonical_dict d = true ->
  exists zs vs,
    int_keys d = Ok zs /\
    StronglySorted Z.lt zs /\
    values_sequence_from_dict true d = Ok vs /\
    Forall2 (fun z v => get d (Py.str z) = Some v) zs vs /\
    vs ≡ₚ values d.
Proof.
  intros Hcanon.
  destruct (canonical_keys_parse d Hcanon) as [sk Hsk].
  destruct (canonical_keys_sorted d sk Hcanon Hsk) as (Hperm & Hsorted & Hnd).
  destruct (values_sequence_from_dict_total true d
              (canonical_dict_printed_back _ Hcanon)) as [vs Hvs].
  exists (Py.sorted_int sk), vs.
  split; [unfold int_keys; by rewrite Hsk|]. split; [done|]. split; [done|].
  rewrite values_sequence_from_dict_unfold, Hsk in Hvs.
  assert (Forall2 (fun z v => get d (Py.str z) = Some v) (Py.sorted_int sk) vs) as Hget.
  { eapply traverse_Ok_Forall2_strong; [|exact Hvs].
    intros z v _. by rewrite getitem_Ok_get. }
  split; [done|].
  assert (Forall2 (fun k v => get d k = Some v) (Py.str <$> Py.sorted_int sk) vs) as Hget'.
  { by apply Forall2_fmap_l. }
  destruct (Permutation_Forall2 Hperm Hget') as (vs' & Hvs' & Hkeys).
  rewrite Hvs'. assert (vs' = values d) as ->; [|done].
  pose proof (get_keys_values d Hnd) as Hkv.
  clear -Hkeys Hkv. revert vs' Hkeys.
  induction Hkv as [|k v ks vs Hk _ IH]; intros vs' Hkeys.
  { by apply Forall2_nil_inv_l in Hkeys. }
  apply Forall2_cons_inv_l in Hkeys as (v' & vs'' & Hk' & Hks & ->).
  f_equal; [congruence|by apply IH].
Qed.

Lemma key_statistics_canonical student_answers standard_answers :
  canonical_dict student_answers = true ->
  canonical_dict standard_answers = true ->
  let correct := length (filter (fun k => k ∈ keys student_answers /\
                                          get student_answers k = get standard_answers k)
                                (keys standard_answers)) in
  let missing := length (filter (fun k => k ∉ keys student_answers)
                                (keys standard_answers)) in
  let extra := length (filter (fun k => k ∉ keys standard_answers)
                              (keys student_answers)) in
  key_statistics student_answers standard_answers
  = Ok (correct, missing, extra,
        (Z.of_nat (length student_answers) - Z.of_nat correct - Z.of_nat extra)%Z).
Proof.
  intros Hstu Hstd correct missing extra.
  destruct (canonical_keys_parse _ Hstd) as [sk Hsk].
  destruct (canonical_keys_parse _ Hstu) as [tk Htk].
  destruct (canonical_keys_sorted _ sk Hstd Hsk) as (Hperm_s & _ & Hnd_s).
  destruct (canonical_keys_sorted _ tk Hstu Htk) as (Hperm_t & _ & Hnd_t).
  unfold key_statistics, try_except_else. rewrite Hsk, Htk. simpl.
  set (hit := fun z : Z =>
    bool_decide (Py.str z ∈ keys student_answers /\
                 get student_answers (Py.str z) = get standard_answers (Py.str z))).
  match goal with |- context [traverse ?f (Py.sorted_int sk)] =>
    assert (traverse f (Py.sorted_int sk) = Ok (hit <$> Py.sorted_int sk)) as ->
  end.
  { assert (forall z, z ∈ Py.sorted_int sk -> Py.str z ∈ keys standard_answers) as Hin.
    { intros z Hz. rewrite <- Hperm_s. apply list_elem_of_fmap. by exists z. }
    revert Hin. generalize (Py.sorted_int sk). intros l Hin.
    induction l as [|z l IH]; [done|]. simpl.
    rewrite IH by (intros z' Hz'; apply Hin; by right). simpl.
    specialize (Hin z ltac:(by left)).
    unfold hit at 2.
    destruct (contains student_answers (Py.str z)) eqn:Hc.
    - apply contains_true in Hc.
      destruct (getitem_Ok student_answers _ Hc) as [a Ha].
      destruct (getitem_Ok standard_answers _ Hin) as [b Hb].
      rewrite Ha, Hb. simpl.
      apply getitem_Ok_get in Ha, Hb. rewrite Ha, Hb.
      do 2 f_equal. apply bool_decide_ext. split; [intros ->; done|].
      by intros [_ [= ->]].
    - simpl. do 2 f_equal. symmetry. apply bool_decide_eq_false.
      intros [Hc' _]. apply contains_true in Hc'. congruence. }
  simpl. unfold mret, result_ret. do 2 f_equal; [f_equal; [f_equal|]|].
  - rewrite length_filter_fmap. unfold correct.
    rewrite <- Hperm_s, length_filter_fmap.
    apply length_filter_ext. intros z _. unfold hit.
    rewrite bool_decide_eq_true. done.
  - unfold missing. apply size_list_to_set_filter; [done|].
    intros k. rewrite elem_of_difference, !elem_of_list_to_set, Hperm_s, Hperm_t. done.
  - unfold extra. apply size_list_to_set_filter; [done|].
    intros k. rewrite elem_of_difference, !elem_of_list_to_set, Hperm_s, Hperm_t. done.
  - f_equal; [f_equal|].
    + f_equal. rewrite length_filter_fmap. unfold correct.
      rewrite <- Hperm_s, length_filter_fmap.
      apply length_filter_ext. intros z _. unfold hit.
      rewrite bool_decide_eq_true. done.
    + f_equal. unfold extra. apply size_list_to_set_filter; [done|].
      intros k. rewrite elem_of_difference, !elem_of_list_to_set, Hperm_s, Hperm_t. done.
Qed.

Lemma common_keys_length student_answers standard_answers :
  dict_wf student_answers -> dict_wf standard_answers ->
  length (filter (fun k => k ∈ keys student_answers) (keys standard_answers))
  = length (filter (fun k => k ∈ keys standard_answers) (keys student_answers)).
Proof.
  intros Hstu Hstd.
  rewrite <- (size_list_to_set_filter _ (keys standard_answers)
                (list_to_set (keys standard_answers) ∩ list_to_set (keys student_answers)));
    [|done|].
  2: { intros k. by rewrite elem_of_intersection, !elem_of_list_to_set. }
  apply size_list_to_set_filter; [done|].
  intros k. rewrite elem_of_intersection, !elem_of_list_to_set. tauto.
Qed.

End GradingCanonical.

(** An instance: keys that sort differently as integers and as strings. *)
Lemma values_sequence_of_canonical_dict_witness :
  exists zs vs,
    int_keys [("10", "B"); ("2", "A")] = Ok zs /\
    StronglySorted Z.lt zs /\
    values_sequence_from_dict true [("10", "B"); ("2", "A")] = Ok vs /\
    Forall2 (fun z v => get [("10", "B"); ("2", "A")] (Py.str z) = Some v) zs vs /\
    vs ≡ₚ values [("10", "B"); ("2", "A")].
Proof.
  apply (values_sequence_of_canonical_dict [("10", "B"); ("2", "A")]). reflexivity.
Defined.

Lemma length_filter_none {A : Type} (P : A -> Prop) `{forall x, Decision (P x)}
    (l : list A) :
  (forall x, x ∈ l -> ~ P x) -> length (filter P l) = 0.
Proof.
  induction l as [|x l IH]; intros Hnone; [done|].
  rewrite filter_cons, decide_False by (apply Hnone; by left).
  apply IH. intros y Hy. apply Hnone. by right.
Qed.

Lemma length_filter_all {A : Type} (P : A -> Prop) `{forall x, Decision (P x)}
    (l : list A) :
  (forall x, x ∈ l -> P x) -> length (filter P l) = length l.
Proof.
  induction l as [|x l IH]; intros Hall; [done|].
  rewrite filter_cons, decide_True by (apply Hall; by left). simpl.
  f_equal. apply IH. intros y Hy. apply Hall. by right.
Qed.

Lemma accuracy_of_100 (d m : nat) :
  (accuracy_of d m == 100)%Q <-> 0 < m /\ d = 0.
Proof.
  unfold accuracy_of. destruct (0 <? m) eqn:Hm.
  - apply Nat.ltb_lt in Hm.
    assert (0 < inject_Z (Z.of_nat m))%Q as Hpos.
    { change 0%Q with (inject_Z 0). rewrite <- Zlt_Qlt. lia. }
    split.
    + intros Heq. split; [done|].
      assert (inject_Z (Z.of_nat d) / inject_Z (Z.of_nat m) == 0)%Q as Hz by lra.
      assert (inject_Z (Z.of_nat d) == 0)%Q as Hd.
      { rewrite <- (Qmult_div_r (inject_Z (Z.of_nat d)) (inject_Z (Z.of_nat m))) by lra.
        rewrite Hz. lra. }
      change 0%Q with (inject_Z 0) in Hd. rewrite inject_Z_injective in Hd. lia.
    + intros [_ ->]. change (inject_Z (Z.of_nat 0)) with 0%Q.
      unfold Qdiv. rewrite Qmult_0_l. reflexivity.
  - apply Nat.ltb_ge in Hm. split; [intros Heq; by vm_compute in Heq|lia].
Qed.

Section GradingTheorems.
Context {V : Type} `{EqDecision V}.
Implicit Types (d standard_answers student_answers : dict V).

Lemma grade_answers_Ok student_answers standard_answers
    (allow_transposition order_by_key : bool) (g : grade) :
  grade_answers student_answers standard_answers allow_transposition order_by_key = Ok g ->
  standard_answers <> [] -> student_answers <> [] ->
  exists standard_sequence student_sequence,
    values_sequence_from_dict order_by_key standard_answers = Ok standard_sequence /\
    values_sequence_from_dict order_by_key student_answers = Ok student_sequence /\
    key_statistics student_answers standard_answers
      = Ok (correct_count g, missing_count g, extra_count g, wrong_count g) /\
    total g = length standard_answers /\
    answered_count g = length student_answers /\
    edit_distance g
      = calculate_edit_distance standard_sequence student_sequence allow_transposition /\
    accuracy g = sequence_accuracy standard_sequence student_sequence allow_transposition.
Proof.
  destruct standard_answers as [|s0 standard_answers]; [done|].
  destruct student_answers as [|t0 student_answers]; [done|].
  intros Hg _ _. unfold grade_answers in Hg.
  destruct (values_sequence_from_dict order_by_key (s0 :: standard_answers))
    as [sseq|] eqn:Hs; simpl in Hg; [|done].
  destruct (values_sequence_from_dict order_by_key (t0 :: student_answers))
    as [tseq|] eqn:Ht; simpl in Hg; [|done].
  destruct (key_statistics (t0 :: student_answers) (s0 :: standard_answers))
    as [[[[c m] x] w]|] eqn:Hk; simpl in Hg; [|done].
  injection Hg as <-. simpl. by exists sseq, tseq.
Qed.

(** X18: when [grade_answers] returns, the accuracy is 100 exactly when the
    reference is not empty and the two answer sets give the same value
    sequence (the keys are not compared); the edit distance is then 0. *)
Theorem grade_answers_full_marks student_answers standard_answers
    (allow_transposition order_by_key : bool) (g : grade) :
  grade_answers student_answers standard_answers allow_transposition order_by_key = Ok g ->
  ((accuracy g == 100)%Q <->
   standard_answers <> [] /\
   exists vs, values_sequence_from_dict order_by_key standard_answers = Ok vs /\
              values_sequence_from_dict order_by_key student_answers = Ok vs) /\
  ((accuracy g == 100)%Q -> edit_distance g = 0).
Proof.
  intros Hg.
  destruct standard_answers as [|s0 standard_answers].
  { injection Hg as <-. simpl. split; [|done].
    split; [intros Heq; by vm_compute in Heq|by intros [? _]]. }
  destruct student_answers as [|t0 student_answers].
  { injection Hg as <-. simpl. split; [|intros Heq; by vm_compute in Heq].
    split; [intros Heq; by vm_compute in Heq|].
    intros (_ & vs & Hs%values_sequence_from_dict_length & Ht). exfalso.
    rewrite values_sequence_from_dict_empty in Ht. injection Ht as <-. done. }
  destruct (grade_answers_Ok _ _ _ _ _ Hg) as (sseq & tseq & Hs & Ht & _ & _ & _ & Hd & Ha);
    [done..|].
  rewrite Ha, Hd. unfold sequence_accuracy. rewrite accuracy_of_100.
  pose proof (values_sequence_from_dict_length _ _ _ Hs) as Hlen. simpl in Hlen.
  rewrite calculate_edit_distance_levenshtein.
  assert (levenshtein sseq tseq = 0 <-> sseq = tseq) as Hzero.
  { rewrite <- (calculate_edit_distance_levenshtein _ _ allow_transposition).
    unfold levenshtein. split.
    - rewrite calculate_edit_distance_levenshtein. unfold levenshtein.
      intros Hz. apply levenshtein_prefix_zero in Hz as [_ Htake]; [|done..].
      by rewrite !firstn_all in Htake.
    - intros ->. rewrite calculate_edit_distance_levenshtein. apply levenshtein_prefix_self. }
  split; [|tauto]. rewrite Hzero. split.
  - intros [_ ->]. split; [done|]. exists tseq. by rewrite Hs, Ht.
  - intros (_ & vs & Hs' & Ht'). split; [lia|congruence].
Qed.

Lemma grade_answers_canonical student_answers standard_answers
    (allow_transposition order_by_key : bool) :
  canonical_dict student_answers = true ->
  canonical_dict standard_answers = true ->
  exists g,
    grade_answers student_answers standard_answers allow_transposition order_by_key
      = Ok g /\
    total g = length standard_answers /\
    answered_count g = length student_answers /\
    correct_count g
      = length (filter (fun k => k ∈ keys student_answers /\
                                 get student_answers k = get standard_answers k)
                       (keys standard_answers)) /\
    missing_count g
      = length (filter (fun k => k ∉ keys student_answers) (keys standard_answers)) /\
    extra_count g
      = length (filter (fun k => k ∉ keys standard_answers) (keys student_answers)) /\
    wrong_count g
      = (Z.of_nat (length student_answers) - Z.of_nat (correct_count g)
         - Z.of_nat (extra_count g))%Z.
Proof.
  intros Hstu Hstd.
  destruct standard_answers as [|s0 standard_answers].
  { eexists. split; [done|]. cbn [total answered_count correct_count missing_count
                                  extra_count wrong_count].
    split; [done|]. split; [done|]. split; [done|]. split; [done|]. split; [|lia].
    rewrite length_filter_all; [unfold keys; by rewrite length_fmap|].
    intros k _. apply not_elem_of_nil. }
  destruct student_answers as [|t0 student_answers].
  { eexists. split; [done|]. cbn [total answered_count correct_count missing_count
                                  extra_count wrong_count].
    split; [done|]. split; [done|]. split; [|split; [|done]].
    - symmetry. apply length_filter_none. intros k _ [Hk _]. by apply elem_of_nil in Hk.
    - rewrite length_filter_all; [unfold keys; by rewrite length_fmap|].
      intros k _. apply not_elem_of_nil. }
  destruct (grade_answers_total (t0 :: student_answers) (s0 :: standard_answers)
              allow_transposition order_by_key) as [g Hg];
    [by apply canonical_dict_printed_back..|].
  exists g. split; [done|].
  destruct (grade_answers_Ok _ _ _ _ _ Hg) as (sseq & tseq & _ & _ & Hk & Htot & Hans & _);
    [done..|].
  rewrite (key_statistics_canonical _ _ Hstu Hstd) in Hk.
  injection Hk as Hc Hm Hx Hw. rewrite <- Hc, <- Hx. done.
Qed.

(** X19: on canonical answer sets [grade_answers] returns, and its
    counters count what they are named after: reference keys answered with
    the same value, reference keys answered with another value, reference
    keys not answered, answered keys not in the reference; so
    [correct + wrong + missing = total] and
    [correct + wrong + extra = answered_count]. *)
Theorem grade_answers_statistics student_answers standard_answers
    (allow_transposition order_by_key : bool) :
  canonical_dict student_answers = true ->
  canonical_dict standard_answers = true ->
  exists g,
    grade_answers student_answers standard_answers allow_transposition order_by_key
      = Ok g /\
    correct_count g
      = length (filter (fun k => k ∈ keys student_answers /\
                                 get student_answers k = get standard_answers k)
                       (keys standard_answers)) /\
    wrong_count g
      = Z.of_nat (length (filter (fun k => k ∈ keys student_answers /\
                                           get student_answers k <> get standard_answers k)
                                 (keys standard_answers))) /\
    missing_count g
      = length (filter (fun k => k ∉ keys student_answers) (keys standard_answers)) /\
    extra_count g
      = length (filter (fun k => k ∉ keys standard_answers) (keys student_answers)) /\
    (Z.of_nat (correct_count g) + wrong_count g + Z.of_nat (missing_count g)
     = Z.of_nat (total g))%Z /\
    (Z.of_nat (correct_count g) + wrong_count g + Z.of_nat (extra_count g)
     = Z.of_nat (answered_count g))%Z.
Proof.
  intros Hstu Hstd.
  destruct (grade_answers_canonical student_answers standard_answers
              allow_transposition order_by_key Hstu Hstd)
    as (g & Hg & Htot & Hans & Hc & Hm & Hx & Hw).
  exists g. split; [done|].
  pose proof Hstu as [Hwf_t _]%canonical_dict_spec.
  pose proof Hstd as [Hwf_s _]%canonical_dict_spec.
  pose proof (common_keys_length _ _ Hwf_t Hwf_s) as Hcommon.
  pose proof (length_filter_split (fun k => k ∈ keys student_answers)
                (fun k => get student_answers k = get standard_answers k)
                (keys standard_answers)) as Hsplit.
  pose proof (length_filter_complement (fun k => k ∈ keys student_answers)
                (keys standard_answers)) as Hcs.
  pose proof (length_filter_complement (fun k => k ∈ keys standard_answers)
                (keys student_answers)) as Hct.
  unfold keys in Hcs at 1. unfold keys in Hct at 1. rewrite length_fmap in Hcs, Hct.
  rewrite Hw, Htot, Hans, Hc, Hm, Hx.
  split; [done|]. split; [lia|]. split; [done|]. split; [done|]. lia.
Qed.

(** X20: grading a canonical, non-empty answer set against itself returns
    accuracy 100, edit distance 0, every key correct and none missing,
    extra or wrong. *)
Theorem grade_answers_of_identical_answers d (allow_transposition order_by_key : bool) :
  canonical_dict d = true -> d <> [] ->
  exists g,
    grade_answers d d allow_transposition order_by_key = Ok g /\
    (accuracy g == 100)%Q /\
    edit_distance g = 0 /\
    correct_count g = length d /\ answered_count g = length d /\ total g = length d /\
    missing_count g = 0 /\ extra_count g = 0 /\ wrong_count g = 0%Z.
Proof.
  intros Hcanon Hne.
  destruct (grade_answers_canonical d d allow_transposition order_by_key Hcanon Hcanon)
    as (g & Hg & Htot & Hans & Hc & Hm & Hx & Hw).
  exists g. split; [done|].
  destruct (grade_answers_Ok _ _ _ _ _ Hg) as (sseq & tseq & Hs & Ht & _ & _ & _ & Hd & Ha);
    [done..|].
  assert (sseq = tseq) as <- by congruence.
  assert (edit_distance g = 0) as Hzero.
  { rewrite Hd, calculate_edit_distance_levenshtein. apply levenshtein_prefix_self. }
  assert (correct_count g = length d) as Hcorrect.
  { rewrite Hc, length_filter_all; [unfold keys; by rewrite length_fmap|]. done. }
  assert (missing_count g = 0) as Hmissing.
  { rewrite Hm. apply length_filter_none. by intros k Hk Hnot. }
  assert (extra_count g = 0) as Hextra.
  { rewrite Hx. apply length_filter_none. by intros k Hk Hnot. }
  split.
  { rewrite Ha. unfold sequence_accuracy. apply accuracy_of_100.
    rewrite Hd in Hzero. split; [|done].
    apply values_sequence_from_dict_length in Hs. destruct d; [done|]. simpl in Hs. lia. }
  split; [done|]. split; [done|]. split; [done|]. split; [done|].
  split; [done|]. split; [done|]. lia.
Qed.

End GradingTheorems.

(** An instance: the same value under two different keys. *)
Lemma grade_answers_full_marks_witness :
  ((accuracy (Grade 0 1 1 (sequence_accuracy ["A"] ["A"] true) 0 1 1 0) == 100)%Q <->
   [("1", "A")] <> [] /\
   exists vs, values_sequence_from_dict true [("1", "A")] = Ok vs /\
              values_sequence_from_dict true [("2", "A")] = Ok vs) /\
  ((accuracy (Grade 0 1 1 (sequence_accuracy ["A"] ["A"] true) 0 1 1 0) == 100)%Q ->
   edit_distance (Grade 0 1 1 (sequence_accuracy ["A"] ["A"] true) 0 1 1 0) = 0).
Proof.
  apply (grade_answers_full_marks [("2", "A")] [("1", "A")] true true
           (Grade 0 1 1 (sequence_accuracy ["A"] ["A"] true) 0 1 1 0)).
  by vm_compute.
Defined.

(** An instance: one key right, one wrong, one missing, one extra. *)
Lemma grade_answers_statistics_witness :
  exists g,
    grade_answers [("0", "A"); ("1", "X"); ("7", "Y")] [("0", "A"); ("1", "B"); ("2", "C")]
                  true true = Ok g /\
    correct_count g
      = length (filter (fun k => k ∈ keys [("0", "A"); ("1", "X"); ("7", "Y")] /\
                                 get [("0", "A"); ("1", "X"); ("7", "Y")] k
                                 = get [("0", "A"); ("1", "B"); ("2", "C")] k)
                       (keys [("0", "A"); ("1", "B"); ("2", "C")])) /\
    wrong_count g
      = Z.of_nat (length (filter (fun k => k ∈ keys [("0", "A"); ("1", "X"); ("7", "Y")] /\
                                           get [("0", "A"); ("1", "X"); ("7", "Y")] k
                                           <> get [("0", "A"); ("1", "B"); ("2", "C")] k)
                                 (keys [("0", "A"); ("1", "B"); ("2", "C")]))) /\
    missing_count g
      = length (filter (fun k => k ∉ keys [("0", "A"); ("1", "X"); ("7", "Y")])
                       (keys [("0", "A"); ("1", "B"); ("2", "C")])) /\
    extra_count g
      = length (filter (fun k => k ∉ keys [("0", "A"); ("1", "B"); ("2", "C")])
                       (keys [("0", "A"); ("1", "X"); ("7", "Y")])) /\
    (Z.of_nat (correct_count g) + wrong_count g + Z.of_nat (missing_count g)
     = Z.of_nat (total g))%Z /\
    (Z.of_nat (correct_count g) + wrong_count g + Z.of_nat (extra_count g)
     = Z.of_nat (answered_count g))%Z.
Proof.
  apply (grade_answers_statistics [("0", "A"); ("1", "X"); ("7", "Y")]
                                  [("0", "A"); ("1", "B"); ("2", "C")] true true);
    reflexivity.
Defined.

(** An instance: two answers. *)
Lemma grade_answers_of_identical_answers_witness :
  exists g,
    grade_answers [("0", "A"); ("1", "B")] [("0", "A"); ("1", "B")] true true = Ok g /\
    (accuracy g == 100)%Q /\
    edit_distance g = 0 /\
    correct_count g = length [("0", "A"); ("1", "B")] /\
    answered_count g = length [("0", "A"); ("1", "B")] /\
    total g = length [("0", "A"); ("1", "B")] /\
    missing_count g = 0 /\ extra_count g = 0 /\ wrong_count g = 0%Z.
Proof.
  apply (grade_answers_of_identical_answers [("0", "A"); ("1", "B")] true true);
    [reflexivity|done].
Defined.

(** ** Common prefixes and suffixes do not count *)

Section CommonAffixes.
Context {A : Type} `{EqDecision A}.

Lemma levenshtein_prefix_back_r (a b : list A) i j :
  levenshtein_prefix a b i j <= levenshtein_prefix a b i (S j) + 1.
Proof.
  pose proof (levenshtein_prefix_triangle a b b i (S j) j) as Htri.
  pose proof (levenshtein_prefix_step_l b b j j) as Hstep.
  rewrite levenshtein_prefix_self in Hstep. lia.
Qed.

Lemma levenshtein_prefix_back_l (a b : list A) i j :
  levenshtein_prefix a b i j <= levenshtein_prefix a b (S i) j + 1.
Proof.
  rewrite (levenshtein_prefix_sym a b i j), (levenshtein_prefix_sym a b (S i) j).
  apply levenshtein_prefix_back_r.
Qed.

Lemma levenshtein_prefix_match (a b : list A) i j :
  a !! i = b !! j ->
  levenshtein_prefix a b (S i) (S j) = levenshtein_prefix a b i j.
Proof.
  intros Heq. rewrite levenshtein_prefix_S. unfold subst_cost, min3.
  rewrite bool_decide_true by done.
  pose proof (levenshtein_prefix_back_r a b i j).
  pose proof (levenshtein_prefix_back_l a b i j). lia.
Qed.

(** The recurrence at [(i, j)] reads only the first [i] and [j] elements. *)
Lemma levenshtein_prefix_ext (a a' b b' : list A) i j :
  take i a = take i a' -> take j b = take j b' ->
  levenshtein_prefix a b i j = levenshtein_prefix a' b' i j.
Proof.
  revert j. induction i as [|i IHi]; intros j Ha Hb; [done|].
  induction j as [|j IHj]; [by rewrite !levenshtein_prefix_0_r|].
  assert (take i a = take i a') as Ha'.
  { apply (f_equal (take i)) in Ha. rewrite !take_take in Ha.
    by replace (i `min` S i) with i in Ha by lia. }
  assert (take j b = take j b') as Hb'.
  { apply (f_equal (take j)) in Hb. rewrite !take_take in Hb.
    by replace (j `min` S j) with j in Hb by lia. }
  assert (a !! i = a' !! i) as Hai.
  { rewrite <- (lookup_take_lt a (S i) i), <- (lookup_take_lt a' (S i) i) by lia.
    by rewrite Ha. }
  assert (b !! j = b' !! j) as Hbj.
  { rewrite <- (lookup_take_lt b (S j) j), <- (lookup_take_lt b' (S j) j) by lia.
    by rewrite Hb. }
  rewrite !levenshtein_prefix_S. unfold subst_cost.
  rewrite (IHi (S j) Ha' Hb), (IHi j Ha' Hb'), (IHj Hb'), Hai, Hbj. done.
Qed.

Lemma levenshtein_app_r (a b c : list A) :
  levenshtein (a ++ c) (b ++ c) = levenshtein a b.
Proof.
  unfold levenshtein. rewrite !length_app.
  assert (forall k, k <= length c ->
    levenshtein_prefix (a ++ c) (b ++ c) (length a + k) (length b + k)
    = levenshtein_prefix a b (length a) (length b)) as Hk.
  { induction k as [|k IH]; intros Hle.
    - rewrite !Nat.add_0_r.
      apply levenshtein_prefix_ext; rewrite take_app_length; by rewrite firstn_all.
    - rewrite <- IH by lia. rewrite !Nat.add_succ_r.
      apply levenshtein_prefix_match.
      rewrite !lookup_app_r by lia. f_equal; lia. }
  by apply Hk.
Qed.

Lemma levenshtein_prefix_0_l (a b : list A) j : levenshtein_prefix a b 0 j = j.
Proof. done. Qed.

Lemma levenshtein_prefix_cons (x : A) (a b : list A) i j :
  levenshtein_prefix (x :: a) (x :: b) (S i) (S j) = levenshtein_prefix a b i j.
Proof.
  revert j. induction i as [|i IHi].
  - induction j as [|j IHj].
    + rewrite levenshtein_prefix_S, levenshtein_prefix_0_r, !levenshtein_prefix_0_l.
      unfold subst_cost, min3. rewrite bool_decide_true by done. lia.
    + rewrite levenshtein_prefix_S, IHj, !levenshtein_prefix_0_l. unfold min3. lia.
  - induction j as [|j IHj].
    + rewrite levenshtein_prefix_S, IHi, !levenshtein_prefix_0_r. unfold min3. lia.
    + rewrite levenshtein_prefix_S, IHj, !IHi, (levenshtein_prefix_S a b). done.
Qed.

Lemma levenshtein_app_l (c a b : list A) :
  levenshtein (c ++ a) (c ++ b) = levenshtein a b.
Proof.
  unfold levenshtein. induction c as [|x c IH]; [done|].
  simpl. rewrite <- IH. apply levenshtein_prefix_cons.
Qed.

(** X24: elements that two sequences share at the beginning and at the end
    do not change their distance. *)
Theorem calculate_edit_distance_common_affixes
    (before seq1 seq2 after : list A) (allow_transposition : bool) :
  calculate_edit_distance (before ++ seq1 ++ after) (before ++ seq2 ++ after)
                          allow_transposition
  = calculate_edit_distance seq1 seq2 allow_transposition.
Proof.
  rewrite !calculate_edit_distance_levenshtein.
  by rewrite levenshtein_app_l, levenshtein_app_r.
Qed.

End CommonAffixes.

(** ** The classification of a record and its grade *)

Section ClassificationAndGrade.
Context {V : Type} `{EqDecision V}.
Implicit Types (standard_answers model_answers : dict V).

Lemma select_filter {A : Type} (test : A -> result bool) (P : A -> Prop)
    `{forall x, Decision (P x)} (l : list A) :
  (forall k, k ∈ l -> test k = Ok (bool_decide (P k))) ->
  select test l = Ok (filter P l).
Proof.
  induction l as [|k l IH]; intros Htest; [done|].
  simpl. rewrite (Htest k) by (by left). simpl.
  rewrite IH by (intros k' Hk'; apply Htest; by right). simpl.
  rewrite filter_cons. unfold mret, result_ret.
  destruct (decide (P k)); [rewrite bool_decide_true by done|rewrite bool_decide_false by done];
    done.
Qed.

Lemma value_correct_canonical standard_answers model_answers (z : Z) :
  Py.str z ∈ keys model_answers ->
  value_correct standard_answers model_answers z
  = Ok (bool_decide (Py.str z ∈ keys standard_answers /\
                     get model_answers (Py.str z) = get standard_answers (Py.str z))).
Proof.
  intros Hm. unfold value_correct.
  destruct (contains standard_answers (Py.str z)) eqn:Hc.
  - apply contains_true in Hc.
    destruct (getitem_Ok model_answers _ Hm) as [a Ha].
    destruct (getitem_Ok standard_answers _ Hc) as [b Hb].
    rewrite Ha, Hb. simpl. apply getitem_Ok_get in Ha, Hb. rewrite Ha, Hb.
    unfold mret, result_ret. f_equal. apply bool_decide_ext.
    split; [by intros ->|]. by intros [_ [= ->]].
  - unfold mret, result_ret. f_equal. symmetry. apply bool_decide_eq_false.
    intros [Hc' _]. apply contains_true in Hc'. congruence.
Qed.

Lemma canonical_int_keys (d : dict V) :
  canonical_dict d = true ->
  exists zs, int_keys d = Ok zs /\ StronglySorted Z.lt zs /\
             Py.str <$> zs ≡ₚ keys d /\
             forall z, z ∈ zs <-> Py.str z ∈ keys d.
Proof.
  intros Hcanon.
  destruct (canonical_keys_parse d Hcanon) as [sk Hsk].
  destruct (canonical_keys_sorted d sk Hcanon Hsk) as (Hperm & Hsorted & Hnd).
  exists (Py.sorted_int sk).
  split; [unfold int_keys; by rewrite Hsk|]. split; [done|]. split; [done|].
  intros z. rewrite <- Hperm. split.
  - intros Hz. apply list_elem_of_fmap. by exists z.
  - intros (z' & Hz' & Hin)%list_elem_of_fmap.
    assert (z = z') as ->; [|done].
    pose proof (int_str z) as H1. rewrite Hz', int_str in H1. congruence.
Qed.

Lemma length_filter_keys (d : dict V) (zs : list Z) (P : string -> Prop)
    `{forall k, Decision (P k)} :
  Py.str <$> zs ≡ₚ keys d ->
  length (filter (fun z => P (Py.str z)) zs) = length (filter P (keys d)).
Proof. intros <-. by rewrite length_filter_fmap. Qed.

(** The keys of [d] under which the two answer sets hold the same value. *)
Local Abbreviation agreeing d standard_answers model_answers :=
  (fun k : string => k ∈ keys d /\ get model_answers k = get standard_answers k).

(** X21: for two canonical answer sets the classification of
    [analyze_errors.py] and [grade_answers] count the same things: the
    anchors are all value-correct keys and there are [correct_count] of
    them, the hallucinated keys are [extra_count] many, the keys reported
    missing are the [wrong_count + missing_count] reference keys that are
    not anchors, and anchors and missing keys together are the [total]
    reference keys. *)
Theorem classification_agrees_with_grade standard_answers model_answers
    (allow_transposition order_by_key : bool) :
  canonical_dict standard_answers = true ->
  canonical_dict model_answers = true ->
  exists a missing g,
    find_anchors standard_answers model_answers = Ok a /\
    missing_keys standard_answers model_answers = Ok missing /\
    grade_answers model_answers standard_answers allow_transposition order_by_key
      = Ok g /\
    lcs a = correct_model_keys a /\
    length (lcs a) = correct_count g /\
    length (hallucination_keys a) = extra_count g /\
    (Z.of_nat (length missing) = wrong_count g + Z.of_nat (missing_count g))%Z /\
    length (lcs a) + length missing = total g.
Proof.
  intros Hs Hm.
  destruct (canonical_int_keys _ Hs) as (sk & Hsk & Hsk_sorted & Hsk_perm & Hsk_in).
  destruct (canonical_int_keys _ Hm) as (mk & Hmk & Hmk_sorted & Hmk_perm & Hmk_in).
  pose proof Hs as [Hwf_s Hall_s]%canonical_dict_spec.
  pose proof Hm as [Hwf_m Hall_m]%canonical_dict_spec.
  assert (select (value_correct standard_answers model_answers) mk
          = Ok (filter (fun z => agreeing standard_answers standard_answers model_answers (Py.str z)) mk)) as Hsel.
  { apply select_filter. intros z Hz. apply value_correct_canonical. by apply Hmk_in. }
  set (a := Anchors sk mk (filter (fun z => agreeing standard_answers standard_answers model_answers (Py.str z)) mk)
              (longest_common_subsequence sk (filter (fun z => agreeing standard_answers standard_answers model_answers (Py.str z)) mk))).
  assert (find_anchors standard_answers model_answers = Ok a) as Ha.
  { unfold find_anchors. rewrite Hsk. simpl. rewrite Hmk. simpl. by rewrite Hsel. }
  destruct (canonical_record_has_no_misorder _ _ Hwf_s Hwf_m Hall_s Hall_m a Ha)
    as [Hlcs Hmis].
  destruct (correct_keys_total standard_answers model_answers model_answers)
    as [ck Hck]; [done|].
  pose proof (correct_keys_Ok _ _ _ _ Hck) as Hck_in.
  assert (forall z, z ∈ sk -> z ∈ ck <-> agreeing model_answers standard_answers model_answers (Py.str z)) as Hck_Q.
  { intros z Hz. rewrite Hck_in. unfold adds_correct_key. split.
    - intros (k & Hk & Hdigit & Hks & (v & Hv1 & Hv2) & Hz').
      assert (k = Py.str z) as ->.
      { symmetry. by apply (canonical_dict_printed_back _ Hs). }
      split; [done|congruence].
    - intros [Hkm Heq]. exists (Py.str z). split; [done|].
      assert (Py.str z ∈ keys standard_answers) as Hks by (by apply Hsk_in).
      split.
      { rewrite Forall_forall in Hall_s.
        by apply Hall_s, canonical_key_spec in Hks as [? _]. }
      split; [done|]. split; [|apply int_str].
      apply get_is_Some in Hkm as [v Hv]. exists v. split; [done|congruence]. }
  set (missing := filter (fun key => key ∉ ck) sk).
  assert (missing_keys standard_answers model_answers = Ok missing) as Hmissing.
  { unfold missing_keys. rewrite Hsk. simpl. by rewrite Hck. }
  destruct (grade_answers_canonical model_answers standard_answers
              allow_transposition order_by_key Hm Hs)
    as (g & Hg & Htot & Hans & Hc & Hmc & Hx & Hw).
  exists a, missing, g.
  split; [done|]. split; [done|]. split; [done|]. split; [done|].
  assert (length (lcs a) = correct_count g) as Hlen_lcs.
  { rewrite Hlcs, Hc. unfold a. cbn [correct_model_keys].
    pose proof (length_filter_keys model_answers mk
                  (agreeing standard_answers standard_answers model_answers) Hmk_perm)
      as Hkeys.
    pose proof (size_list_to_set_filter
                  (agreeing standard_answers standard_answers model_answers)
                  (keys model_answers)
                  (list_to_set (filter
                     (agreeing model_answers standard_answers model_answers)
                     (keys standard_answers))) Hwf_m) as Hsize.
    rewrite size_list_to_set in Hsize by (by apply NoDup_filter).
    rewrite Hkeys, <- Hsize; [done|].
    intros k. rewrite elem_of_list_to_set, list_elem_of_filter. tauto. }
  assert (length missing
          = length (filter (fun k => ~ agreeing model_answers standard_answers
                                        model_answers k)
                           (keys standard_answers)))
    as Hlen_missing.
  { unfold missing.
    pose proof (length_filter_keys standard_answers sk
                  (fun k => ~ agreeing model_answers standard_answers model_answers k)
                  Hsk_perm) as Hkeys.
    rewrite <- Hkeys.
    apply length_filter_ext. intros z Hz. by rewrite (Hck_Q z Hz). }
  pose proof (length_filter_complement
                (agreeing model_answers standard_answers model_answers)
                (keys standard_answers)) as Hcompl.
  unfold keys in Hcompl at 1. rewrite length_fmap in Hcompl.
  split; [done|]. split; [|split].
  - rewrite Hx. unfold hallucination_keys, a. cbn [all_model_keys standard_keys].
    pose proof (length_filter_keys model_answers mk
                  (fun k => k ∉ keys standard_answers) Hmk_perm) as Hkeys.
    rewrite <- Hkeys.
    apply length_filter_ext. intros z Hz. by rewrite (Hsk_in z).
  - pose proof (common_keys_length _ _ Hwf_m Hwf_s) as Hcommon.
    pose proof (length_filter_complement (fun k => k ∈ keys model_answers)
                  (keys standard_answers)) as Hcs.
    pose proof (length_filter_complement (fun k => k ∈ keys standard_answers)
                  (keys model_answers)) as Hct.
    unfold keys in Hcs at 1. unfold keys in Hct at 1. rewrite length_fmap in Hcs, Hct.
    rewrite Hw, Hmc, Hx, Hc. lia.
  - rewrite Hlen_lcs, Htot, Hc. lia.
Qed.

End ClassificationAndGrade.

(** An instance: one key right, one wrong, one missing, one extra. *)
Lemma classification_agrees_with_grade_witness :
  exists a missing g,
    find_anchors [("0", "A"); ("1", "B"); ("2", "C")]
                 [("0", "A"); ("1", "X"); ("7", "Y")] = Ok a /\
    missing_keys [("0", "A"); ("1", "B"); ("2", "C")]
                 [("0", "A"); ("1", "X"); ("7", "Y")] = Ok missing /\
    grade_answers [("0", "A"); ("1", "X"); ("7", "Y")]
                  [("0", "A"); ("1", "B"); ("2", "C")] true true = Ok g /\
    lcs a = correct_model_keys a /\
    length (lcs a) = correct_count g /\
    length (hallucination_keys a) = extra_count g /\
    (Z.of_nat (length missing) = wrong_count g + Z.of_nat (missing_count g))%Z /\
    length (lcs a) + length missing = total g.
Proof.
  apply (classification_agrees_with_grade
           [("0", "A"); ("1", "B"); ("2", "C")]
           [("0", "A"); ("1", "X"); ("7", "Y")] true true); reflexivity.
Defined.

(** ** The summary of a table *)

Section SummaryFacts.
Context {V : Type} `{EqDecision V}.

Import Summary.

Lemma grade_answers_accuracy_bounds (student_answers standard_answers : dict V)
    (allow_transposition order_by_key : bool) (g : grade) :
  grade_answers student_answers standard_answers allow_transposition order_by_key = Ok g ->
  (0 <= accuracy g <= 100)%Q.
Proof.
  intros Hg.
  destruct standard_answers as [|s0 standard_answers].
  { injection Hg as <-. simpl. lra. }
  destruct student_answers as [|t0 student_answers].
  { injection Hg as <-. simpl. lra. }
  destruct (grade_answers_Ok _ _ _ _ _ Hg) as (sseq & tseq & _ & _ & _ & _ & _ & _ & ->);
    [done..|].
  unfold sequence_accuracy. apply accuracy_of_bounds.
  rewrite calculate_edit_distance_levenshtein. apply levenshtein_prefix_le_max.
Qed.

Lemma graded_accuracy_bounds (mdl std : loaded V) (q : Q) :
  graded_accuracy mdl std = Some q -> (0 <= q <= 100)%Q.
Proof.
  assert (forall o : option nat, o ≫= (fun _ => Some 0%Q) = Some q -> (0 <= q <= 100)%Q)
    as Hlen.
  { intros [n|]; simpl; [|done]. intros [= <-]. lra. }
  unfold graded_accuracy.
  destruct std as [s|n|b], mdl as [m|n'|b'];
    try (repeat case_match; try done; first [apply Hlen | intros [= <-]; lra]).
  destruct (grade_answers m s true true) as [g|] eqn:Hg; simpl; [|done].
  intros [= <-]. by eapply grade_answers_accuracy_bounds.
Qed.

Lemma row_accuracy_bounds (r : record V) (q : Q) :
  row_accuracy r = Some q -> (0 <= q <= 100)%Q.
Proof.
  unfold row_accuracy.
  destruct (standard_json r) as [std|]; simpl; [|done].
  destruct (model_response_json r) as [mdl|]; simpl; [|done].
  apply graded_accuracy_bounds.
Qed.

End SummaryFacts.

Section Statistics.
Import Summary.

Lemma sum_bounds (data : list Q) (lo hi : Q) :
  Forall (fun q => lo <= q <= hi)%Q data ->
  (lo * inject_Z (Z.of_nat (length data)) <= sum data
   <= hi * inject_Z (Z.of_nat (length data)))%Q.
Proof.
  induction 1 as [|q data [Hlo Hhi] _ [IHlo IHhi]].
  { cbn [length sum foldr]. change (inject_Z (Z.of_nat 0)) with 0%Q. lra. }
  cbn [length sum foldr]. fold (sum data).
  rewrite Nat2Z.inj_succ, <- Z.add_1_r, inject_Z_plus.
  change (inject_Z 1) with 1%Q.
  set (n := inject_Z (Z.of_nat (length data))) in *.
  split.
  - assert (lo * (n + 1) == lo * n + lo)%Q as -> by ring. lra.
  - assert (hi * (n + 1) == hi * n + hi)%Q as -> by ring. lra.
Qed.

Lemma mean_bounds (data : list Q) (lo hi : Q) :
  data <> [] ->
  Forall (fun q => lo <= q <= hi)%Q data ->
  exists avg, mean data = Some avg /\ (lo <= avg <= hi)%Q.
Proof.
  intros Hne Hall. destruct data as [|q data]; [done|].
  eexists. split; [done|].
  pose proof (sum_bounds _ _ _ Hall) as [Hlo Hhi].
  assert (0 < inject_Z (Z.of_nat (length (q :: data))))%Q as Hpos.
  { change 0%Q with (inject_Z 0). rewrite <- Zlt_Qlt. simpl. lia. }
  split.
  - by apply Qle_shift_div_l.
  - by apply Qle_shift_div_r.
Qed.

Lemma list_min_spec (data : list Q) :
  data <> [] ->
  exists lo, list_min data = Some lo /\
    (exists q, q ∈ data /\ lo == q)%Q /\ Forall (fun q => lo <= q)%Q data.
Proof.
  intros Hne. destruct data as [|x data]; [done|]. simpl.
  eexists. split; [done|].
  assert (forall acc,
    let r := foldl (fun acc y => if decide (acc <= y)%Q then acc else y) acc data in
    (r == acc \/ exists q, q ∈ data /\ r == q)%Q /\
    (r <= acc)%Q /\ Forall (fun q => r <= q)%Q data) as Hfold.
  { clear. induction data as [|y data IH]; intros acc; simpl.
    { split; [left; reflexivity|]. split; [lra|constructor]. }
    destruct (IH (if decide (acc <= y)%Q then acc else y)) as (Hin & Hle & Hall).
    set (r := foldl _ _ data) in *.
    case_decide as Hcmp.
    - split; [|split; [done|]].
      + destruct Hin as [Hin|(q & Hq & Hin)]; [by left|].
        right. exists q. split; [by right|done].
      + constructor; [lra|done].
    - assert (y <= acc)%Q by (apply Qnot_le_lt in Hcmp; lra).
      split; [|split; [lra|]].
      + right. destruct Hin as [Hin|(q & Hq & Hin)].
        * exists y. split; [by left|done].
        * exists q. split; [by right|done].
      + constructor; [done|done]. }
  destruct (Hfold x) as (Hin & Hle & Hall). split.
  - destruct Hin as [Hin|(q & Hq & Hin)].
    + exists x. split; [by left|done].
    + exists q. split; [by right|done].
  - by constructor.
Qed.

Lemma list_max_spec (data : list Q) :
  data <> [] ->
  exists hi, list_max data = Some hi /\
    (exists q, q ∈ data /\ hi == q)%Q /\ Forall (fun q => q <= hi)%Q data.
Proof.
  intros Hne. destruct data as [|x data]; [done|]. simpl.
  eexists. split; [done|].
  assert (forall acc,
    let r := foldl (fun acc y => if decide (y <= acc)%Q then acc else y) acc data in
    (r == acc \/ exists q, q ∈ data /\ r == q)%Q /\
    (acc <= r)%Q /\ Forall (fun q => q <= r)%Q data) as Hfold.
  { clear. induction data as [|y data IH]; intros acc; simpl.
    { split; [left; reflexivity|]. split; [lra|constructor]. }
    destruct (IH (if decide (y <= acc)%Q then acc else y)) as (Hin & Hle & Hall).
    set (r := foldl _ _ data) in *.
    case_decide as Hcmp.
    - split; [|split; [done|]].
      + destruct Hin as [Hin|(q & Hq & Hin)]; [by left|].
        right. exists q. split; [by right|done].
      + constructor; [lra|done].
    - assert (acc <= y)%Q by (apply Qnot_le_lt in Hcmp; lra).
      split; [|split; [lra|]].
      + right. destruct Hin as [Hin|(q & Hq & Hin)].
        * exists y. split; [by left|done].
        * exists q. split; [by right|done].
      + constructor; [done|done]. }
  destruct (Hfold x) as (Hin & Hle & Hall). split.
  - destruct Hin as [Hin|(q & Hq & Hin)].
    + exists x. split; [by left|done].
    + exists q. split; [by right|done].
  - by constructor.
Qed.

Lemma median_bounds (data : list Q) (lo hi : Q) :
  data <> [] ->
  Forall (fun q => lo <= q <= hi)%Q data ->
  exists med, median data = Some med /\ (lo <= med <= hi)%Q.
Proof.
  intros Hne Hall. unfold median.
  set (sorted := merge_sort Qle data).
  assert (sorted ≡ₚ data) as Hperm by apply merge_sort_Permutation.
  assert (Forall (fun q => lo <= q <= hi)%Q sorted) as Hsorted by (by rewrite Hperm).
  assert (0 < length sorted) as Hlen.
  { rewrite Hperm. destruct data; [done|simpl; lia]. }
  assert (forall i q, sorted !! i = Some q -> (lo <= q <= hi)%Q) as Hlookup.
  { intros i q Hq. rewrite Forall_forall in Hsorted.
    apply Hsorted. by eapply list_elem_of_lookup_2. }
  destruct (length sorted =? 0) eqn:H0; [apply Nat.eqb_eq in H0; lia|].
  assert (length sorted / 2 < length sorted) as Hhalf
    by (apply Nat.Div0.div_lt_upper_bound; lia).
  destruct (length sorted mod 2 =? 1) eqn:Hodd.
  - destruct (lookup_lt_is_Some_2 sorted (length sorted / 2)) as [q Hq]; [lia|].
    exists q. split; [done|]. by eapply Hlookup.
  - destruct (lookup_lt_is_Some_2 sorted (length sorted / 2 - 1)) as [a Ha]; [lia|].
    destruct (lookup_lt_is_Some_2 sorted (length sorted / 2)) as [b Hb]; [lia|].
    rewrite Ha, Hb. simpl. eexists. split; [done|].
    pose proof (Hlookup _ _ Ha). pose proof (Hlookup _ _ Hb).
    split.
    + apply Qle_shift_div_l; lra.
    + apply Qle_shift_div_r; lra.
Qed.

(** The four statistics of data that lie between two bounds. *)
Lemma statistics_bounds (data : list Q) (lo hi : Q) :
  data <> [] ->
  Forall (fun q => lo <= q <= hi)%Q data ->
  exists avg med least greatest,
    mean data = Some avg /\ median data = Some med /\
    list_min data = Some least /\ list_max data = Some greatest /\
    (lo <= least)%Q /\ (least <= med)%Q /\ (med <= greatest)%Q /\
    (least <= avg)%Q /\ (avg <= greatest)%Q /\ (greatest <= hi)%Q.
Proof.
  intros Hne Hall.
  destruct (list_min_spec data Hne) as (least & Hmin & (q1 & Hq1 & Hleast) & Hmin_all).
  destruct (list_max_spec data Hne) as (greatest & Hmax & (q2 & Hq2 & Hgreatest) & Hmax_all).
  assert (Forall (fun q => least <= q <= greatest)%Q data) as Hbetween.
  { rewrite Forall_forall in Hmin_all, Hmax_all. apply Forall_forall.
    intros q Hq. split; [by apply Hmin_all|by apply Hmax_all]. }
  destruct (mean_bounds data least greatest Hne Hbetween) as (avg & Havg & Havg_b).
  destruct (median_bounds data least greatest Hne Hbetween) as (med & Hmed & Hmed_b).
  exists avg, med, least, greatest.
  rewrite Forall_forall in Hall.
  pose proof (Hall q1 Hq1). pose proof (Hall q2 Hq2).
  repeat split; try done; lra.
Qed.

End Statistics.

Lemma length_omap_le {A B : Type} (f : A -> option B) (l : list A) :
  length (omap f l) <= length l.
Proof. induction l as [|x l IH]; csimpl; [done|]. destruct (f x); simpl; lia. Qed.

Section SummaryTheorems.
Context {V : Type} `{EqDecision V}.

Import Summary.

Lemma analyze_table_with (records : list (record V)) (lo hi : Q) :
  omap row_accuracy records <> [] ->
  Forall (fun q => lo <= q <= hi)%Q (omap row_accuracy records) ->
  exists st,
    analyze_table records = Some st /\
    record_count st = length (omap row_accuracy records) /\
    (lo <= min_accuracy st)%Q /\
    (min_accuracy st <= median_accuracy st)%Q /\
    (median_accuracy st <= max_accuracy st)%Q /\
    (min_accuracy st <= avg_accuracy st)%Q /\
    (avg_accuracy st <= max_accuracy st)%Q /\
    (max_accuracy st <= hi)%Q.
Proof.
  intros Hne Hall.
  destruct (statistics_bounds _ lo hi Hne Hall)
    as (avg & med & least & greatest & Havg & Hmed & Hmin & Hmax & Hb).
  unfold analyze_table.
  destruct records as [|r records]; [done|].
  destruct (omap row_accuracy (r :: records)) as [|a accuracies] eqn:Hacc; [done|].
  rewrite Havg, Hmed, Hmin, Hmax. cbn [mbind option_bind].
  destruct (omap row_elapsed_time (r :: records)) as [|t ts];
    cbn [mean mbind option_bind]; eexists; (split; [done|]); done.
Qed.

(** X22: [analyze_summary.analyze_table] raises nothing; the statistics it
    returns satisfy [0 <= min <= median <= max <= 100] and
    [min <= avg <= max], [record_count] is at most the number of rows, and
    it is 0 only for a table without rows. *)
Theorem analyze_table_statistics (records : list (record V)) :
  exists st,
    analyze_table records = Some st /\
    record_count st <= length records /\
    (record_count st = 0 <-> records = []) /\
    (0 <= min_accuracy st)%Q /\
    (min_accuracy st <= median_accuracy st)%Q /\
    (median_accuracy st <= max_accuracy st)%Q /\
    (min_accuracy st <= avg_accuracy st)%Q /\
    (avg_accuracy st <= max_accuracy st)%Q /\
    (max_accuracy st <= 100)%Q.
Proof.
  destruct records as [|r records].
  { eexists. split; [done|]. simpl. repeat split; try done; lra. }
  destruct (omap row_accuracy (r :: records)) as [|a accuracies] eqn:Hacc.
  { eexists. split; [unfold analyze_table; by rewrite Hacc|]. simpl.
    repeat split; try done; try lia; lra. }
  destruct (analyze_table_with (r :: records) 0 100) as (st & Hst & Hcount & Hb).
  { by rewrite Hacc. }
  { apply Forall_forall. intros q Hq.
    apply list_elem_of_omap in Hq as (r' & _ & Hq). by eapply row_accuracy_bounds. }
  exists st. split; [done|]. rewrite Hcount.
  split; [apply length_omap_le|]. split; [|done].
  rewrite Hacc. simpl. split; [lia|done].
Qed.

End SummaryTheorems.

Section SummaryOfPerfectRows.
Context {V : Type} `{EqDecision V}.

Import Summary.

Lemma row_accuracy_of_identical_answers (r : record V) (d : dict V) :
  standard_json r = Some (Object d) -> model_response_json r = Some (Object d) ->
  canonical_dict d = true -> d <> [] ->
  exists q, row_accuracy r = Some q /\ (q == 100)%Q.
Proof.
  intros Hs Hm Hcanon Hne. unfold row_accuracy. rewrite Hs, Hm. simpl.
  destruct (grade_answers_total d d true true) as [g Hg];
    [by apply canonical_dict_printed_back..|].
  rewrite Hg. simpl. eexists. split; [done|].
  destruct (grade_answers_Ok _ _ _ _ _ Hg) as (sseq & tseq & Hs' & Ht' & _ & _ & _ & _ & ->);
    [done..|].
  assert (sseq = tseq) as <- by congruence.
  unfold sequence_accuracy. apply accuracy_of_100.
  rewrite calculate_edit_distance_levenshtein.
  split; [|apply levenshtein_prefix_self].
  apply values_sequence_from_dict_length in Hs'. destruct d; [done|]. simpl in Hs'. lia.
Qed.

(** X23: for a table in which every row holds the same canonical,
    non-empty answer set as reference and as response, every row is graded
    and the average, median, minimum and maximum accuracy are all 100. *)
Theorem analyze_table_of_perfect_rows (records : list (record V)) :
  records <> [] ->
  Forall (fun r => exists d, standard_json r = Some (Object d) /\
                             model_response_json r = Some (Object d) /\
                             canonical_dict d = true /\ d <> []) records ->
  exists st,
    analyze_table records = Some st /\
    record_count st = length records /\
    (avg_accuracy st == 100)%Q /\ (median_accuracy st == 100)%Q /\
    (min_accuracy st == 100)%Q /\ (max_accuracy st == 100)%Q.
Proof.
  intros Hne Hall.
  assert (length (omap row_accuracy records) = length records /\
          Forall (fun q => 100 <= q <= 100)%Q (omap row_accuracy records)) as [Hlen Hacc].
  { clear Hne. induction Hall as [|r records (d & Hs & Hm & Hcanon & Hd) _ [IHlen IHall]].
    { split; [done|constructor]. }
    destruct (row_accuracy_of_identical_answers r d Hs Hm Hcanon Hd) as (q & Hq & Hq100).
    csimpl. rewrite Hq. simpl. split; [by rewrite IHlen|].
    constructor; [lra|done]. }
  destruct (analyze_table_with records 100 100) as (st & Hst & Hcount & Hb); [|done|].
  { intros Hnil. rewrite Hnil in Hlen. destruct records; done. }
  exists st. split; [done|]. split; [congruence|].
  destruct Hb as (? & ? & ? & ? & ? & ?). repeat split; lra.
Qed.

End SummaryOfPerfectRows.

(** An instance: two rows with the same perfect answer. *)
Lemma analyze_table_of_perfect_rows_witness :
  exists st,
    Summary.analyze_table
      [Summary.Record_ (Some (Summary.Object [("0", "A"); ("1", "B")]))
                       (Some (Summary.Object [("0", "A"); ("1", "B")])) (Some 2%Q);
       Summary.Record_ (Some (Summary.Object [("0", "A")]))
                       (Some (Summary.Object [("0", "A")])) None] = Some st /\
    Summary.record_count st
    = length [Summary.Record_ (Some (Summary.Object [("0", "A"); ("1", "B")]))
                              (Some (Summary.Object [("0", "A"); ("1", "B")])) (Some 2%Q);
              Summary.Record_ (Some (Summary.Object [("0", "A")]))
                              (Some (Summary.Object [("0", "A")])) None] /\
    (Summary.avg_accuracy st == 100)%Q /\ (Summary.median_accuracy st == 100)%Q /\
    (Summary.min_accuracy st == 100)%Q /\ (Summary.max_accuracy st == 100)%Q.
Proof.
  apply (analyze_table_of_perfect_rows
           [Summary.Record_ (Some (Summary.Object [("0", "A"); ("1", "B")]))
                            (Some (Summary.Object [("0", "A"); ("1", "B")])) (Some 2%Q);
            Summary.Record_ (Some (Summary.Object [("0", "A")]))
                            (Some (Summary.Object [("0", "A")])) None]).
  - done.
  - constructor; [by exists [("0", "A"); ("1", "B")]|].
    constructor; [by exists [("0", "A")]|]. constructor.
Defined.

(** ** File and table names *)

Section Names.
Import Str Naming.

Lemma replace_from_char (c d : ascii) (s : list ascii) :
  replace_from [c] [d] 0 s = (fun x => if decide (x = c) then d else x) <$> s.
Proof.
  induction s as [|x s IH]; [done|].
  cbn [replace_from length]. change (1 - 1) with 0. rewrite fmap_cons, IH.
  case_bool_decide as Hp.
  - apply prefix_cons_inv_1 in Hp. subst x. by rewrite decide_True by done.
  - rewrite decide_False; [done|]. intros ->. apply Hp.
    by apply prefix_cons, prefix_nil.
Qed.

Lemma replace_from_absent (old new s : list ascii) (o : ascii) (old' : list ascii) :
  old = o :: old' -> o ∉ s -> replace_from old new 0 s = s.
Proof.
  intros -> Hnot. induction s as [|x s IH]; [done|].
  apply not_elem_of_cons in Hnot as [Hne Hnot].
  cbn [replace_from]. rewrite bool_decide_false.
  - by rewrite IH.
  - intros Hp. by apply prefix_cons_inv_1 in Hp.
Qed.

Lemma replace_suffix_db (s : list ascii) :
  "."%char ∉ s -> replace (s ++ chars ".db") (chars ".db") [] = s.
Proof.
  unfold replace. induction s as [|x s IH]; intros Hnot; [done|].
  apply not_elem_of_cons in Hnot as [Hne Hnot].
  rewrite <- app_comm_cons. cbn [replace_from]. rewrite bool_decide_false.
  - by rewrite IH.
  - intros Hp. apply prefix_cons_inv_1 in Hp. done.
Qed.

Lemma basename_id (p : list ascii) : "/"%char ∉ p -> basename p = p.
Proof.
  destruct p as [|c p]; [done|]. intros Hnot. cbn [basename].
  by rewrite bool_decide_false.
Qed.

Lemma basename_after_slash (pre name : list ascii) :
  "/"%char ∉ name -> basename (pre ++ "/"%char :: name) = name.
Proof.
  intros Hnot. induction pre as [|c pre IH].
  - cbn [app basename]. rewrite bool_decide_true by (by left). by apply basename_id.
  - rewrite <- app_comm_cons. cbn [basename]. rewrite bool_decide_true; [done|].
    right. apply elem_of_app. right. by left.
Qed.

Lemma basename_join (dir name : list ascii) :
  "/"%char ∉ name -> basename (join dir name) = name.
Proof.
  intros Hnot. unfold join, startswith, endswith.
  rewrite (bool_decide_false (chars "/" `prefix_of` name)).
  2: { intros [k ->]. destruct Hnot. by left. }
  destruct (decide (dir = [])) as [->|Hne].
  { rewrite bool_decide_true by done. cbn [orb app]. by apply basename_id. }
  rewrite (bool_decide_false (dir = [])) by done. cbn [orb].
  case_bool_decide as Hslash.
  - destruct Hslash as [pre ->]. rewrite <- app_assoc. by apply basename_after_slash.
  - by apply basename_after_slash.
Qed.

Lemma isalnum_plain (c : ascii) :
  isalnum c = true ->
  c <> "/"%char /\ c <> "."%char /\ c <> "-"%char /\ c <> "_"%char.
Proof. intros Hc. repeat split; intros ->; by vm_compute in Hc. Qed.

(** X25: the model id read off a file name [test_results_<id>.db] is
    [<id>], whatever characters the id has. *)
Theorem model_id_of_test_results (id : list ascii) :
  model_id (chars "test_results_" ++ id ++ chars ".db") = id.
Proof.
  unfold model_id, startswith, endswith.
  rewrite bool_decide_true by (by apply prefix_app_r).
  rewrite bool_decide_true.
  2: { rewrite app_assoc. by apply suffix_app_r. }
  cbn [andb]. unfold slice.
  rewrite drop_app_length' by done.
  rewrite !length_app. change (length (chars "test_results_")) with 13.
  change (length (chars ".db")) with 3.
  replace (13 + (length id + 3) - 3 - 13) with (length id) by lia.
  by rewrite take_app_length.
Qed.

Lemma safe_model_id_fixed (l : list ascii) :
  Forall (fun c => isalnum c = true \/ c = "_"%char) l -> safe_model_id l = l.
Proof.
  intros Hl. unfold safe_model_id. induction Hl as [|c l Hc _ IH]; [done|].
  rewrite fmap_cons, IH. f_equal.
  destruct Hc as [->| ->]; [done|by vm_compute].
Qed.

(** X26: [safe_model_id] keeps the length, returns only letters, digits and
    underscores (so no slash and no dot), changes nothing in an id that has
    only such characters, and applying it twice is applying it once. *)
Theorem safe_model_id_safe (id : list ascii) :
  length (safe_model_id id) = length id /\
  Forall (fun c => isalnum c = true \/ c = "_"%char) (safe_model_id id) /\
  ("/"%char ∉ safe_model_id id) /\ ("."%char ∉ safe_model_id id) /\
  safe_model_id (safe_model_id id) = safe_model_id id /\
  (Forall (fun c => isalnum c = true \/ c = "_"%char) id -> safe_model_id id = id).
Proof.
  assert (Forall (fun c => isalnum c = true \/ c = "_"%char) (safe_model_id id)) as Hsafe.
  { apply Forall_fmap, Forall_forall. intros c _. simpl.
    destruct (isalnum c) eqn:Hc; [by left|by right]. }
  assert (forall x, x <> "_"%char -> (forall c, isalnum c = true -> c <> x) ->
                    x ∉ safe_model_id id) as Hnot.
  { intros x Hx Halnum Hin. rewrite Forall_forall in Hsafe.
    destruct (Hsafe x Hin) as [Hc| ->]; [by apply (Halnum x)|done]. }
  split; [apply length_fmap|]. split; [done|].
  split; [apply Hnot; [done|intros c Hc; apply (isalnum_plain c Hc)]|].
  split; [apply Hnot; [done|intros c Hc; apply (isalnum_plain c Hc)]|].
  split; [by apply safe_model_id_fixed|apply safe_model_id_fixed].
Qed.

Lemma safe_id_map (id : list ascii) :
  safe_id id
  = (fun x => if decide (x = "."%char) then "_"%char else x)
    <$> ((fun x => if decide (x = "-"%char) then "_"%char else x) <$> id).
Proof.
  unfold safe_id, replace.
  change (chars "-") with ["-"%char]. change (chars ".") with ["."%char].
  change (chars "_") with ["_"%char]. by rewrite !replace_from_char.
Qed.

Lemma safe_id_safe (id : list ascii) :
  forallb (fun c => isalnum c || bool_decide (c ∈ chars "-._")) id = true ->
  Forall (fun c => isalnum c = true \/ c = "_"%char) (safe_id id).
Proof.
  intros Hid. rewrite safe_id_map. rewrite forallb_forall in Hid.
  apply Forall_fmap, Forall_fmap, Forall_forall. intros c Hc. simpl.
  apply list_elem_of_In, Hid, orb_true_iff in Hc as [Hc|Hc].
  - destruct (isalnum_plain c Hc) as (_ & Hdot & Hdash & _).
    rewrite (decide_False (P := c = "-"%char)) by done.
    rewrite decide_False by done. by left.
  - apply bool_decide_eq_true in Hc. right.
    repeat (apply elem_of_cons in Hc as [->|Hc]; [done|]). by apply elem_of_nil in Hc.
Qed.

(** X27: for a model id made of letters, digits, [-], [.] and [_] whose
    database name does not start with [test_results_], the result database
    that [analyze_model_errors] writes for the database of [app.py] is the
    one [app.py] hands to the heat-map script, given the same results
    directory. *)
Theorem result_database_found (db_dir results_dir id : list ascii) :
  forallb (fun c => isalnum c || bool_decide (c ∈ chars "-._")) id = true ->
  startswith (safe_id id ++ chars ".db") (chars "test_results_") = false ->
  out_db_path results_dir (db_path db_dir id) = err_db results_dir id.
Proof.
  intros Hid Hprefix. unfold out_db_path, db_path, err_db.
  pose proof (safe_id_safe id Hid) as Hsafe.
  assert (forall x, x <> "_"%char -> (forall c, isalnum c = true -> c <> x) ->
                    x ∉ safe_id id) as Hnot.
  { intros x Hx Halnum Hin. rewrite Forall_forall in Hsafe.
    destruct (Hsafe x Hin) as [Hc| ->]; [by apply (Halnum x)|done]. }
  assert ("/"%char ∉ safe_id id) as Hslash.
  { apply Hnot; [done|]. intros c Hc. apply (isalnum_plain c Hc). }
  assert ("."%char ∉ safe_id id) as Hdot.
  { apply Hnot; [done|]. intros c Hc. apply (isalnum_plain c Hc). }
  rewrite basename_join.
  2: { intros [Hin|Hin]%elem_of_app; [done|].
       repeat (apply elem_of_cons in Hin as [Hin|Hin]; [done|]).
       by apply elem_of_nil in Hin. }
  unfold model_id. rewrite Hprefix. cbn [andb].
  rewrite replace_suffix_db by done.
  by rewrite (safe_model_id_fixed _ Hsafe).
Qed.

Lemma str_digits (n : Z) :
  (0 <= n)%Z ->
  Forall (fun c => is_Some (Py.digit_of c)) (list_ascii_of_string (Py.str n)) /\
  Py.isdigit (Py.str n) = true.
Proof.
  intros Hn.
  assert (Forall (fun c => is_Some (Py.digit_of c)) (list_ascii_of_string (Py.str n)) /\
          Py.parse_digits 0 false (list_ascii_of_string (Py.str n)) = Some n)
    as [Hdigits Hparse].
  { destruct n as [|p|p]; [split; [by repeat constructor|done]| |lia].
    apply (parse_int_pretty_positive p). }
  split; [done|]. unfold Py.isdigit.
  destruct (list_ascii_of_string (Py.str n)) as [|c l] eqn:Hl; [done|].
  apply forallb_forall. intros x Hx%list_elem_of_In.
  rewrite Forall_forall in Hdigits. by apply bool_decide_eq_true, Hdigits.
Qed.

(** X28: the loop of [get_all_byte_tables] reads the byte count [n] back
    from the table name [bytes_<n>], for every [n >= 0]. *)
Theorem byte_table_of_count (n : Z) :
  (0 <= n)%Z ->
  byte_table (chars "bytes_" ++ chars (Py.str n))
  = Ok (Some (chars "bytes_" ++ chars (Py.str n), n)).
Proof.
  intros Hn. unfold byte_table.
  destruct (str_digits n Hn) as [Hdigits Hisdigit].
  assert (replace (chars "bytes_" ++ chars (Py.str n)) (chars "bytes_") []
          = chars (Py.str n)) as ->.
  { unfold replace. change (chars "bytes_" ++ chars (Py.str n))
      with ("b"%char :: chars "ytes_" ++ chars (Py.str n)).
    cbn [replace_from]. rewrite bool_decide_true.
    2: { change ("b"%char :: chars "ytes_" ++ chars (Py.str n))
           with (chars "bytes_" ++ chars (Py.str n)). by apply prefix_app_r. }
    cbn [app length chars list_ascii_of_string Nat.sub replace_from].
    apply (replace_from_absent _ _ _ "b"%char (chars "ytes_")); [done|].
    intros Hin. rewrite Forall_forall in Hdigits. destruct (Hdigits _ Hin) as [d Hd].
    by vm_compute in Hd. }
  unfold chars. rewrite string_of_list_ascii_of_string, Hisdigit.
  cbn [negb]. unfold Py.int. by rewrite int_str.
Qed.

End Names.

(** An instance: a model id with a dash and a dot. *)
Lemma result_database_found_witness :
  Naming.out_db_path (Str.chars "results")
    (Naming.db_path (Str.chars "db") (Str.chars "gpt-4.1_mini"))
  = Naming.err_db (Str.chars "results") (Str.chars "gpt-4.1_mini").
Proof.
  apply (result_database_found (Str.chars "db") (Str.chars "results")
                               (Str.chars "gpt-4.1_mini")); reflexivity.
Defined.

(** An instance: the table of the 4096-byte runs. *)
Lemma byte_table_of_count_witness :
  Naming.byte_table (Str.chars "bytes_" ++ Str.chars (Py.str 4096))
  = Ok (Some (Str.chars "bytes_" ++ Str.chars (Py.str 4096), 4096%Z)).
Proof. apply (byte_table_of_count 4096). lia. Defined.

(** ** The order of the tables of a tokens database *)

Section TablesFacts.
Import Tables.

Lemma key_le_refl (k : key) : key_le k k.
Proof. destruct k; simpl; [lia|done]. Qed.

Lemma key_le_trans (k1 k2 k3 : key) : key_le k1 k2 -> key_le k2 k3 -> key_le k1 k3.
Proof.
  destruct k1, k2, k3; simpl; try done; [lia|].
  intros H1 H2. by etrans.
Qed.

Lemma key_le_total (k1 k2 : key) : key_le k1 k2 \/ key_le k2 k1.
Proof.
  destruct k1 as [n1|s1], k2 as [n2|s2]; simpl; [lia|by left|by right|].
  destruct (String.le_total s1 s2); [by left|by right].
Qed.

Context {A : Type} (f : A -> key).

Lemma insert_Permutation (x : A) (l : list A) : insert f x l ≡ₚ x :: l.
Proof.
  induction l as [|y l IH]; [done|]. simpl. case_decide; [done|].
  rewrite IH. apply perm_swap.
Qed.

Lemma sort_Permutation (l : list A) : sort f l ≡ₚ l.
Proof.
  induction l as [|x l IH]; [done|]. simpl. by rewrite insert_Permutation, IH.
Qed.

Lemma insert_sorted (x : A) (l : list A) :
  StronglySorted (fun a b => key_le (f a) (f b)) l ->
  StronglySorted (fun a b => key_le (f a) (f b)) (insert f x l).
Proof.
  induction 1 as [|y l Hs IH Hy]; simpl; [repeat constructor|].
  case_decide as Hle.
  - constructor; [by constructor|]. constructor; [done|].
    eapply Forall_impl; [exact Hy|]. intros z Hz. by eapply key_le_trans.
  - constructor; [done|]. rewrite insert_Permutation. constructor; [|done].
    by destruct (key_le_total (f x) (f y)).
Qed.

Lemma sort_sorted (l : list A) :
  StronglySorted (fun a b => key_le (f a) (f b)) (sort f l).
Proof. induction l as [|x l IH]; [constructor|]. simpl. by apply insert_sorted. Qed.

Lemma insert_stable (k : key) (x : A) (l : list A) :
  filter (fun y => f y = k) (insert f x l) = filter (fun y => f y = k) (x :: l).
Proof.
  induction l as [|y l IH]; [done|]. simpl. case_decide as Hle; [done|].
  rewrite (filter_cons _ y (insert f x l)), IH, !filter_cons.
  destruct (decide (f x = k)) as [Hx|Hx]; [|done].
  destruct (decide (f y = k)) as [Hy|Hy]; [|done].
  destruct Hle. rewrite Hx, Hy. apply key_le_refl.
Qed.

Lemma sort_stable (k : key) (l : list A) :
  filter (fun y => f y = k) (sort f l) = filter (fun y => f y = k) l.
Proof.
  induction l as [|x l IH]; [done|]. simpl.
  by rewrite insert_stable, !filter_cons, IH.
Qed.

End TablesFacts.

(** X29: the tokens branch of [get_all_tables] returns every table once,
    paired with its name without [tokens_], sorted by [sort_key]: a table
    whose file name [int] accepts is preceded only by such tables, with
    smaller or equal integers; tables with the same key keep the order of
    the query. *)
Theorem get_all_tables_order (table_names : list (list ascii)) :
  let tables := Tables.get_all_tables table_names in
  tables.*1 ≡ₚ table_names /\
  Forall (fun item => item.2 = Str.replace item.1 (Str.chars "tokens_") []) tables /\
  StronglySorted (fun a b => Tables.key_le (Tables.sort_key a) (Tables.sort_key b))
                 tables /\
  (forall i j a b n,
     tables !! i = Some a -> tables !! j = Some b -> i < j ->
     Tables.sort_key b = Tables.Numeric n ->
     exists m, Tables.sort_key a = Tables.Numeric m /\ (m <= n)%Z) /\
  (forall k,
     filter (fun item => Tables.sort_key item = k) tables
     = filter (fun item => Tables.sort_key item = k)
         ((fun table_name =>
             (table_name, Str.replace table_name (Str.chars "tokens_") []))
          <$> table_names)).
Proof.
  intros tables. unfold tables, Tables.get_all_tables.
  set (items := (fun table_name => (table_name, _)) <$> table_names).
  pose proof (sort_Permutation Tables.sort_key items) as Hperm.
  pose proof (sort_sorted Tables.sort_key items) as Hsorted.
  split.
  { rewrite Hperm. unfold items. rewrite <- list_fmap_compose.
    assert (forall l : list (list ascii),
              (fst ∘ (fun t => (t, Str.replace t (Str.chars "tokens_") []))) <$> l = l)
      as ->; [|done].
    induction l as [|x l IH]; [done|]. by rewrite fmap_cons, IH. }
  split.
  { rewrite Hperm. unfold items. apply Forall_fmap, Forall_forall. by intros t _. }
  split; [done|]. split; [|intros k; apply sort_stable].
  intros i j a b n Ha Hb Hij Hn.
  assert (Tables.key_le (Tables.sort_key a) (Tables.sort_key b)) as Hle.
  { clear -Hsorted Ha Hb Hij. revert i j Ha Hb Hij.
    induction Hsorted as [|x l _ IH Hx]; intros i j Ha Hb Hij.
    { by rewrite lookup_nil in Ha. }
    destruct j as [|j]; [lia|]. simpl in Hb.
    destruct i as [|i]; simpl in Ha.
    - injection Ha as ->. rewrite Forall_forall in Hx.
      apply Hx. by eapply list_elem_of_lookup_2.
    - apply (IH i j); [done..|lia]. }
  rewrite Hn in Hle. destruct (Tables.sort_key a) as [m|s]; [|done].
  by exists m.
Qed.
